(** * A shallow embedding of the Thumb writer (gum/arch-arm/gumthumbwriter.c)

    The writer emits Thumb / Thumb-2 halfwords into a caller-owned buffer,
    records label and literal references, and resolves them in [flush].

    Conventions of the embedding:
    - C integers are [Z] with the conversions written out ([u16], [u32],
      [u64] for the unsigned types, [s32] for a cast to [gint32]); C's [/]
      and [%] on signed operands are [Z.quot] and [Z.rem];
    - the code buffer is a byte-addressed heap [memory]; the pointers
      [base], [code], [insn] and the pool slots are byte addresses;
    - the three bounded arrays are lists holding the first [len] entries,
      a new entry is appended at the end;
    - a function returning [gboolean] returns [bool * GumThumbWriter], the
      second component being the writer after the call;
    - the host is taken to be a 32-bit little-endian ARM: [gsize] has 32
      bits and a pool slot is stored low byte first; a difference of two
      [gint32] that leaves the range of [int] wraps around.

    The file has four parts: the writer, function by function, in the
    order of the source; the behaviour the specification states, in its
    own words; the invariants of the proofs and the writers of the
    scenarios; the properties, those of the stated behaviour first and
    further ones of the code after them. *)

From Stdlib Require Import ZArith List Bool Lia Permutation.
Import ListNotations.
Local Open Scope Z_scope.

Declare Scope cbits_scope.
Infix ".|" := Z.lor (at level 42, left associativity) : cbits_scope.
Infix ".&" := Z.land (at level 41, left associativity) : cbits_scope.
Infix ".^" := Z.lxor (at level 41, left associativity) : cbits_scope.
Infix "<<" := Z.shiftl (at level 39, left associativity) : cbits_scope.
Infix ">>" := Z.shiftr (at level 39, left associativity) : cbits_scope.
Local Open Scope cbits_scope.

(** ** Integer types *)

Definition u8 (x : Z) : Z := x mod 2 ^ 8.
Definition u16 (x : Z) : Z := x mod 2 ^ 16.
Definition u32 (x : Z) : Z := x mod 2 ^ 32.
Definition u64 (x : Z) : Z := x mod 2 ^ 64.

(** [(gint32) x]: the low 32 bits read as a two's complement number. *)
Definition s32 (x : Z) : Z := (x + 2 ^ 31) mod 2 ^ 32 - 2 ^ 31.

(** [gsize] as on the 32-bit ARM hosts the writer targets. *)
Definition gsize (x : Z) : Z := u32 x.

(** GLib's [ABS (a)]: [((a) < 0) ? -(a) : (a)]. *)
Definition ABS (a : Z) : Z := if a <? 0 then - a else a.

(** Modelled from the spec: the mask and range macros of gumdefs.h, which
    is not part of the sources at hand ("fits in signed 8 bits", "signed 11
    bits", "unsigned 7 bits"; [imm5], [imm10], [imm11] fields). *)
Definition GUM_INT5_MASK : Z := 0x1f.
Definition GUM_INT8_MASK : Z := 0xff.
Definition GUM_INT10_MASK : Z := 0x3ff.
Definition GUM_INT11_MASK : Z := 0x7ff.
Definition GUM_IS_WITHIN_UINT7_RANGE (i : Z) : bool :=
  (0 <=? i) && (i <=? 127).
Definition GUM_IS_WITHIN_INT8_RANGE (i : Z) : bool :=
  (-128 <=? i) && (i <=? 127).
Definition GUM_IS_WITHIN_INT11_RANGE (i : Z) : bool :=
  (-1024 <=? i) && (i <=? 1023).

Definition GUM_MAX_LABEL_COUNT : Z := 100.
Definition GUM_MAX_LREF_COUNT : Z := 3 * GUM_MAX_LABEL_COUNT.
Definition GUM_MAX_LITERAL_REF_COUNT : Z := 100.

(** ** The code buffer *)

(** One byte per address; a store keeps the low eight bits. *)
Definition memory := Z -> Z.

Definition load8 (m : memory) (a : Z) : Z := u8 (m a).

Definition store8 (m : memory) (a b : Z) : memory :=
  fun x => if x =? a then u8 b else m x.

(** [GUINT16_FROM_LE ( *p )] and [*p = GUINT16_TO_LE (h)]: byte [a] is the
    low byte, byte [a + 1] the high byte, whatever the host byte order. *)
Definition load16 (m : memory) (a : Z) : Z :=
  load8 m a + 2 ^ 8 * load8 m (a + 1).

Definition store16 (m : memory) (a h : Z) : memory :=
  store8 (store8 m a h) (a + 1) (h >> 8).

(** A [guint32] pool slot, read and written in host order (little-endian,
    as on the ARM hosts the writer runs on). *)
Definition load32 (m : memory) (a : Z) : Z :=
  load16 m a + 2 ^ 16 * load16 m (a + 2).

Definition store32 (m : memory) (a v : Z) : memory :=
  store16 (store16 m a v) (a + 2) (v >> 16).

Fixpoint store_bytes (m : memory) (a : Z) (data : list Z) : memory :=
  match data with
  | [] => m
  | b :: rest => store_bytes (store8 m a b) (a + 1) rest
  end.

(** ** Registers *)

(** The general-purpose registers of capstone's [arm_reg] the writer is
    called with. *)
Inductive arm_reg : Set :=
  | ARM_REG_R0 | ARM_REG_R1 | ARM_REG_R2 | ARM_REG_R3
  | ARM_REG_R4 | ARM_REG_R5 | ARM_REG_R6 | ARM_REG_R7
  | ARM_REG_R8 | ARM_REG_R9 | ARM_REG_R10 | ARM_REG_R11 | ARM_REG_R12
  | ARM_REG_SP | ARM_REG_LR | ARM_REG_PC.

Record GumArmRegInfo : Set := mkRegInfo { meta : Z; index : Z }.

(** Modelled from the spec: [GumArmMetaReg] and [gum_arm_reg_describe] of
    gumarmreg.h/.c, which are not part of the sources at hand. The helper
    "maps a symbolic register to [index: 0..15] and a meta-class
    R0..R7 | R8..R12 | SP | LR | PC"; the meta-registers are numbered in
    register order, SP, LR and PC being R13, R14 and R15. *)
Definition GUM_ARM_MREG_R0 : Z := 0.
Definition GUM_ARM_MREG_R7 : Z := 7.
Definition GUM_ARM_MREG_R8 : Z := 8.
Definition GUM_ARM_MREG_R12 : Z := 12.
Definition GUM_ARM_MREG_SP : Z := 13.
Definition GUM_ARM_MREG_LR : Z := 14.
Definition GUM_ARM_MREG_PC : Z := 15.

Definition arm_reg_number (reg : arm_reg) : Z :=
  match reg with
  | ARM_REG_R0 => 0 | ARM_REG_R1 => 1 | ARM_REG_R2 => 2 | ARM_REG_R3 => 3
  | ARM_REG_R4 => 4 | ARM_REG_R5 => 5 | ARM_REG_R6 => 6 | ARM_REG_R7 => 7
  | ARM_REG_R8 => 8 | ARM_REG_R9 => 9 | ARM_REG_R10 => 10
  | ARM_REG_R11 => 11 | ARM_REG_R12 => 12
  | ARM_REG_SP => 13 | ARM_REG_LR => 14 | ARM_REG_PC => 15
  end.

Definition gum_arm_reg_describe (reg : arm_reg) : GumArmRegInfo :=
  let m := GUM_ARM_MREG_R0 + arm_reg_number reg in
  mkRegInfo m (m - GUM_ARM_MREG_R0).

Definition arm_reg_eqb (a b : arm_reg) : bool :=
  arm_reg_number a =? arm_reg_number b.

(** [ARM_REG_R0 + arg_index] for the first four argument slots. *)
Definition arm_reg_of_arg_index (i : nat) : arm_reg :=
  match i with
  | O => ARM_REG_R0
  | 1%nat => ARM_REG_R1
  | 2%nat => ARM_REG_R2
  | _ => ARM_REG_R3
  end.

(** ** The writer *)

(** Modelled from the spec: [GumOS] of gumprocess.h, which is not part of
    the sources at hand. The OS tag is "one of Linux, Android, other"; the
    writer tells only the first two apart. *)
Inductive GumOS : Set :=
  | GUM_OS_LINUX
  | GUM_OS_ANDROID
  | GUM_OS_OTHER.

Record GumThumbLabelMapping : Set :=
  mkLabelMapping { map_id : Z; map_address : Z }.

Record GumThumbLabelRef : Set :=
  mkLabelRef { lref_id : Z; lref_insn : Z; lref_pc : Z }.

Record GumThumbLiteralRef : Set :=
  mkLiteralRef { lit_val : Z; lit_insn : Z; lit_pc : Z }.

Inductive GumThumbMemoryOperation : Set :=
  | GUM_THUMB_MEMORY_LOAD
  | GUM_THUMB_MEMORY_STORE.

Inductive GumArgument : Set :=
  | GUM_ARG_ADDRESS (address : Z)
  | GUM_ARG_REGISTER (reg : arm_reg).

(** The fields of [struct _GumThumbWriter], the heap its pointers point
    into, and two history counters that no C field corresponds to:
    [halfwords_emitted] counts the halfwords the cursor was advanced over by
    an emission, [bytes_skipped] the bytes passed over by [skip]. *)
Record GumThumbWriter : Type := mkWriter {
  target_os : GumOS;
  base : Z;
  code : Z;
  pc : Z;
  id_to_address : list GumThumbLabelMapping;
  label_refs : list GumThumbLabelRef;
  literal_refs : list GumThumbLiteralRef;
  heap : memory;
  halfwords_emitted : Z;
  bytes_skipped : Z
}.

Definition with_heap (w : GumThumbWriter) (m : memory) : GumThumbWriter :=
  mkWriter (target_os w) (base w) (code w) (pc w) (id_to_address w)
    (label_refs w) (literal_refs w) m (halfwords_emitted w) (bytes_skipped w).

Definition with_label_refs (w : GumThumbWriter)
    (l : list GumThumbLabelRef) : GumThumbWriter :=
  mkWriter (target_os w) (base w) (code w) (pc w) (id_to_address w)
    l (literal_refs w) (heap w) (halfwords_emitted w) (bytes_skipped w).

Definition with_literal_refs (w : GumThumbWriter)
    (l : list GumThumbLiteralRef) : GumThumbWriter :=
  mkWriter (target_os w) (base w) (code w) (pc w) (id_to_address w)
    (label_refs w) l (heap w) (halfwords_emitted w) (bytes_skipped w).

Definition with_id_to_address (w : GumThumbWriter)
    (l : list GumThumbLabelMapping) : GumThumbWriter :=
  mkWriter (target_os w) (base w) (code w) (pc w) l
    (label_refs w) (literal_refs w) (heap w) (halfwords_emitted w)
    (bytes_skipped w).

(** [code] advanced by [n] halfwords and [pc] by [d] bytes, [n] halfwords
    accounted as emitted. *)
Definition advance (w : GumThumbWriter) (n d : Z) : GumThumbWriter :=
  mkWriter (target_os w) (base w) (code w + 2 * n) (u64 (pc w + d))
    (id_to_address w) (label_refs w) (literal_refs w) (heap w)
    (halfwords_emitted w + n) (bytes_skipped w).

(** [gum_thumb_writer_reset]; [native_os] is what
    [gum_process_get_native_os ()] returns and [m] the heap at the call. *)
Definition gum_thumb_writer_reset (native_os : GumOS) (m : memory)
    (code_address : Z) : GumThumbWriter :=
  mkWriter native_os code_address code_address (u64 code_address)
    [] [] [] m 0 0.

Definition gum_thumb_writer_set_target_os (self : GumThumbWriter)
    (os : GumOS) : GumThumbWriter :=
  mkWriter os (base self) (code self) (pc self) (id_to_address self)
    (label_refs self) (literal_refs self) (heap self)
    (halfwords_emitted self) (bytes_skipped self).

Definition gum_thumb_writer_cur (self : GumThumbWriter) : Z := code self.

(** [(guint) (self->code - self->base) * sizeof (guint16)]: the difference
    of the two [guint16 *] counts halfwords, and C defines it only when the
    cursor is a whole number of halfwords away from the base. After a skip
    of an odd number of bytes the expression has no defined value, which is
    [None] here. The difference is converted to [guint], the product is
    taken in [gsize] and returned as a [guint]. *)
Definition gum_thumb_writer_offset (self : GumThumbWriter) : option Z :=
  if (code self - base self) mod 2 =? 0
  then Some (u32 (gsize (u32 ((code self - base self) / 2) * 2)))
  else None.

(** [n_bytes] is a [guint]: the argument is converted at the call. *)
Definition gum_thumb_writer_skip (self : GumThumbWriter)
    (n_bytes : Z) : GumThumbWriter :=
  let n_bytes := u32 n_bytes in
  mkWriter (target_os self) (base self) (code self + n_bytes)
    (u64 (pc self + n_bytes)) (id_to_address self) (label_refs self)
    (literal_refs self) (heap self) (halfwords_emitted self)
    (bytes_skipped self + n_bytes).

(** [*self->code++ = GUINT16_TO_LE (insn); self->pc += 2;] with [insn]
    converted to [guint16] at the call. *)
Definition gum_thumb_writer_put_instruction (self : GumThumbWriter)
    (insn : Z) : GumThumbWriter :=
  advance (with_heap self (store16 (heap self) (code self) (u16 insn))) 1 2.

Definition gum_thumb_writer_put_bytes (self : GumThumbWriter)
    (data : list Z) : bool * GumThumbWriter :=
  let n := Z.of_nat (length data) in
  if negb (n mod 2 =? 0) then (false, self)
  else
    (true,
     advance (with_heap self (store_bytes (heap self) (code self) data))
       (n / 2) n).

Definition gum_instruction_is_t1_load (instruction : Z) : bool :=
  instruction .& 0xf800 =? 0x4800.

(** ** Labels and references *)

Fixpoint lookup_label (l : list GumThumbLabelMapping) (id : Z) : Z :=
  match l with
  | [] => 0
  | map :: rest =>
      if map_id map =? id then map_address map else lookup_label rest id
  end.

Definition gum_thumb_writer_lookup_address_for_label_id
    (self : GumThumbWriter) (id : Z) : Z :=
  lookup_label (id_to_address self) id.

Definition gum_thumb_writer_add_address_for_label_id
    (self : GumThumbWriter) (id address : Z) : bool * GumThumbWriter :=
  if Z.of_nat (length (id_to_address self)) =? GUM_MAX_LABEL_COUNT
  then (false, self)
  else
    (true,
     with_id_to_address self
       (id_to_address self ++ [mkLabelMapping id address])).

Definition gum_thumb_writer_put_label (self : GumThumbWriter)
    (id : Z) : bool * GumThumbWriter :=
  if negb (gum_thumb_writer_lookup_address_for_label_id self id =? 0)
  then (false, self)
  else gum_thumb_writer_add_address_for_label_id self id (pc self).

Definition gum_thumb_writer_add_label_reference_here
    (self : GumThumbWriter) (id : Z) : bool * GumThumbWriter :=
  if Z.of_nat (length (label_refs self)) =? GUM_MAX_LREF_COUNT
  then (false, self)
  else
    (true,
     with_label_refs self
       (label_refs self ++ [mkLabelRef id (code self) (u64 (pc self + 4))])).

Definition gum_thumb_writer_add_literal_reference_here
    (self : GumThumbWriter) (val : Z) : bool * GumThumbWriter :=
  if Z.of_nat (length (literal_refs self)) =? GUM_MAX_LITERAL_REF_COUNT
  then (false, self)
  else
    (true,
     with_literal_refs self
       (literal_refs self
          ++ [mkLiteralRef val (code self) (u64 (pc self + 4))])).

(** ** Branches *)

Definition gboolean (b : bool) : Z := if b then 1 else 0.

(** The signed halfword distance of [gum_thumb_writer_put_branch_imm]:
    both operands are cast to [gint32]; their difference is an [int], taken
    to wrap around where it leaves the range of [int]. *)
Definition branch_imm_distance (self : GumThumbWriter) (target : Z) : Z :=
  Z.quot (s32 (s32 (u64 target .& u64 (Z.lnot 1)) - s32 (u64 (pc self + 4)))) 2.

(** The rest of [gum_thumb_writer_put_branch_imm], from the value
    [distance.i] on: the fields of the T4 encoding and the two halfwords. *)
Definition put_branch_distance (self : GumThumbWriter)
    (distance_i : Z) (link thumb : bool) : GumThumbWriter :=
  let distance_u := u32 distance_i in
  let s := u16 ((distance_u >> 31) .& 1) in
  let j1 := u16 (u32 (Z.lnot ((distance_u >> 22) .^ s)) .& 1) in
  let j2 := u16 (u32 (Z.lnot ((distance_u >> 21) .^ s)) .& 1) in
  let imm10 := u16 ((distance_u >> 11) .& GUM_INT10_MASK) in
  let imm11 := u16 (distance_u .& GUM_INT11_MASK) in
  let self := gum_thumb_writer_put_instruction self
                (0xf000 .| (s << 10) .| imm10) in
  gum_thumb_writer_put_instruction self
    (0x8000 .| (gboolean link << 14) .| (j1 << 13)
       .| (gboolean thumb << 12) .| (j2 << 11) .| imm11).

Definition gum_thumb_writer_put_branch_imm (self : GumThumbWriter)
    (target : Z) (link thumb : bool) : GumThumbWriter :=
  put_branch_distance self (branch_imm_distance self target) link thumb.

Definition gum_thumb_writer_put_b_imm (self : GumThumbWriter)
    (target : Z) : GumThumbWriter :=
  gum_thumb_writer_put_branch_imm self target false true.

Definition gum_thumb_writer_put_bx_reg (self : GumThumbWriter)
    (reg : arm_reg) : GumThumbWriter :=
  let ri := gum_arm_reg_describe reg in
  gum_thumb_writer_put_instruction self (0x4700 .| (index ri << 3)).

Definition gum_thumb_writer_put_blx_reg (self : GumThumbWriter)
    (reg : arm_reg) : GumThumbWriter :=
  let ri := gum_arm_reg_describe reg in
  gum_thumb_writer_put_instruction self (0x4780 .| (index ri << 3)).

Definition gum_thumb_writer_put_bl_imm (self : GumThumbWriter)
    (target : Z) : GumThumbWriter :=
  gum_thumb_writer_put_branch_imm self target true true.

Definition gum_thumb_writer_put_blx_imm (self : GumThumbWriter)
    (target : Z) : GumThumbWriter :=
  gum_thumb_writer_put_branch_imm self target true false.

Definition gum_thumb_writer_put_cmp_reg_imm (self : GumThumbWriter)
    (reg : arm_reg) (imm_value : Z) : GumThumbWriter :=
  let ri := gum_arm_reg_describe reg in
  gum_thumb_writer_put_instruction self
    (0x2800 .| (index ri << 8) .| u8 imm_value).

Definition gum_thumb_writer_put_b_label (self : GumThumbWriter)
    (label_id : Z) : bool * GumThumbWriter :=
  let '(ok, self') :=
    gum_thumb_writer_add_label_reference_here self label_id in
  if negb ok then (false, self)
  else (true, gum_thumb_writer_put_instruction self' 0xe000).

(** [cc] is capstone's [arm_cc]: [ARM_CC_EQ] is 1, [ARM_CC_NE] is 2. *)
Definition ARM_CC_EQ : Z := 1.
Definition ARM_CC_NE : Z := 2.

Definition gum_thumb_writer_put_b_cond_label (self : GumThumbWriter)
    (cc : Z) (label_id : Z) : bool * GumThumbWriter :=
  let '(ok, self') :=
    gum_thumb_writer_add_label_reference_here self label_id in
  if negb ok then (false, self)
  else
    (true,
     gum_thumb_writer_put_instruction self' (0xd000 .| ((cc - 1) << 8))).

Definition gum_thumb_writer_put_beq_label (self : GumThumbWriter)
    (label_id : Z) : bool * GumThumbWriter :=
  gum_thumb_writer_put_b_cond_label self ARM_CC_EQ label_id.

Definition gum_thumb_writer_put_bne_label (self : GumThumbWriter)
    (label_id : Z) : bool * GumThumbWriter :=
  gum_thumb_writer_put_b_cond_label self ARM_CC_NE label_id.

Definition gum_thumb_writer_put_cbz_reg_label (self : GumThumbWriter)
    (reg : arm_reg) (label_id : Z) : bool * GumThumbWriter :=
  let ri := gum_arm_reg_describe reg in
  let '(ok, self') :=
    gum_thumb_writer_add_label_reference_here self label_id in
  if negb ok then (false, self)
  else (true, gum_thumb_writer_put_instruction self' (0xb100 .| index ri)).

Definition gum_thumb_writer_put_cbnz_reg_label (self : GumThumbWriter)
    (reg : arm_reg) (label_id : Z) : bool * GumThumbWriter :=
  let ri := gum_arm_reg_describe reg in
  let '(ok, self') :=
    gum_thumb_writer_add_label_reference_here self label_id in
  if negb ok then (false, self)
  else (true, gum_thumb_writer_put_instruction self' (0xb900 .| index ri)).

(** ** Push and pop *)

(** [need_wide_instruction] after the first loop of
    [gum_thumb_writer_put_push_or_pop_regs]. *)
Definition need_wide_instruction (special_reg : Z)
    (items : list GumArmRegInfo) : bool :=
  fold_left
    (fun need ri =>
       let is_low_reg :=
         (GUM_ARM_MREG_R0 <=? meta ri) && (meta ri <=? GUM_ARM_MREG_R7) in
       if negb is_low_reg && negb (meta ri =? special_reg)
       then true else need)
    items false.

Definition wide_mask (items : list GumArmRegInfo) : Z :=
  fold_left (fun mask ri => u16 (mask .| (1 << index ri))) items 0.

Definition narrow_insn (narrow_opcode special_reg : Z)
    (items : list GumArmRegInfo) : Z :=
  fold_left
    (fun insn ri =>
       if meta ri =? special_reg then u16 (insn .| 0x0100)
       else u16 (insn .| (1 << index ri)))
    items (u16 narrow_opcode).

Definition gum_thumb_writer_put_push_or_pop_regs (self : GumThumbWriter)
    (narrow_opcode wide_opcode special_reg : Z)
    (regs : list arm_reg) : bool * GumThumbWriter :=
  if Z.of_nat (length regs) =? 0 then (false, self)
  else
    let items := map gum_arm_reg_describe regs in
    if need_wide_instruction special_reg items then
      let self := gum_thumb_writer_put_instruction self wide_opcode in
      (true, gum_thumb_writer_put_instruction self (wide_mask items))
    else
      (true,
       gum_thumb_writer_put_instruction self
         (narrow_insn narrow_opcode special_reg items)).

Definition gum_thumb_writer_put_push_regs_array (self : GumThumbWriter)
    (regs : list arm_reg) : bool * GumThumbWriter :=
  gum_thumb_writer_put_push_or_pop_regs self 0xb400 0xe92d
    GUM_ARM_MREG_LR regs.

Definition gum_thumb_writer_put_pop_regs_array (self : GumThumbWriter)
    (regs : list arm_reg) : bool * GumThumbWriter :=
  gum_thumb_writer_put_push_or_pop_regs self 0xbc00 0xe8bd
    GUM_ARM_MREG_PC regs.

(** The variadic forms collect [first_reg] and the remaining arguments
    into an array and call the array form ([n_regs] is asserted non-zero). *)
Definition gum_thumb_writer_put_push_regs (self : GumThumbWriter)
    (first_reg : arm_reg) (more : list arm_reg) : bool * GumThumbWriter :=
  gum_thumb_writer_put_push_or_pop_regs self 0xb400 0xe92d
    GUM_ARM_MREG_LR (first_reg :: more).

Definition gum_thumb_writer_put_pop_regs (self : GumThumbWriter)
    (first_reg : arm_reg) (more : list arm_reg) : bool * GumThumbWriter :=
  gum_thumb_writer_put_push_or_pop_regs self 0xbc00 0xe8bd
    GUM_ARM_MREG_PC (first_reg :: more).

(** ** Loads, stores and moves *)

Definition gum_thumb_writer_put_ldr_reg_u32 (self : GumThumbWriter)
    (reg : arm_reg) (val : Z) : bool * GumThumbWriter :=
  let ri := gum_arm_reg_describe reg in
  let '(ok, self') :=
    gum_thumb_writer_add_literal_reference_here self (u32 val) in
  if negb ok then (false, self)
  else if meta ri <=? GUM_ARM_MREG_R7 then
    (true, gum_thumb_writer_put_instruction self' (0x4800 .| (index ri << 8)))
  else
    let add := true in
    let self' :=
      gum_thumb_writer_put_instruction self' (0xf85f .| (gboolean add << 7)) in
    (true, gum_thumb_writer_put_instruction self' (index ri << 12)).

Definition gum_thumb_writer_put_ldr_reg_address (self : GumThumbWriter)
    (reg : arm_reg) (address : Z) : bool * GumThumbWriter :=
  gum_thumb_writer_put_ldr_reg_u32 self reg (u32 address).

(** [right_offset] is a [gsize]: the argument is converted at the call. *)
Definition gum_thumb_writer_put_transfer_reg_reg_offset
    (self : GumThumbWriter) (operation : GumThumbMemoryOperation)
    (left_reg right_reg : arm_reg) (right_offset : Z)
    : bool * GumThumbWriter :=
  let right_offset := gsize right_offset in
  let lr := gum_arm_reg_describe left_reg in
  let rr := gum_arm_reg_describe right_reg in
  if (meta lr <=? GUM_ARM_MREG_R7)
     && ((meta rr <=? GUM_ARM_MREG_R7) || (meta rr =? GUM_ARM_MREG_SP))
     && (((meta rr =? GUM_ARM_MREG_SP) && (right_offset <=? 1020))
         || (negb (meta rr =? GUM_ARM_MREG_SP) && (right_offset <=? 124)))
     && (right_offset mod 4 =? 0)
  then
    let insn :=
      if meta rr =? GUM_ARM_MREG_SP
      then u16 (0x9000 .| (index lr << 8) .| (right_offset / 4))
      else
        u16 (0x6000 .| ((right_offset / 4) << 6) .| (index rr << 3)
               .| index lr) in
    let insn :=
      match operation with
      | GUM_THUMB_MEMORY_LOAD => u16 (insn .| 0x0800)
      | GUM_THUMB_MEMORY_STORE => insn
      end in
    (true, gum_thumb_writer_put_instruction self insn)
  else if 4095 <? right_offset then (false, self)
  else
    let self :=
      gum_thumb_writer_put_instruction self
        (0xf8c0
           .| (match operation with
               | GUM_THUMB_MEMORY_LOAD => 0x0010
               | GUM_THUMB_MEMORY_STORE => 0x0000
               end)
           .| index rr) in
    (true,
     gum_thumb_writer_put_instruction self ((index lr << 12) .| right_offset)).

Definition gum_thumb_writer_put_ldr_reg_reg_offset (self : GumThumbWriter)
    (dst_reg src_reg : arm_reg) (src_offset : Z) : bool * GumThumbWriter :=
  gum_thumb_writer_put_transfer_reg_reg_offset self GUM_THUMB_MEMORY_LOAD
    dst_reg src_reg src_offset.

Definition gum_thumb_writer_put_ldr_reg_reg (self : GumThumbWriter)
    (dst_reg src_reg : arm_reg) : GumThumbWriter :=
  snd (gum_thumb_writer_put_ldr_reg_reg_offset self dst_reg src_reg 0).

Definition gum_thumb_writer_put_str_reg_reg_offset (self : GumThumbWriter)
    (src_reg dst_reg : arm_reg) (dst_offset : Z) : bool * GumThumbWriter :=
  gum_thumb_writer_put_transfer_reg_reg_offset self GUM_THUMB_MEMORY_STORE
    src_reg dst_reg dst_offset.

Definition gum_thumb_writer_put_str_reg_reg (self : GumThumbWriter)
    (src_reg dst_reg : arm_reg) : GumThumbWriter :=
  snd (gum_thumb_writer_put_str_reg_reg_offset self src_reg dst_reg 0).

Definition gum_thumb_writer_put_mov_reg_reg (self : GumThumbWriter)
    (dst_reg src_reg : arm_reg) : GumThumbWriter :=
  let dst := gum_arm_reg_describe dst_reg in
  let src := gum_arm_reg_describe src_reg in
  let insn :=
    if (meta dst <=? GUM_ARM_MREG_R7) && (meta src <=? GUM_ARM_MREG_R7)
    then 0x1c00 .| (index src << 3) .| index dst
    else
      let '(dst_is_high, dst_index) :=
        if GUM_ARM_MREG_R7 <? meta dst
        then (1, u32 (index dst - GUM_ARM_MREG_R8))
        else (0, index dst) in
      0x4600 .| (dst_is_high << 7) .| (index src << 3) .| dst_index in
  gum_thumb_writer_put_instruction self insn.

Definition gum_thumb_writer_put_mov_reg_u8 (self : GumThumbWriter)
    (dst_reg : arm_reg) (imm_value : Z) : GumThumbWriter :=
  let dst := gum_arm_reg_describe dst_reg in
  gum_thumb_writer_put_instruction self
    (0x2000 .| (index dst << 8) .| u8 imm_value).

(** ** Arithmetic *)

Definition gum_thumb_writer_put_add_reg_imm (self : GumThumbWriter)
    (dst_reg : arm_reg) (imm_value : Z) : bool * GumThumbWriter :=
  let dst := gum_arm_reg_describe dst_reg in
  let sign_mask := 0x0000 in
  if meta dst =? GUM_ARM_MREG_SP then
    if negb (Z.rem imm_value 4 =? 0) then (false, self)
    else
      let sign_mask := if imm_value <? 0 then 0x0080 else sign_mask in
      let insn := u16 (0xb000 .| sign_mask .| ABS (Z.quot imm_value 4)) in
      (true, gum_thumb_writer_put_instruction self insn)
  else
    let sign_mask := if imm_value <? 0 then 0x0800 else sign_mask in
    let insn :=
      u16 (0x3000 .| sign_mask .| (index dst << 8) .| ABS imm_value) in
    (true, gum_thumb_writer_put_instruction self insn).

Definition gum_thumb_writer_put_add_reg_reg_reg (self : GumThumbWriter)
    (dst_reg left_reg right_reg : arm_reg) : GumThumbWriter :=
  let dst := gum_arm_reg_describe dst_reg in
  let left := gum_arm_reg_describe left_reg in
  let right := gum_arm_reg_describe right_reg in
  let insn :=
    if meta left =? meta dst then
      let insn := 0x4400 in
      let insn :=
        if meta dst <=? GUM_ARM_MREG_R7
        then u16 (insn .| index dst)
        else u16 (insn .| (0x0080 .| u32 (index dst - GUM_ARM_MREG_R8))) in
      u16 (insn .| (index right << 3))
    else
      u16 (0x1800 .| (index right << 6) .| (index left << 3) .| index dst) in
  gum_thumb_writer_put_instruction self insn.

Definition gum_thumb_writer_put_add_reg_reg (self : GumThumbWriter)
    (dst_reg src_reg : arm_reg) : GumThumbWriter :=
  gum_thumb_writer_put_add_reg_reg_reg self dst_reg dst_reg src_reg.

Definition gum_thumb_writer_put_add_reg_reg_imm (self : GumThumbWriter)
    (dst_reg left_reg : arm_reg) (right_value : Z) : bool * GumThumbWriter :=
  let dst := gum_arm_reg_describe dst_reg in
  let left := gum_arm_reg_describe left_reg in
  if meta left =? meta dst then
    gum_thumb_writer_put_add_reg_imm self dst_reg right_value
  else if (meta left =? GUM_ARM_MREG_SP) || (meta left =? GUM_ARM_MREG_PC)
  then
    if (right_value <? 0) || negb (Z.rem right_value 4 =? 0)
    then (false, self)
    else
      let base_mask :=
        if meta left =? GUM_ARM_MREG_SP then 0x0800 else 0x0000 in
      let insn :=
        u16 (0xa000 .| base_mask .| (index dst << 8)
               .| Z.quot right_value 4) in
      (true, gum_thumb_writer_put_instruction self insn)
  else
    let sign_mask := 0x0000 in
    if 7 <? ABS right_value then (false, self)
    else
      let sign_mask := if right_value <? 0 then 0x0200 else sign_mask in
      let insn :=
        u16 (0x1c00 .| sign_mask .| (ABS right_value << 6)
               .| (index left << 3) .| index dst) in
      (true, gum_thumb_writer_put_instruction self insn).

Definition gum_thumb_writer_put_sub_reg_imm (self : GumThumbWriter)
    (dst_reg : arm_reg) (imm_value : Z) : bool * GumThumbWriter :=
  gum_thumb_writer_put_add_reg_imm self dst_reg (- imm_value).

Definition gum_thumb_writer_put_sub_reg_reg_reg (self : GumThumbWriter)
    (dst_reg left_reg right_reg : arm_reg) : GumThumbWriter :=
  let dst := gum_arm_reg_describe dst_reg in
  let left := gum_arm_reg_describe left_reg in
  let right := gum_arm_reg_describe right_reg in
  let insn :=
    u16 (0x1a00 .| (index right << 6) .| (index left << 3) .| index dst) in
  gum_thumb_writer_put_instruction self insn.

Definition gum_thumb_writer_put_sub_reg_reg (self : GumThumbWriter)
    (dst_reg src_reg : arm_reg) : GumThumbWriter :=
  gum_thumb_writer_put_sub_reg_reg_reg self dst_reg dst_reg src_reg.

Definition gum_thumb_writer_put_sub_reg_reg_imm (self : GumThumbWriter)
    (dst_reg left_reg : arm_reg) (right_value : Z) : bool * GumThumbWriter :=
  gum_thumb_writer_put_add_reg_reg_imm self dst_reg left_reg (- right_value).

(** ** Nop and breakpoints *)

Definition gum_thumb_writer_put_nop (self : GumThumbWriter)
    : GumThumbWriter :=
  gum_thumb_writer_put_instruction self 0x46c0.

Definition gum_thumb_writer_put_bkpt_imm (self : GumThumbWriter)
    (imm : Z) : GumThumbWriter :=
  gum_thumb_writer_put_instruction self (0xbe00 .| u8 imm).

Definition gum_thumb_writer_put_breakpoint (self : GumThumbWriter)
    : GumThumbWriter :=
  match target_os self with
  | GUM_OS_LINUX | GUM_OS_ANDROID =>
      gum_thumb_writer_put_instruction self 0xde01
  | _ =>
      let self := gum_thumb_writer_put_bkpt_imm self 0 in
      gum_thumb_writer_put_bx_reg self ARM_REG_LR
  end.

(** ** Calls *)

(** One iteration of the loop of
    [gum_thumb_writer_put_argument_list_setup], for the argument at
    [arg_index]. *)
Definition put_argument (self : GumThumbWriter) (arg_index : nat)
    (arg : GumArgument) : GumThumbWriter :=
  let r := arm_reg_of_arg_index arg_index in
  if (arg_index <? 4)%nat then
    match arg with
    | GUM_ARG_ADDRESS address =>
        snd (gum_thumb_writer_put_ldr_reg_address self r address)
    | GUM_ARG_REGISTER reg =>
        if negb (arm_reg_eqb reg r)
        then gum_thumb_writer_put_mov_reg_reg self r reg
        else self
    end
  else
    match arg with
    | GUM_ARG_ADDRESS address =>
        let self :=
          snd (gum_thumb_writer_put_ldr_reg_address self ARM_REG_R0
                 address) in
        snd (gum_thumb_writer_put_push_regs self ARM_REG_R0 [])
    | GUM_ARG_REGISTER reg =>
        snd (gum_thumb_writer_put_push_regs self reg [])
    end.

(** The arguments are visited from the last one down to the first;
    [args_rev] holds the remaining ones, last first. *)
Fixpoint put_arguments_from (self : GumThumbWriter)
    (args_rev : list GumArgument) : GumThumbWriter :=
  match args_rev with
  | [] => self
  | arg :: rest =>
      put_arguments_from (put_argument self (length rest) arg) rest
  end.

Definition gum_thumb_writer_put_argument_list_setup (self : GumThumbWriter)
    (args : list GumArgument) : GumThumbWriter :=
  put_arguments_from self (rev args).

Definition gum_thumb_writer_put_argument_list_teardown
    (self : GumThumbWriter) (n_args : nat) : GumThumbWriter :=
  self.

Definition gum_thumb_writer_put_call_address_with_arguments_array
    (self : GumThumbWriter) (func : Z) (args : list GumArgument)
    : GumThumbWriter :=
  let self := gum_thumb_writer_put_argument_list_setup self args in
  let self := snd (gum_thumb_writer_put_ldr_reg_address self ARM_REG_LR func) in
  let self := gum_thumb_writer_put_blx_reg self ARM_REG_LR in
  gum_thumb_writer_put_argument_list_teardown self (length args).

Definition gum_thumb_writer_put_call_reg_with_arguments_array
    (self : GumThumbWriter) (reg : arm_reg) (args : list GumArgument)
    : GumThumbWriter :=
  let self := gum_thumb_writer_put_argument_list_setup self args in
  let self := gum_thumb_writer_put_blx_reg self reg in
  gum_thumb_writer_put_argument_list_teardown self (length args).

(** ** Flush *)

(** The first loop of [gum_thumb_writer_flush] over the label references
    still to be resolved. [None] is the jump to [error]; the heap keeps the
    patches made before it, so it is returned in both cases. *)
Fixpoint flush_label_refs (labels : list GumThumbLabelMapping)
    (refs : list GumThumbLabelRef) (m : memory) : bool * memory :=
  match refs with
  | [] => (true, m)
  | r :: rest =>
      let target_address := lookup_label labels (lref_id r) in
      if target_address =? 0 then (false, m)
      else
        let distance :=
          Z.quot (s32 (s32 target_address - s32 (lref_pc r))) 2 in
        let insn := load16 m (lref_insn r) in
        if insn .& 0xf000 =? 0xd000 then
          if negb (GUM_IS_WITHIN_INT8_RANGE distance) then (false, m)
          else
            let insn := u16 (insn .| (distance .& GUM_INT8_MASK)) in
            flush_label_refs labels rest (store16 m (lref_insn r) insn)
        else if insn .& 0xf800 =? 0xe000 then
          if negb (GUM_IS_WITHIN_INT11_RANGE distance) then (false, m)
          else
            let insn := u16 (insn .| (distance .& GUM_INT11_MASK)) in
            flush_label_refs labels rest (store16 m (lref_insn r) insn)
        else
          if negb (GUM_IS_WITHIN_UINT7_RANGE distance) then (false, m)
          else
            let i := u16 ((distance >> 5) .& 1) in
            let imm5 := u16 (distance .& GUM_INT5_MASK) in
            let insn := u16 (insn .| ((i << 9) .| (imm5 << 3))) in
            flush_label_refs labels rest (store16 m (lref_insn r) insn)
  end.

(** [need_aligned_slots] after the scan of the literal references. *)
Definition need_aligned_slots (m : memory)
    (refs : list GumThumbLiteralRef) : bool :=
  fold_left
    (fun need r =>
       if gum_instruction_is_t1_load (load16 m (lit_insn r))
       then true else need)
    refs false.

(** [for (slot = first_slot; slot != last_slot; slot++) if ( *slot == val)
    break;] with [n] the number of slots from [slot] to [last_slot]; the
    result is the slot the loop stops at. *)
Fixpoint find_slot (m : memory) (slot : Z) (val : Z) (n : nat) : Z :=
  match n with
  | O => slot
  | S n' =>
      if load32 m slot =? val then slot
      else find_slot m (slot + 4) val n'
  end.

(** One iteration of the second loop over the literal references; the
    state is the writer and [last_slot]. *)
Definition flush_literal_ref (first_slot : Z)
    (st : GumThumbWriter * Z) (r : GumThumbLiteralRef)
    : GumThumbWriter * Z :=
  let '(self, last_slot) := st in
  let insn := load16 (heap self) (lit_insn r) in
  let slot :=
    find_slot (heap self) first_slot (lit_val r)
      (Z.to_nat ((last_slot - first_slot) / 4)) in
  let '(self, last_slot) :=
    if slot =? last_slot then
      (advance (with_heap self (store32 (heap self) slot (lit_val r))) 2 4,
       last_slot + 4)
    else (self, last_slot) in
  let slot_pc :=
    u64 (pc self - (last_slot - first_slot) + (slot - first_slot)) in
  let distance_in_bytes :=
    gsize (slot_pc - (lit_pc r .& u64 (Z.lnot 3))) in
  if gum_instruction_is_t1_load insn then
    (with_heap self
       (store16 (heap self) (lit_insn r)
          (u16 (insn .| (distance_in_bytes / 4)))),
     last_slot)
  else
    (with_heap self
       (store16 (heap self) (lit_insn r + 2)
          (u16 (load16 (heap self) (lit_insn r + 2) .| distance_in_bytes))),
     last_slot).

(** The literal part of [gum_thumb_writer_flush], entered with a
    non-empty literal table: the alignment nop, the pool and the patches. *)
Definition flush_literal_refs (self : GumThumbWriter) : GumThumbWriter :=
  let refs := literal_refs self in
  let self :=
    if need_aligned_slots (heap self) refs && negb (pc self .& 3 =? 0)
    then gum_thumb_writer_put_nop self
    else self in
  let first_slot := code self in
  let last_slot := first_slot in
  let '(self, _) :=
    fold_left (flush_literal_ref first_slot) refs (self, last_slot) in
  with_literal_refs self [].

Definition gum_thumb_writer_flush (self : GumThumbWriter)
    : bool * GumThumbWriter :=
  let '(ok, m) :=
    if 0 <? Z.of_nat (length (label_refs self))
    then flush_label_refs (id_to_address self) (label_refs self) (heap self)
    else (true, heap self) in
  if negb ok then
    (false, with_literal_refs (with_label_refs (with_heap self m) []) [])
  else
    let self := with_label_refs (with_heap self m) [] in
    if 0 <? Z.of_nat (length (literal_refs self))
    then (true, flush_literal_refs self)
    else (true, self).

(** ** Sequences of calls *)

(** The calls a client can make on a writer. *)
Inductive operation : Type :=
  | OpReset (native_os : GumOS) (code_address : Z)
  | OpSetTargetOs (os : GumOS)
  | OpSkip (n_bytes : Z)
  | OpFlush
  | OpPutLabel (id : Z)
  | OpCallAddress (func : Z) (args : list GumArgument)
  | OpCallReg (reg : arm_reg) (args : list GumArgument)
  | OpBImm (target : Z)
  | OpBxReg (reg : arm_reg)
  | OpBlxReg (reg : arm_reg)
  | OpBlImm (target : Z)
  | OpBlxImm (target : Z)
  | OpCmpRegImm (reg : arm_reg) (imm_value : Z)
  | OpBLabel (label_id : Z)
  | OpBeqLabel (label_id : Z)
  | OpBneLabel (label_id : Z)
  | OpBCondLabel (cc : Z) (label_id : Z)
  | OpCbzRegLabel (reg : arm_reg) (label_id : Z)
  | OpCbnzRegLabel (reg : arm_reg) (label_id : Z)
  | OpPushRegs (regs : list arm_reg)
  | OpPopRegs (regs : list arm_reg)
  | OpLdrRegAddress (reg : arm_reg) (address : Z)
  | OpLdrRegU32 (reg : arm_reg) (val : Z)
  | OpLdrRegReg (dst_reg src_reg : arm_reg)
  | OpLdrRegRegOffset (dst_reg src_reg : arm_reg) (src_offset : Z)
  | OpStrRegReg (src_reg dst_reg : arm_reg)
  | OpStrRegRegOffset (src_reg dst_reg : arm_reg) (dst_offset : Z)
  | OpMovRegReg (dst_reg src_reg : arm_reg)
  | OpMovRegU8 (dst_reg : arm_reg) (imm_value : Z)
  | OpAddRegImm (dst_reg : arm_reg) (imm_value : Z)
  | OpAddRegReg (dst_reg src_reg : arm_reg)
  | OpAddRegRegReg (dst_reg left_reg right_reg : arm_reg)
  | OpAddRegRegImm (dst_reg left_reg : arm_reg) (right_value : Z)
  | OpSubRegImm (dst_reg : arm_reg) (imm_value : Z)
  | OpSubRegReg (dst_reg src_reg : arm_reg)
  | OpSubRegRegReg (dst_reg left_reg right_reg : arm_reg)
  | OpSubRegRegImm (dst_reg left_reg : arm_reg) (right_value : Z)
  | OpNop
  | OpBkptImm (imm : Z)
  | OpBreakpoint
  | OpInstruction (insn : Z)
  | OpBytes (data : list Z).

Definition perform (self : GumThumbWriter) (op : operation)
    : GumThumbWriter :=
  match op with
  | OpReset os a => gum_thumb_writer_reset os (heap self) a
  | OpSetTargetOs os => gum_thumb_writer_set_target_os self os
  | OpSkip n => gum_thumb_writer_skip self n
  | OpFlush => snd (gum_thumb_writer_flush self)
  | OpPutLabel id => snd (gum_thumb_writer_put_label self id)
  | OpCallAddress f args =>
      gum_thumb_writer_put_call_address_with_arguments_array self f args
  | OpCallReg r args =>
      gum_thumb_writer_put_call_reg_with_arguments_array self r args
  | OpBImm t => gum_thumb_writer_put_b_imm self t
  | OpBxReg r => gum_thumb_writer_put_bx_reg self r
  | OpBlxReg r => gum_thumb_writer_put_blx_reg self r
  | OpBlImm t => gum_thumb_writer_put_bl_imm self t
  | OpBlxImm t => gum_thumb_writer_put_blx_imm self t
  | OpCmpRegImm r i => gum_thumb_writer_put_cmp_reg_imm self r i
  | OpBLabel l => snd (gum_thumb_writer_put_b_label self l)
  | OpBeqLabel l => snd (gum_thumb_writer_put_beq_label self l)
  | OpBneLabel l => snd (gum_thumb_writer_put_bne_label self l)
  | OpBCondLabel cc l => snd (gum_thumb_writer_put_b_cond_label self cc l)
  | OpCbzRegLabel r l => snd (gum_thumb_writer_put_cbz_reg_label self r l)
  | OpCbnzRegLabel r l => snd (gum_thumb_writer_put_cbnz_reg_label self r l)
  | OpPushRegs regs => snd (gum_thumb_writer_put_push_regs_array self regs)
  | OpPopRegs regs => snd (gum_thumb_writer_put_pop_regs_array self regs)
  | OpLdrRegAddress r a => snd (gum_thumb_writer_put_ldr_reg_address self r a)
  | OpLdrRegU32 r v => snd (gum_thumb_writer_put_ldr_reg_u32 self r v)
  | OpLdrRegReg d s => gum_thumb_writer_put_ldr_reg_reg self d s
  | OpLdrRegRegOffset d s o =>
      snd (gum_thumb_writer_put_ldr_reg_reg_offset self d s o)
  | OpStrRegReg s d => gum_thumb_writer_put_str_reg_reg self s d
  | OpStrRegRegOffset s d o =>
      snd (gum_thumb_writer_put_str_reg_reg_offset self s d o)
  | OpMovRegReg d s => gum_thumb_writer_put_mov_reg_reg self d s
  | OpMovRegU8 d i => gum_thumb_writer_put_mov_reg_u8 self d i
  | OpAddRegImm d i => snd (gum_thumb_writer_put_add_reg_imm self d i)
  | OpAddRegReg d s => gum_thumb_writer_put_add_reg_reg self d s
  | OpAddRegRegReg d l r => gum_thumb_writer_put_add_reg_reg_reg self d l r
  | OpAddRegRegImm d l v =>
      snd (gum_thumb_writer_put_add_reg_reg_imm self d l v)
  | OpSubRegImm d i => snd (gum_thumb_writer_put_sub_reg_imm self d i)
  | OpSubRegReg d s => gum_thumb_writer_put_sub_reg_reg self d s
  | OpSubRegRegReg d l r => gum_thumb_writer_put_sub_reg_reg_reg self d l r
  | OpSubRegRegImm d l v =>
      snd (gum_thumb_writer_put_sub_reg_reg_imm self d l v)
  | OpNop => gum_thumb_writer_put_nop self
  | OpBkptImm i => gum_thumb_writer_put_bkpt_imm self i
  | OpBreakpoint => gum_thumb_writer_put_breakpoint self
  | OpInstruction i => gum_thumb_writer_put_instruction self i
  | OpBytes data => snd (gum_thumb_writer_put_bytes self data)
  end.

Definition perform_all (self : GumThumbWriter) (ops : list operation)
    : GumThumbWriter :=
  fold_left perform ops self.

(** * Stated behaviour

    The definitions below follow the wording of the specification; the
    theorems compare them with the functions of the writer. *)

(** ** Register classes *)

Definition is_low_reg (r : arm_reg) : bool :=
  match r with
  | ARM_REG_R0 | ARM_REG_R1 | ARM_REG_R2 | ARM_REG_R3
  | ARM_REG_R4 | ARM_REG_R5 | ARM_REG_R6 | ARM_REG_R7 => true
  | _ => false
  end.

Definition is_sp (r : arm_reg) : bool :=
  match r with ARM_REG_SP => true | _ => false end.

Definition is_reg (special r : arm_reg) : bool := arm_reg_eqb r special.

Definition reg_index (r : arm_reg) : Z := index (gum_arm_reg_describe r).

(** ** Branch to an immediate, as section 4.1.1 words it: bit 0 of the
    target is cleared for BLX only ([thumb = false]). *)
Definition stated_branch_distance (self : GumThumbWriter) (target : Z)
    (thumb : bool) : Z :=
  let target :=
    if thumb then u64 target else Z.clearbit (u64 target) 0 in
  Z.quot (s32 (s32 target - s32 (u64 (pc self + 4)))) 2.

(** ** Memory transfers, section 4.1.3 *)

Definition is_load (operation : GumThumbMemoryOperation) : bool :=
  match operation with
  | GUM_THUMB_MEMORY_LOAD => true
  | GUM_THUMB_MEMORY_STORE => false
  end.

(** The narrow form is chosen when the destination is low, the base is
    low or SP, the offset is a multiple of 4 and at most 1020 (SP base) or
    124 (low base). *)
Definition narrow_transfer (dst base : arm_reg) (off : Z) : bool :=
  is_low_reg dst && (is_low_reg base || is_sp base) && (off mod 4 =? 0)
  && (if is_sp base then off <=? 1020 else off <=? 124).

Definition narrow_transfer_insn (operation : GumThumbMemoryOperation)
    (dst base : arm_reg) (off : Z) : Z :=
  (if is_sp base
   then 0x9000 .| (reg_index dst << 8) .| (off / 4)
   else 0x6000 .| ((off / 4) << 6) .| (reg_index base << 3) .| reg_index dst)
  .| (if is_load operation then 0x0800 else 0).

Definition wide_transfer_hw1 (operation : GumThumbMemoryOperation)
    (base : arm_reg) : Z :=
  0xf8c0 .| (if is_load operation then 0x10 else 0) .| reg_index base.

Definition wide_transfer_hw2 (dst : arm_reg) (off : Z) : Z :=
  (reg_index dst << 12) .| off.

(** The narrow halfword when the narrow form applies; failure when the
    offset exceeds 4095; the two halfwords of the wide form otherwise. *)
Definition stated_transfer (self : GumThumbWriter)
    (operation : GumThumbMemoryOperation) (dst base : arm_reg) (off : Z)
    : bool * GumThumbWriter :=
  if narrow_transfer dst base off then
    (true,
     gum_thumb_writer_put_instruction self
       (narrow_transfer_insn operation dst base off))
  else if 4095 <? off then (false, self)
  else
    (true,
     gum_thumb_writer_put_instruction
       (gum_thumb_writer_put_instruction self
          (wide_transfer_hw1 operation base))
       (wide_transfer_hw2 dst off)).

(** ** Push and pop, section 4.1.2 *)

Definition all_low_or_special (special : arm_reg)
    (regs : list arm_reg) : bool :=
  forallb (fun r => is_low_reg r || is_reg special r) regs.

(** One mask bit per low register. *)
Definition low_reg_bits (regs : list arm_reg) : Z :=
  fold_right
    (fun r bits => (if is_low_reg r then 1 << reg_index r else 0) .| bits)
    0 regs.

(** One mask bit per register index. *)
Definition reg_index_bits (regs : list arm_reg) : Z :=
  fold_right (fun r bits => (1 << reg_index r) .| bits) 0 regs.

Definition stated_narrow_insn (narrow_opcode : Z) (special : arm_reg)
    (regs : list arm_reg) : Z :=
  narrow_opcode .| low_reg_bits regs
  .| (if existsb (is_reg special) regs then 0x0100 else 0).

Definition stated_push_or_pop (self : GumThumbWriter)
    (narrow_opcode wide_opcode : Z) (special : arm_reg)
    (regs : list arm_reg) : bool * GumThumbWriter :=
  match regs with
  | [] => (false, self)
  | _ :: _ =>
      if all_low_or_special special regs then
        (true,
         gum_thumb_writer_put_instruction self
           (stated_narrow_insn narrow_opcode special regs))
      else
        (true,
         gum_thumb_writer_put_instruction
           (gum_thumb_writer_put_instruction self wide_opcode)
           (reg_index_bits regs))
  end.

(** The bit a register contributes to the narrow encoding in the code. *)
Definition narrow_bit (special : arm_reg) (r : arm_reg) : Z :=
  if is_reg special r then 0x0100 else 1 << reg_index r.

(** ** The literal pool, section 4.3 *)

(** The distinct values of a list, each at the place of its first
    occurrence. *)
Fixpoint first_occurrences (vals : list Z) : list Z :=
  match vals with
  | [] => []
  | v :: rest => v :: filter (fun x => negb (x =? v)) (first_occurrences rest)
  end.

(** The position of the first [val] in [pool], [length pool] if none. *)
Fixpoint index_of (val : Z) (pool : list Z) : nat :=
  match pool with
  | [] => O
  | v :: rest => if v =? val then O else S (index_of val rest)
  end.

(** The pool after one more reference: a value it holds is reused, a new
    one is appended. *)
Definition add_slot (pool : list Z) (val : Z) : list Z :=
  if (index_of val pool =? length pool)%nat then pool ++ [val] else pool.

(** [pool] is what the heap holds in the 32-bit slots from [a] on. *)
Fixpoint pool_at (m : memory) (a : Z) (pool : list Z) : Prop :=
  match pool with
  | [] => True
  | v :: rest => load32 m a = v /\ pool_at m (a + 4) rest
  end.

(** The bytes a literal load occupies: one halfword for T1, two for T2. *)
Definition literal_size (m : memory) (r : GumThumbLiteralRef) : Z :=
  if gum_instruction_is_t1_load (load16 m (lit_insn r)) then 2 else 4.

(** The halfword of a literal load that carries the offset. *)
Definition patch_address (m : memory) (r : GumThumbLiteralRef) : Z :=
  if gum_instruction_is_t1_load (load16 m (lit_insn r))
  then lit_insn r else lit_insn r + 2.

(** The halfword a literal load is patched to when its value is in slot
    [slot_index] of a pool whose first slot has the pc [pool_pc]: the
    offset from the reference's pc aligned down to a word, in words for T1
    and in bytes for T2, or-ed into the halfword. *)
Definition patched_literal (m : memory) (pool_pc : Z) (slot_index : nat)
    (r : GumThumbLiteralRef) : Z :=
  let slot_pc := u64 (pool_pc + 4 * Z.of_nat slot_index) in
  let distance_in_bytes := gsize (slot_pc - (lit_pc r .& u64 (Z.lnot 3))) in
  if gum_instruction_is_t1_load (load16 m (lit_insn r))
  then u16 (load16 m (lit_insn r) .| (distance_in_bytes / 4))
  else u16 (load16 m (lit_insn r + 2) .| distance_in_bytes).

(** ** Well-formed writers *)

(** The literal loads lie one after another between [lo] and [hi], and
    their values are 32-bit. *)
Fixpoint literals_in_order (m : memory) (lo : Z)
    (refs : list GumThumbLiteralRef) (hi : Z) : bool :=
  match refs with
  | [] => lo <=? hi
  | r :: rest =>
      (lo <=? lit_insn r) && (0 <=? lit_val r) && (lit_val r <? 2 ^ 32)
      && literals_in_order m (lit_insn r + literal_size m r) rest hi
  end.

Definition label_ref_apart (m : memory) (p : GumThumbLabelRef)
    (r : GumThumbLiteralRef) : bool :=
  (lref_insn p + 2 <=? lit_insn r)
  || (lit_insn r + literal_size m r <=? lref_insn p).

(** What holds of the references of a writer that was reset and then
    called: the literal loads are in order below the cursor, and the
    branches awaiting a label are below the cursor and apart from them. *)
Definition well_formed (w : GumThumbWriter) : bool :=
  literals_in_order (heap w) (base w) (literal_refs w) (code w)
  && forallb
       (fun p =>
          (lref_insn p + 2 <=? code w)
          && forallb (label_ref_apart (heap w) p) (literal_refs w))
       (label_refs w).

(** The alignment nop of section 4.3 is due. *)
Definition alignment_nop_due (w : GumThumbWriter) : bool :=
  existsb
    (fun r => gum_instruction_is_t1_load (load16 (heap w) (lit_insn r)))
    (literal_refs w)
  && negb (pc w .& 3 =? 0).

(** ** Sequences of calls *)

Definition is_reset (op : operation) : bool :=
  match op with OpReset _ _ => true | _ => false end.

(** Every skip of the sequence is of an even number of bytes. *)
Definition even_skips (ops : list operation) : bool :=
  forallb
    (fun op => match op with OpSkip n => Z.even (u32 n) | _ => true end)
    ops.

(** Cursor and pc advance together. *)
Definition in_lockstep (w : GumThumbWriter) : Prop :=
  code w = base w + 2 * halfwords_emitted w + bytes_skipped w
  /\ pc w = u64 (code w).

(** * Invariants and scenarios

    What the proofs below need in addition: the invariant of the literal
    loop, what flush leaves behind, and the writers of the scenarios. *)

(** The pool built from the references resolved so far. *)
Definition pool_of (done : list GumThumbLiteralRef) : list Z :=
  fold_left add_slot (map lit_val done) [].

(** The state of the literal loop entered with the writer [w0], whose
    cursor is the first slot, after the references [done]; the loads from
    [lo] up to the pool are still untouched. *)
Record loop_state (w0 : GumThumbWriter) (lo : Z)
    (done : list GumThumbLiteralRef) (st : GumThumbWriter * Z) : Prop :=
  mkLoopState {
  ls_last : snd st = code w0 + 4 * Z.of_nat (length (pool_of done));
  ls_code : code (fst st) = snd st;
  ls_pc :
    u64 (pc (fst st)) =
    u64 (pc w0 + 4 * Z.of_nat (length (pool_of done)));
  ls_emitted :
    halfwords_emitted (fst st) =
    halfwords_emitted w0 + 2 * Z.of_nat (length (pool_of done));
  ls_skipped : bytes_skipped (fst st) = bytes_skipped w0;
  ls_os : target_os (fst st) = target_os w0;
  ls_base : base (fst st) = base w0;
  ls_labels : id_to_address (fst st) = id_to_address w0;
  ls_label_refs : label_refs (fst st) = label_refs w0;
  ls_literal_refs : literal_refs (fst st) = literal_refs w0;
  ls_pool : pool_at (heap (fst st)) (code w0) (pool_of done);
  ls_lo : lo <= code w0;
  ls_frame :
    forall x,
      x < code w0 ->
      (forall r, In r done ->
                 x < patch_address (heap w0) r
                 \/ patch_address (heap w0) r + 2 <= x) ->
      heap (fst st) x = heap w0 x;
  ls_done :
    forall r,
      In r done ->
      patch_address (heap w0) r + 2 <= lo
      /\ In (lit_val r) (pool_of done)
      /\ load16 (heap (fst st)) (patch_address (heap w0) r) =
         patched_literal (heap w0) (pc w0)
           (index_of (lit_val r) (pool_of done)) r
}.

Definition not_in (acc : list Z) (x : Z) : bool :=
  negb (existsb (Z.eqb x) acc).

(** Two heaps agree on the bytes of the literal loads. *)
Definition agree_on_literals (m1 m2 : memory)
    (refs : list GumThumbLiteralRef) : Prop :=
  forall r x,
    In r refs -> lit_insn r <= x < lit_insn r + literal_size m1 r ->
    m1 x = m2 x.

(** Where the pool starts: at the cursor, or past the alignment nop. *)
Definition pool_first_slot (w : GumThumbWriter) : Z :=
  code w + (if alignment_nop_due w then 2 else 0).

(** The pc of the first slot of the pool. *)
Definition pool_pc (w : GumThumbWriter) : Z :=
  pc w + (if alignment_nop_due w then 2 else 0).

(** The values of the pool, slot by slot. *)
Definition pool_values (w : GumThumbWriter) : list Z :=
  first_occurrences (map lit_val (literal_refs w)).

(** What [flush_literal_refs] leaves behind: the nop if it was due, the
    pool of the distinct values in the order of their first occurrence,
    every load patched to the slot of its value, nothing else touched. *)
Record literals_flushed (w w' : GumThumbWriter) : Prop :=
  mkLiteralsFlushed {
  lf_code :
    code w' = pool_first_slot w + 4 * Z.of_nat (length (pool_values w));
  lf_pc :
    u64 (pc w') = u64 (pool_pc w + 4 * Z.of_nat (length (pool_values w)));
  lf_emitted :
    halfwords_emitted w' =
    halfwords_emitted w + (if alignment_nop_due w then 1 else 0)
    + 2 * Z.of_nat (length (pool_values w));
  lf_skipped : bytes_skipped w' = bytes_skipped w;
  lf_os : target_os w' = target_os w;
  lf_base : base w' = base w;
  lf_labels : id_to_address w' = id_to_address w;
  lf_label_refs : label_refs w' = label_refs w;
  lf_literal_refs : literal_refs w' = [];
  lf_pool_at : pool_at (heap w') (pool_first_slot w) (pool_values w);
  lf_nop_at :
    alignment_nop_due w = true -> load16 (heap w') (code w) = 0x46c0;
  lf_patched :
    forall r,
      In r (literal_refs w) ->
      load16 (heap w') (patch_address (heap w) r) =
      patched_literal (heap w) (pool_pc w)
        (index_of (lit_val r) (pool_values w)) r;
  lf_frame :
    forall x,
      x < code w ->
      (forall r, In r (literal_refs w) ->
                 x < patch_address (heap w) r
                 \/ patch_address (heap w) r + 2 <= x) ->
      heap w' x = heap w x
}.

(** [w'] has the tables and the base of [w], and its cursor is not below
    that of [w]. *)
Definition carried (w w' : GumThumbWriter) : Prop :=
  base w' = base w /\ target_os w' = target_os w
  /\ id_to_address w' = id_to_address w
  /\ label_refs w' = label_refs w
  /\ literal_refs w' = literal_refs w
  /\ bytes_skipped w' = bytes_skipped w
  /\ code w <= code w'.

(** An empty heap and the writer of the scenarios, reset at 0x1000. *)
Definition zero_heap : memory := fun _ => 0.
Definition writer_at_0x1000 : GumThumbWriter :=
  gum_thumb_writer_reset GUM_OS_LINUX zero_heap 0x1000.

(** [cbz r0, L], [n] nops, then the label [L]: the cbz is at 0x1000, its
    pc is 0x1004, and the label is [2 * n - 2] bytes past that pc. *)
Definition cbz_over_nops (n : nat) : GumThumbWriter :=
  perform_all writer_at_0x1000
    ([OpCbzRegLabel ARM_REG_R0 5] ++ repeat OpNop n ++ [OpPutLabel 5]).

(** The label is 128 bytes past the pc of the cbz. *)
Definition cbz_over_128_bytes : GumThumbWriter := cbz_over_nops 65.

Definition b_to_undefined_label : GumThumbWriter :=
  perform_all writer_at_0x1000 [OpNop; OpBLabel 5].

(** ldr r0, =0xdeadbeef; ldr r1, =0xdeadbeef; ldr r8, =0x1234; the loads
    leave the pc at 0x1008, 4-byte aligned. *)
Definition three_loads_ops : list operation :=
  [OpLdrRegU32 ARM_REG_R0 0xdeadbeef; OpLdrRegU32 ARM_REG_R1 0xdeadbeef;
   OpLdrRegU32 ARM_REG_R8 0x1234].


(** ldr r0, =0xdeadbeef; ldr r1, =0xdeadbeef; bx lr: the pc is 0x1006. *)
Definition two_loads_and_bx_ops : list operation :=
  [OpLdrRegU32 ARM_REG_R0 0xdeadbeef; OpLdrRegU32 ARM_REG_R1 0xdeadbeef;
   OpBxReg ARM_REG_LR].

Definition two_loads_and_bx : GumThumbWriter :=
  perform_all (gum_thumb_writer_reset GUM_OS_LINUX zero_heap 0x1000)
    two_loads_and_bx_ops.

(** The first entry of the label table is [id] at address 0. *)
Definition first_label_is_zero (id : Z) (w : GumThumbWriter) : Prop :=
  exists more, id_to_address w = mkLabelMapping id 0 :: more.

Definition label_then_branch_ops : list operation :=
  [OpNop; OpBLabel 7].

(** ldr r0, =1; b L; nop, the label [L] being defined nowhere: a T1 load
    awaits its pool, and the pc is 0x1006. *)
Definition load_and_unresolved_branch : GumThumbWriter :=
  perform_all writer_at_0x1000
    [OpLdrRegU32 ARM_REG_R0 1; OpBLabel 5; OpNop].

(** nop, then a skip of three bytes: the cursor is at 0x1005. *)
Definition nop_and_odd_skip : GumThumbWriter :=
  perform_all writer_at_0x1000 [OpNop; OpSkip 3].

(** nop, then a skip of four bytes. *)
Definition nop_and_even_skip_ops : list operation := [OpNop; OpSkip 4].

(** * Further invariants and scenarios

    What the properties beyond the stated behaviour need: the invariants
    of the tables and of the pending references, and more scenarios. *)

(** The three tables hold no more entries than their arrays have room
    for. *)
Definition within_capacity (w : GumThumbWriter) : Prop :=
  Z.of_nat (length (id_to_address w)) <= GUM_MAX_LABEL_COUNT
  /\ Z.of_nat (length (label_refs w)) <= GUM_MAX_LREF_COUNT
  /\ Z.of_nat (length (literal_refs w)) <= GUM_MAX_LITERAL_REF_COUNT.

(** No label is recorded at address 0. *)
Definition no_label_at_zero (w : GumThumbWriter) : Prop :=
  Forall (fun map => map_address map <> 0) (id_to_address w).

(** What sequences of calls keep of the label table: cursor and pc in
    lockstep, the cursor not below the base, and, when the code region
    starts above address 0 and the cursor is below 2^64, no label at
    address 0 and no id recorded twice. *)
Definition labels_sound (w : GumThumbWriter) : Prop :=
  in_lockstep w
  /\ base w <= code w
  /\ (0 < base w -> code w < 2 ^ 64 ->
      no_label_at_zero w /\ NoDup (map map_id (id_to_address w))).

(** ldr r0, =1; label 7; nop; label 8, from a reset at 0x1000. *)
Definition two_labels_ops : list operation :=
  [OpLdrRegU32 ARM_REG_R0 1; OpPutLabel 7; OpNop; OpPutLabel 8].

(** A call that reports failure leaves the writer as it was. *)
Definition all_or_nothing (f : GumThumbWriter -> bool * GumThumbWriter)
    : Prop :=
  forall w, fst (f w) = false -> snd (f w) = w.

(** A writer at 0x1000 whose literal table is full: a hundred loads of 0
    into r0. *)
Definition hundred_loads : GumThumbWriter :=
  perform_all (gum_thumb_writer_reset GUM_OS_LINUX zero_heap 0x1000)
    (repeat (OpLdrRegU32 ARM_REG_R0 0) 100).

(** [x] is a byte below the cursor that no pending reference covers:
    neither the halfword of a branch awaiting its label nor the bytes of a
    literal load awaiting its pool. *)
Definition settled (w : GumThumbWriter) (x : Z) : Prop :=
  x < code w
  /\ (forall p, In p (label_refs w) ->
                x < lref_insn p \/ lref_insn p + 2 <= x)
  /\ (forall r, In r (literal_refs w) ->
                x < lit_insn r
                \/ lit_insn r + literal_size (heap w) r <= x).

(** [w'] is [w] some calls later, none of them a reset: the settled bytes
    of [w] are as they were, and the references of [w'] are those of [w]
    still pending, untouched, or lie at or above the cursor of [w]. *)
Definition continues (w w' : GumThumbWriter) : Prop :=
  well_formed w' = true
  /\ code w <= code w'
  /\ (forall x, settled w x -> heap w' x = heap w x)
  /\ (forall p, In p (label_refs w') ->
                In p (label_refs w) \/ code w <= lref_insn p)
  /\ (forall r, In r (literal_refs w') ->
                (In r (literal_refs w)
                 /\ load16 (heap w') (lit_insn r)
                    = load16 (heap w) (lit_insn r))
                \/ code w <= lit_insn r).

(** nop; b L; ldr r0, =1 from a reset at 0x1000, and then: nop; label L;
    flush. *)
Definition nop_branch_load_ops : list operation :=
  [OpNop; OpBLabel 5; OpLdrRegU32 ARM_REG_R0 1].
Definition label_and_flush_ops : list operation :=
  [OpNop; OpPutLabel 5; OpFlush].

(** ** Branches awaiting a label *)

(** The halfwords the writer emits for a branch to a label: [b], [b<cc>],
    [cbz] and [cbnz], their offset still to be filled in. *)
Definition branch_template (insn : Z) : Prop :=
  insn = 0xe000
  \/ (exists cc, insn = 0xd000 .| ((cc - 1) << 8))
  \/ (exists reg, insn = 0xb100 .| index (gum_arm_reg_describe reg))
  \/ (exists reg, insn = 0xb900 .| index (gum_arm_reg_describe reg)).

(** The offset field flush is going to or into is still zero: the low
    eight bits of a conditional branch, the low eleven bits of an
    unconditional one, and the bits 4 to 7 and 9 of a compare and
    branch, whose bit 3 is the lowest bit of the offset for a low
    register and the highest bit of the register otherwise. *)
Definition unpatched (insn : Z) : bool :=
  (negb (insn .& 0xf000 =? 0xd000) || (insn .& 0xff =? 0))
  && (negb (insn .& 0xf800 =? 0xe000) || (insn .& 0x7ff =? 0))
  && (negb (insn .& 0xf500 =? 0xb100) || (insn .& 0x2f0 =? 0)).

(** The offset a compare and branch holds, in halfwords: the bit i and
    the field imm5. *)
Definition compare_branch_offset (insn : Z) : Z :=
  32 * ((insn >> 9) .& 1) + ((insn >> 3) .& GUM_INT5_MASK).

(** The bit i and the field imm5 that flush makes of a distance, in
    their places. *)
Definition compare_branch_fields (d : Z) : Z :=
  (u16 ((d >> 5) .& 1) << 9) .| (u16 (d .& GUM_INT5_MASK) << 3).

(** The label references lie one after another between [lo] and [hi],
    each with the pc of its branch, four past its address, and with its
    halfword unpatched. *)
Fixpoint branches_in_order (m : memory) (lo : Z)
    (refs : list GumThumbLabelRef) (hi : Z) : Prop :=
  match refs with
  | [] => lo <= hi
  | p :: rest =>
      lo <= lref_insn p
      /\ lref_pc p = u64 (lref_insn p + 4)
      /\ unpatched (load16 m (lref_insn p)) = true
      /\ branches_in_order m (lref_insn p + 2) rest hi
  end.

Definition branches_sound (w : GumThumbWriter) : Prop :=
  in_lockstep w
  /\ branches_in_order (heap w) (base w) (label_refs w) (code w).

(** [distance] of the first loop of flush, in halfwords, for the
    reference [p]. *)
Definition label_distance (labels : list GumThumbLabelMapping)
    (p : GumThumbLabelRef) : Z :=
  Z.quot (s32 (s32 (lookup_label labels (lref_id p)) - s32 (lref_pc p))) 2.

(** The range the first loop of flush accepts for the branch [insn]. *)
Definition branch_in_range (insn distance : Z) : bool :=
  if insn .& 0xf000 =? 0xd000 then GUM_IS_WITHIN_INT8_RANGE distance
  else if insn .& 0xf800 =? 0xe000 then GUM_IS_WITHIN_INT11_RANGE distance
  else GUM_IS_WITHIN_UINT7_RANGE distance.

(** The halfword the first loop of flush stores for the branch [insn]. *)
Definition patched_branch (insn distance : Z) : Z :=
  if insn .& 0xf000 =? 0xd000
  then u16 (insn .| (distance .& GUM_INT8_MASK))
  else if insn .& 0xf800 =? 0xe000
  then u16 (insn .| (distance .& GUM_INT11_MASK))
  else
    u16 (insn .| ((u16 ((distance >> 5) .& 1) << 9)
                  .| (u16 (distance .& GUM_INT5_MASK) << 3))).

(** The label of [p] is defined and within the range of its branch. *)
Definition resolvable (labels : list GumThumbLabelMapping) (m : memory)
    (p : GumThumbLabelRef) : bool :=
  negb (lookup_label labels (lref_id p) =? 0)
  && branch_in_range (load16 m (lref_insn p)) (label_distance labels p).

(** The low [n] bits of [x] read as a two's complement number. *)
Definition sign_extend (n x : Z) : Z :=
  let field := x mod 2 ^ n in
  if field <? 2 ^ (n - 1) then field else field - 2 ^ n.

(** beq L; cbz r1, L; two nops; label L; b L, from a reset at 0x1000:
    the beq and the cbz jump forward over the nops, the b back to
    itself. *)
Definition forward_and_backward_ops : list operation :=
  [OpBeqLabel 3; OpCbzRegLabel ARM_REG_R1 3; OpNop; OpNop; OpPutLabel 3;
   OpBLabel 3].

(** ** Literal loads awaiting their pool *)

(** A pending literal load has the pc of its instruction, four past its
    address, and its offset field is still zero: the low eight bits of
    a T1 load, the low twelve bits of the second halfword of a T2 load. *)
Definition literal_unpatched (m : memory) (r : GumThumbLiteralRef) : Prop :=
  lit_pc r = u64 (lit_insn r + 4)
  /\ if gum_instruction_is_t1_load (load16 m (lit_insn r))
     then load16 m (lit_insn r) .& 0xff = 0
     else load16 m (lit_insn r + 2) .& 0xfff = 0.

Definition literals_sound (w : GumThumbWriter) : Prop :=
  well_formed w = true
  /\ in_lockstep w
  /\ forall r, In r (literal_refs w) -> literal_unpatched (heap w) r.

(** The address a literal load reads from once it is patched: its pc
    aligned down to a word plus the offset of its field, which counts
    words in a T1 load and bytes in a T2 load. [m] is the heap before the
    flush, which tells the two apart, and [m'] the heap after it. *)
Definition literal_load_address (m m' : memory) (r : GumThumbLiteralRef)
    : Z :=
  let aligned_pc := lit_pc r .& u64 (Z.lnot 3) in
  if gum_instruction_is_t1_load (load16 m (lit_insn r))
  then aligned_pc + 4 * (load16 m' (lit_insn r) .& 0xff)
  else aligned_pc + (load16 m' (lit_insn r + 2) .& 0xfff).

(** How far a literal load reaches: 1020 bytes past its aligned pc for
    T1, 4095 for T2; a pool that ends within [reach] of the load is
    within that. *)
Definition literal_reach (m : memory) (r : GumThumbLiteralRef) : Z :=
  if gum_instruction_is_t1_load (load16 m (lit_insn r))
  then 1024 else 4096.

(** ** Branches to an address *)

(** The offset a 32-bit branch holds, in halfwords: the bits S, I1, I2,
    imm10 and imm11 read as a 24-bit two's complement number, where I1
    and I2 are stored as J1 = not (I1 xor S) and J2 = not (I2 xor S); the
    reading of the fields that [gum_thumb_writer_put_branch_imm] fills. *)
Definition wide_branch_offset (hw1 hw2 : Z) : Z :=
  let s := (hw1 >> 10) .& 1 in
  let i1 := Z.lnot (((hw2 >> 13) .& 1) .^ s) .& 1 in
  let i2 := Z.lnot (((hw2 >> 11) .& 1) .^ s) .& 1 in
  sign_extend 24
    ((s << 23) .| (i1 << 22) .| (i2 << 21)
       .| ((hw1 .& GUM_INT10_MASK) << 11) .| (hw2 .& GUM_INT11_MASK)).

(** [x] is a single bit. *)
Definition is_bit (x : Z) : Prop := x = 0 \/ x = 1.

(** The bit J stored for the bit [b] of the distance: not (b xor S). *)
Definition stored_j (b s : Z) : Z := Z.lnot (b .^ s) .& 1.

(** ** The target OS *)

Definition is_breakpoint (op : operation) : bool :=
  match op with OpBreakpoint => true | _ => false end.

(** [f] does to a writer with another target OS what it does to the
    writer, and leaves the target OS alone. *)
Definition os_blind (f : GumThumbWriter -> GumThumbWriter) : Prop :=
  forall w os,
    f (gum_thumb_writer_set_target_os w os)
    = gum_thumb_writer_set_target_os (f w) os.

(** ldr r0, =1; b L; push {r4, lr}; label L; flush, then a change of
    target OS in the middle of more code. *)
Definition os_blind_ops : list operation :=
  [OpLdrRegU32 ARM_REG_R0 1; OpBLabel 5; OpPushRegs [ARM_REG_R4; ARM_REG_LR];
   OpPutLabel 5; OpFlush; OpSetTargetOs GUM_OS_ANDROID; OpNop].

(** ** The size of what is emitted *)

(** The most bytes a call moves the cursor on by: four for an
    instruction, four for each argument of a call and two or six for the
    call itself, the bytes skipped or copied, and the padding and the pool
    of a flush with all its hundred literal references pending. A reset
    sets the cursor and has no bound. *)
Definition size_bound (op : operation) : Z :=
  match op with
  | OpReset _ _ => 0
  | OpSetTargetOs _ => 0
  | OpPutLabel _ => 0
  | OpSkip n => u32 n
  | OpBytes data => Z.of_nat (length data)
  | OpFlush => 2 + 4 * GUM_MAX_LITERAL_REF_COUNT
  | OpCallAddress _ args => 4 * Z.of_nat (length args) + 6
  | OpCallReg _ args => 4 * Z.of_nat (length args) + 2
  | _ => 4
  end.

(** [f] moves the cursor on, by at most [n] bytes. *)
Definition emits_at_most (n : Z) (f : GumThumbWriter -> GumThumbWriter)
    : Prop :=
  forall w, code w <= code (f w) <= code w + n.

(** A call of an address with five arguments, a skip, a load and a
    flush. *)
Definition sized_ops : list operation :=
  [OpCallAddress 0x2000
     [GUM_ARG_REGISTER ARM_REG_R4; GUM_ARG_ADDRESS 1;
      GUM_ARG_REGISTER ARM_REG_R2;
      GUM_ARG_ADDRESS 2; GUM_ARG_REGISTER ARM_REG_R8];
   OpSkip 3; OpLdrRegU32 ARM_REG_R9 7; OpFlush].

(** * Properties *)

(** ** Integer conversions *)

Lemma u8_range x : 0 <= u8 x < 2 ^ 8.
Proof. unfold u8. apply Z.mod_pos_bound. reflexivity. Qed.

Lemma u16_range x : 0 <= u16 x < 2 ^ 16.
Proof. unfold u16. apply Z.mod_pos_bound. reflexivity. Qed.

Lemma u32_range x : 0 <= u32 x < 2 ^ 32.
Proof. unfold u32. apply Z.mod_pos_bound. reflexivity. Qed.

Lemma u64_range x : 0 <= u64 x < 2 ^ 64.
Proof. unfold u64. apply Z.mod_pos_bound. reflexivity. Qed.

Lemma u16_small x : 0 <= x < 2 ^ 16 -> u16 x = x.
Proof. intros. unfold u16. apply Z.mod_small. assumption. Qed.

Lemma u32_small x : 0 <= x < 2 ^ 32 -> u32 x = x.
Proof. intros. unfold u32. apply Z.mod_small. assumption. Qed.

Lemma u8_idem x : u8 (u8 x) = u8 x.
Proof. unfold u8. apply Z.mod_mod. discriminate. Qed.

Lemma u16_idem x : u16 (u16 x) = u16 x.
Proof. apply u16_small, u16_range. Qed.

Lemma u64_idem x : u64 (u64 x) = u64 x.
Proof. unfold u64. apply Z.mod_mod. discriminate. Qed.

Lemma u64_add_l a b : u64 (u64 a + b) = u64 (a + b).
Proof. unfold u64. apply Zplus_mod_idemp_l. Qed.

Lemma u16_lor a b : u16 (a .| b) = u16 a .| u16 b.
Proof.
  unfold u16. rewrite <- !Z.land_ones by lia. apply Z.land_lor_distr_l.
Qed.

Lemma u16_lor_l a b : u16 (u16 a .| b) = u16 (a .| b).
Proof. rewrite !u16_lor, u16_idem. reflexivity. Qed.

Lemma u16_lor_r a b : u16 (a .| u16 b) = u16 (a .| b).
Proof. rewrite !u16_lor, u16_idem. reflexivity. Qed.

Lemma u16_testbit x k :
  0 <= k -> Z.testbit (u16 x) k = (k <? 16) && Z.testbit x k.
Proof.
  intros Hk. unfold u16. destruct (Z.ltb_spec k 16); cbn [andb].
  - apply Z.mod_pow2_bits_low. lia.
  - apply Z.mod_pow2_bits_high. lia.
Qed.

(** ** Loads and stores *)

Lemma store8_same m a b : store8 m a b a = u8 b.
Proof. unfold store8. rewrite Z.eqb_refl. reflexivity. Qed.

Lemma store8_other m a b x : x <> a -> store8 m a b x = m x.
Proof.
  intros H. unfold store8. destruct (Z.eqb_spec x a); congruence.
Qed.

Lemma store16_outside m a h x : x < a \/ a + 2 <= x -> store16 m a h x = m x.
Proof.
  intros H. unfold store16. rewrite !store8_other by lia. reflexivity.
Qed.

Lemma store32_outside m a v x : x < a \/ a + 4 <= x -> store32 m a v x = m x.
Proof.
  intros H. unfold store32. rewrite !store16_outside by lia. reflexivity.
Qed.

Lemma store_bytes_outside data : forall m a x,
  x < a \/ a + Z.of_nat (length data) <= x -> store_bytes m a data x = m x.
Proof.
  induction data as [|b rest IH]; intros m a x H; simpl in *.
  - reflexivity.
  - rewrite IH by lia. apply store8_other. lia.
Qed.

Lemma load16_agree m1 m2 a :
  (forall x, a <= x < a + 2 -> m1 x = m2 x) -> load16 m1 a = load16 m2 a.
Proof.
  intros H. unfold load16, load8. rewrite (H a), (H (a + 1)) by lia.
  reflexivity.
Qed.

Lemma load32_agree m1 m2 a :
  (forall x, a <= x < a + 4 -> m1 x = m2 x) -> load32 m1 a = load32 m2 a.
Proof.
  intros H. unfold load32.
  rewrite (load16_agree m1 m2 a), (load16_agree m1 m2 (a + 2));
    [reflexivity | |]; intros x Hx; apply H; lia.
Qed.

Lemma load16_range m a : 0 <= load16 m a < 2 ^ 16.
Proof.
  unfold load16, load8.
  pose proof (u8_range (m a)). pose proof (u8_range (m (a + 1))).
  change (2 ^ 8) with 256 in *. change (2 ^ 16) with 65536. lia.
Qed.

Lemma u8_shiftr_8 h : u8 h + 2 ^ 8 * u8 (h >> 8) = u16 h.
Proof.
  unfold u8, u16. rewrite Z.shiftr_div_pow2 by lia.
  change (2 ^ 16) with (2 ^ 8 * 2 ^ 8).
  rewrite Z.rem_mul_r by lia. reflexivity.
Qed.

Lemma load16_store16 m a h : load16 (store16 m a h) a = u16 h.
Proof.
  unfold load16, load8, store16.
  rewrite store8_same, (store8_other _ (a + 1)), store8_same by lia.
  rewrite !u8_idem. apply u8_shiftr_8.
Qed.

Lemma load16_store16_other m a h b :
  b + 2 <= a \/ a + 2 <= b -> load16 (store16 m a h) b = load16 m b.
Proof.
  intros H. apply load16_agree. intros x Hx. apply store16_outside. lia.
Qed.

Lemma u16_shiftr_16 v : u16 v + 2 ^ 16 * u16 (v >> 16) = u32 v.
Proof.
  unfold u16, u32. rewrite Z.shiftr_div_pow2 by lia.
  change (2 ^ 32) with (2 ^ 16 * 2 ^ 16).
  rewrite Z.rem_mul_r by lia. reflexivity.
Qed.

Lemma load32_store32 m a v : load32 (store32 m a v) a = u32 v.
Proof.
  unfold load32, store32.
  rewrite load16_store16.
  rewrite load16_store16_other by lia.
  rewrite load16_store16. apply u16_shiftr_16.
Qed.

Lemma load32_store32_other m a v b :
  b + 4 <= a \/ a + 4 <= b -> load32 (store32 m a v) b = load32 m b.
Proof.
  intros H. apply load32_agree. intros x Hx. apply store32_outside. lia.
Qed.

(** ** Branch to an immediate *)

Lemma u64_testbit x k :
  0 <= k -> Z.testbit (u64 x) k = (k <? 64) && Z.testbit x k.
Proof.
  intros Hk. unfold u64. destruct (Z.ltb_spec k 64); cbn [andb].
  - apply Z.mod_pow2_bits_low. lia.
  - apply Z.mod_pow2_bits_high. lia.
Qed.

Lemma land_not_1_clearbit a : u64 a .& u64 (Z.lnot 1) = Z.clearbit (u64 a) 0.
Proof.
  apply Z.bits_inj'. intros k Hk.
  rewrite Z.land_spec, Z.clearbit_eqb, !u64_testbit, Z.lnot_spec by lia.
  destruct (Z.ltb_spec k 64); cbn [andb]; [|reflexivity].
  destruct (Z.eqb_spec 0 k) as [<-|Hne]; [reflexivity|].
  replace (Z.testbit 1 k) with false; [reflexivity|].
  symmetry. change 1 with (2 ^ 0). apply Z.pow2_bits_false. lia.
Qed.

Lemma branch_imm_distance_clearbit w target :
  branch_imm_distance w target =
  Z.quot (s32 (s32 (Z.clearbit (u64 target) 0) - s32 (u64 (pc w + 4)))) 2.
Proof.
  unfold branch_imm_distance. rewrite land_not_1_clearbit. reflexivity.
Qed.

(** C1, as amended: [b], [bl] and [blx] to an immediate all compute the
    displacement from the target with bit 0 cleared, that is
    [((gint32) (target & ~1) - (gint32) (pc + 4)) / 2] with C's truncating
    division, and emit its T4 encoding. *)
Theorem branch_imm_clears_bit0_in_every_variant (w : GumThumbWriter)
    (target : Z) :
  let d :=
    Z.quot (s32 (s32 (Z.clearbit (u64 target) 0) - s32 (u64 (pc w + 4)))) 2 in
  branch_imm_distance w target = d
  /\ gum_thumb_writer_put_b_imm w target = put_branch_distance w d false true
  /\ gum_thumb_writer_put_bl_imm w target = put_branch_distance w d true true
  /\ gum_thumb_writer_put_blx_imm w target =
     put_branch_distance w d true false.
Proof.
  cbv zeta.
  unfold gum_thumb_writer_put_b_imm, gum_thumb_writer_put_bl_imm,
    gum_thumb_writer_put_blx_imm, gum_thumb_writer_put_branch_imm.
  rewrite branch_imm_distance_clearbit. repeat split; reflexivity.
Qed.

(** C1 as stated fails: for [b] to the odd target 0x1001 from pc 0x1000
    the unmodified target gives the displacement -1, the code computes -2
    and emits another second halfword. *)
Lemma b_imm_odd_target_counterexample :
  stated_branch_distance writer_at_0x1000 0x1001 true = -1
  /\ branch_imm_distance writer_at_0x1000 0x1001 = -2
  /\ gum_thumb_writer_put_b_imm writer_at_0x1000 0x1001 <>
     put_branch_distance writer_at_0x1000
       (stated_branch_distance writer_at_0x1000 0x1001 true) false true.
Proof.
  split; [vm_compute; reflexivity|]. split; [vm_compute; reflexivity|].
  intros H. apply (f_equal (fun w => load16 (heap w) 0x1002)) in H.
  vm_compute in H. discriminate H.
Qed.

(** ** Memory transfers and add with an immediate *)

Lemma is_low_reg_meta r :
  (meta (gum_arm_reg_describe r) <=? GUM_ARM_MREG_R7) = is_low_reg r.
Proof. destruct r; reflexivity. Qed.

Lemma is_sp_meta r :
  (meta (gum_arm_reg_describe r) =? GUM_ARM_MREG_SP) = is_sp r.
Proof. destruct r; reflexivity. Qed.

Lemma transfer_reg_reg_offset_forms w operation dst base off :
  gum_thumb_writer_put_transfer_reg_reg_offset w operation dst base off =
  stated_transfer w operation dst base (gsize off).
Proof.
  unfold gum_thumb_writer_put_transfer_reg_reg_offset, stated_transfer,
    narrow_transfer, narrow_transfer_insn, wide_transfer_hw1,
    wide_transfer_hw2, reg_index.
  cbv zeta. rewrite !is_low_reg_meta, !is_sp_meta.
  destruct (is_low_reg dst), (is_low_reg base), (is_sp base) eqn:Hsp,
    (gsize off mod 4 =? 0), (gsize off <=? 1020), (gsize off <=? 124);
    cbn [andb orb negb]; try reflexivity;
    destruct operation; cbn [is_load];
    unfold gum_thumb_writer_put_instruction;
    rewrite ?u16_idem, ?u16_lor_l, ?u16_idem, ?Z.lor_0_r; reflexivity.
Qed.

(** What one emitted halfword does to the writer. *)
Lemma put_instruction_effect w insn :
  let w' := gum_thumb_writer_put_instruction w insn in
  load16 (heap w') (code w) = u16 insn
  /\ code w' = code w + 2
  /\ pc w' = u64 (pc w + 2)
  /\ halfwords_emitted w' = halfwords_emitted w + 1
  /\ forall x, x < code w \/ code w + 2 <= x -> heap w' x = heap w x.
Proof.
  cbv zeta. unfold gum_thumb_writer_put_instruction.
  cbn [advance with_heap heap code pc halfwords_emitted].
  rewrite load16_store16, u16_idem.
  repeat split; try reflexivity; try lia.
  intros x Hx. apply store16_outside. exact Hx.
Qed.

(** What two halfwords emitted one after the other do to the writer. *)
Lemma two_instructions_effect w a b :
  let w' :=
    gum_thumb_writer_put_instruction
      (gum_thumb_writer_put_instruction w a) b in
  load16 (heap w') (code w) = u16 a
  /\ load16 (heap w') (code w + 2) = u16 b
  /\ code w' = code w + 4
  /\ pc w' = u64 (pc w + 4)
  /\ forall x, x < code w \/ code w + 4 <= x -> heap w' x = heap w x.
Proof.
  cbv zeta.
  destruct (put_instruction_effect w a) as (Ha & Hc & Hp & _ & Hf).
  destruct (put_instruction_effect (gum_thumb_writer_put_instruction w a) b)
    as (Hb & Hc' & Hp' & _ & Hf').
  cbv zeta in *. rewrite Hc in *. repeat split.
  - rewrite <- Ha. apply load16_agree. intros x Hx. apply Hf'. lia.
  - exact Hb.
  - lia.
  - rewrite Hp', Hp, u64_add_l. f_equal. lia.
  - intros x Hx. rewrite Hf' by lia. apply Hf. lia.
Qed.

Lemma reg_index_range r : 0 <= reg_index r <= 15.
Proof. destruct r; vm_compute; split; discriminate. Qed.

Lemma low_reg_index_range r : is_low_reg r = true -> 0 <= reg_index r <= 7.
Proof. destruct r; intros H; try discriminate H; vm_compute; split;
  discriminate. Qed.

Lemma u16_shiftl x k n :
  0 <= k -> 0 <= x -> x < 2 ^ n -> 0 <= n -> n + k <= 16 ->
  u16 (x << k) = x << k.
Proof.
  intros Hk Hx Hlt Hn Hnk. apply u16_small.
  rewrite Z.shiftl_mul_pow2 by lia. split; [nia|].
  assert (2 ^ n * 2 ^ k <= 2 ^ 16).
  { rewrite <- Z.pow_add_r by lia. apply Z.pow_le_mono_r; lia. }
  assert (0 < 2 ^ k) by (apply Z.pow_pos_nonneg; lia). nia.
Qed.

Lemma narrow_transfer_insn_u16 operation dst base off :
  0 <= off -> narrow_transfer dst base off = true ->
  u16 (narrow_transfer_insn operation dst base off) =
  narrow_transfer_insn operation dst base off.
Proof.
  intros Hoff H. unfold narrow_transfer in H.
  apply andb_prop in H. destruct H as [H Hle].
  apply andb_prop in H. destruct H as [H Hmod].
  apply andb_prop in H. destruct H as [Hdst Hbase].
  pose proof (low_reg_index_range dst Hdst) as Hd.
  pose proof (reg_index_range base) as Hb.
  unfold narrow_transfer_insn. rewrite u16_lor.
  assert (Hop : u16 (if is_load operation then 2048 else 0)
                = if is_load operation then 2048 else 0)
    by (destruct (is_load operation); reflexivity).
  rewrite Hop. f_equal.
  destruct (is_sp base) eqn:Hsp.
  - apply Z.leb_le in Hle.
    rewrite !u16_lor, (u16_shiftl (reg_index dst) 8 3) by lia.
    rewrite (u16_small (off / 4))
      by (change (2 ^ 16) with 65536; split;
          [apply Z.div_pos; lia | apply Z.div_lt_upper_bound; lia]).
    reflexivity.
  - apply Z.leb_le in Hle. rewrite orb_false_r in Hbase.
    pose proof (low_reg_index_range base Hbase) as Hb'.
    rewrite !u16_lor, (u16_shiftl (reg_index base) 3 3) by lia.
    assert (Hq : 0 <= off / 4 < 2 ^ 5)
      by (change (2 ^ 5) with 32; split;
          [apply Z.div_pos; lia | apply Z.div_lt_upper_bound; lia]).
    rewrite (u16_shiftl (off / 4) 6 5) by lia.
    rewrite (u16_small (reg_index dst)) by (change (2 ^ 16) with 65536; lia).
    reflexivity.
Qed.

Lemma wide_transfer_hw1_u16 operation base :
  u16 (wide_transfer_hw1 operation base) = wide_transfer_hw1 operation base.
Proof. destruct operation, base; reflexivity. Qed.

Lemma wide_transfer_hw2_u16 dst off :
  0 <= off <= 4095 ->
  u16 (wide_transfer_hw2 dst off) = wide_transfer_hw2 dst off.
Proof.
  intros H. pose proof (reg_index_range dst).
  unfold wide_transfer_hw2.
  rewrite u16_lor, (u16_shiftl (reg_index dst) 12 4) by lia.
  rewrite (u16_small off) by (change (2 ^ 16) with 65536; lia).
  reflexivity.
Qed.

(** C6: [ldr] and [str] with a register and an offset, the offset being
    converted to [gsize] at the call. When the register is low, the base
    is low or SP, and the offset is a multiple of 4 and at most 1020 (SP
    base) or 124 (low base), the call succeeds, the one halfword of the
    narrow form is in the heap at the place of the cursor, and cursor and
    pc are two bytes on. When that is not so and the offset exceeds 4095
    the call fails and leaves the writer as it was. In every other case
    the call succeeds, the two halfwords of the wide form are in the heap
    at the place of the cursor, and cursor and pc are four bytes on.
    Nothing else in the heap changes. *)
Theorem ldr_str_reg_reg_offset_narrow_or_wide (w : GumThumbWriter)
    (operation : GumThumbMemoryOperation) (reg base_reg : arm_reg)
    (offset : Z) :
  let off := gsize offset in
  let r :=
    match operation with
    | GUM_THUMB_MEMORY_LOAD =>
        gum_thumb_writer_put_ldr_reg_reg_offset w reg base_reg offset
    | GUM_THUMB_MEMORY_STORE =>
        gum_thumb_writer_put_str_reg_reg_offset w reg base_reg offset
    end in
  let w' := snd r in
  (if narrow_transfer reg base_reg off then
     fst r = true
     /\ load16 (heap w') (code w) =
        narrow_transfer_insn operation reg base_reg off
     /\ code w' = code w + 2
     /\ pc w' = u64 (pc w + 2)
   else if 4095 <? off then r = (false, w)
   else
     fst r = true
     /\ load16 (heap w') (code w) = wide_transfer_hw1 operation base_reg
     /\ load16 (heap w') (code w + 2) = wide_transfer_hw2 reg off
     /\ code w' = code w + 4
     /\ pc w' = u64 (pc w + 4))
  /\ forall x, x < code w \/ code w' <= x -> heap w' x = heap w x.
Proof.
  cbv zeta.
  assert (E : match operation with
              | GUM_THUMB_MEMORY_LOAD =>
                  gum_thumb_writer_put_ldr_reg_reg_offset w reg base_reg
                    offset
              | GUM_THUMB_MEMORY_STORE =>
                  gum_thumb_writer_put_str_reg_reg_offset w reg base_reg
                    offset
              end = stated_transfer w operation reg base_reg (gsize offset))
    by (destruct operation; apply transfer_reg_reg_offset_forms).
  rewrite E. clear E.
  pose proof (u32_range offset) as Hoff. fold (gsize offset) in Hoff.
  unfold stated_transfer.
  destruct (narrow_transfer reg base_reg (gsize offset)) eqn:Hn;
    cbn [fst snd].
  - destruct (put_instruction_effect w
                (narrow_transfer_insn operation reg base_reg (gsize offset)))
      as (Hh & Hc & Hp & _ & Hf).
    cbv zeta in *. rewrite narrow_transfer_insn_u16 in Hh by (lia || exact Hn).
    repeat split; try assumption; intros x Hx; apply Hf; lia.
  - destruct (Z.ltb_spec 4095 (gsize offset)) as [Hbig|Hsmall]; cbn [fst snd].
    + split; [reflexivity|]. intros x _. reflexivity.
    + destruct (two_instructions_effect w
                  (wide_transfer_hw1 operation base_reg)
                  (wide_transfer_hw2 reg (gsize offset)))
        as (H1 & H2 & Hc & Hp & Hf).
      cbv zeta in *.
      rewrite wide_transfer_hw1_u16 in H1.
      rewrite wide_transfer_hw2_u16 in H2 by lia.
      repeat split; try assumption; intros x Hx; apply Hf; lia.
Qed.

(** For a register other than SP [add reg, #imm] never fails: the
    magnitude of the immediate is not checked. *)
Lemma add_reg_imm_off_sp w dst imm :
  is_sp dst = false ->
  gum_thumb_writer_put_add_reg_imm w dst imm =
  (true,
   gum_thumb_writer_put_instruction w
     (0x3000 .| (if imm <? 0 then 0x0800 else 0) .| (reg_index dst << 8)
        .| ABS imm)).
Proof.
  intros H. unfold gum_thumb_writer_put_add_reg_imm.
  rewrite is_sp_meta, H. unfold gum_thumb_writer_put_instruction.
  rewrite u16_idem. reflexivity.
Qed.

(** C3: [add r0, #256], whose immediate does not fit in 8 bits, is
    accepted: the call succeeds and emits 0x3100, the halfword of
    [add r1, #0]; likewise [sub r0, #256] emits 0x3900. *)
Theorem add_reg_imm_256_is_accepted (w : GumThumbWriter) :
  gum_thumb_writer_put_add_reg_imm w ARM_REG_R0 256 =
    (true, gum_thumb_writer_put_instruction w 0x3100)
  /\ gum_thumb_writer_put_add_reg_imm w ARM_REG_R0 256 =
     gum_thumb_writer_put_add_reg_imm w ARM_REG_R1 0
  /\ gum_thumb_writer_put_sub_reg_imm w ARM_REG_R0 256 =
     (true, gum_thumb_writer_put_instruction w 0x3900).
Proof. repeat split; reflexivity. Qed.

(** ** Push and pop *)

Lemma low_reg_bits_testbit regs k :
  0 <= k ->
  Z.testbit (low_reg_bits regs) k =
  existsb (fun r => is_low_reg r && (reg_index r =? k)) regs.
Proof.
  intros Hk. induction regs as [|r rest IH]; simpl.
  - apply Z.bits_0.
  - rewrite Z.lor_spec, IH. f_equal.
    destruct (is_low_reg r); cbn [andb]; [|apply Z.bits_0].
    rewrite Z.shiftl_1_l. apply Z.pow2_bits_eqb.
    destruct r; vm_compute; discriminate.
Qed.

Lemma reg_index_bits_testbit regs k :
  0 <= k ->
  Z.testbit (reg_index_bits regs) k = existsb (fun r => reg_index r =? k) regs.
Proof.
  intros Hk. induction regs as [|r rest IH]; simpl.
  - apply Z.bits_0.
  - rewrite Z.lor_spec, IH. f_equal.
    rewrite Z.shiftl_1_l. apply Z.pow2_bits_eqb.
    destruct r; vm_compute; discriminate.
Qed.

Lemma need_wide_fold special items : forall need,
  fold_left
    (fun need ri =>
       let is_low_reg :=
         (GUM_ARM_MREG_R0 <=? meta ri) && (meta ri <=? GUM_ARM_MREG_R7) in
       if negb is_low_reg && negb (meta ri =? special)
       then true else need)
    items need =
  need
  || negb
       (forallb
          (fun ri =>
             ((GUM_ARM_MREG_R0 <=? meta ri) && (meta ri <=? GUM_ARM_MREG_R7))
             || (meta ri =? special))
          items).
Proof.
  induction items as [|ri rest IH]; intros need; simpl.
  - rewrite orb_false_r. reflexivity.
  - rewrite IH.
    destruct ((GUM_ARM_MREG_R0 <=? meta ri) && (meta ri <=? GUM_ARM_MREG_R7)),
      (meta ri =? special), need; reflexivity.
Qed.

Lemma low_meta r :
  (GUM_ARM_MREG_R0 <=? meta (gum_arm_reg_describe r))
  && (meta (gum_arm_reg_describe r) <=? GUM_ARM_MREG_R7) = is_low_reg r.
Proof. destruct r; reflexivity. Qed.

Lemma special_meta special r :
  (meta (gum_arm_reg_describe r) =? meta (gum_arm_reg_describe special)) =
  is_reg special r.
Proof. destruct r, special; reflexivity. Qed.

Lemma need_wide_instruction_spec special regs :
  need_wide_instruction (meta (gum_arm_reg_describe special))
    (map gum_arm_reg_describe regs) =
  negb (all_low_or_special special regs).
Proof.
  unfold need_wide_instruction, all_low_or_special.
  rewrite need_wide_fold. cbn [orb]. f_equal.
  induction regs as [|r rest IH]; cbn [map forallb]; [reflexivity|].
  rewrite IH, low_meta, special_meta. reflexivity.
Qed.

Lemma wide_mask_fold regs : forall mask,
  u16 (fold_left (fun mask ri => u16 (mask .| (1 << index ri)))
         (map gum_arm_reg_describe regs) mask) =
  u16 (mask .| reg_index_bits regs).
Proof.
  induction regs as [|r rest IH]; intros mask;
    cbn [map fold_left fold_right reg_index_bits].
  - rewrite Z.lor_0_r. reflexivity.
  - rewrite IH, u16_lor_l, Z.lor_assoc. reflexivity.
Qed.

Lemma narrow_insn_fold special regs : forall insn,
  u16 (fold_left
         (fun insn ri =>
            if meta ri =? meta (gum_arm_reg_describe special)
            then u16 (insn .| 0x0100)
            else u16 (insn .| (1 << index ri)))
         (map gum_arm_reg_describe regs) insn) =
  u16 (insn .| fold_right (fun r bits => narrow_bit special r .| bits) 0 regs).
Proof.
  induction regs as [|r rest IH]; intros insn;
    cbn [map fold_left fold_right].
  - rewrite Z.lor_0_r. reflexivity.
  - rewrite special_meta. unfold narrow_bit at 1.
    destruct (is_reg special r); rewrite IH, u16_lor_l, Z.lor_assoc;
      reflexivity.
Qed.

Lemma narrow_bits_spec special regs :
  is_low_reg special = false ->
  all_low_or_special special regs = true ->
  fold_right (fun r bits => narrow_bit special r .| bits) 0 regs =
  low_reg_bits regs .| (if existsb (is_reg special) regs then 0x0100 else 0).
Proof.
  intros Hsp. induction regs as [|r rest IH]; intros Hall;
    cbn [fold_right low_reg_bits existsb all_low_or_special forallb] in *.
  - reflexivity.
  - apply andb_prop in Hall. destruct Hall as [Hr Hrest].
    rewrite (IH Hrest). unfold narrow_bit.
    destruct (is_reg special r) eqn:Hs; cbn [orb].
    + assert (Hlow : is_low_reg r = false).
      { unfold is_reg, arm_reg_eqb in Hs.
        destruct r, special; try reflexivity; discriminate. }
      rewrite Hlow, Z.lor_0_l.
      destruct (existsb (is_reg special) rest).
      * rewrite Z.lor_comm, <- Z.lor_assoc, Z.lor_diag. reflexivity.
      * rewrite Z.lor_0_r. apply Z.lor_comm.
    + rewrite orb_false_r in Hr. rewrite Hr, Z.lor_assoc. reflexivity.
Qed.

Lemma push_or_pop_regs_forms w narrow_opcode wide_opcode special regs :
  is_low_reg special = false ->
  gum_thumb_writer_put_push_or_pop_regs w narrow_opcode wide_opcode
    (meta (gum_arm_reg_describe special)) regs =
  stated_push_or_pop w narrow_opcode wide_opcode special regs.
Proof.
  intros Hsp.
  unfold gum_thumb_writer_put_push_or_pop_regs, stated_push_or_pop.
  destruct regs as [|r rest]; [reflexivity|].
  change (Z.of_nat (length (r :: rest)) =? 0) with false. cbv iota.
  rewrite need_wide_instruction_spec.
  destruct (all_low_or_special special (r :: rest)) eqn:Hall; cbn [negb].
  - f_equal. unfold gum_thumb_writer_put_instruction. do 3 f_equal.
    unfold narrow_insn, stated_narrow_insn.
    rewrite narrow_insn_fold, u16_lor_l, narrow_bits_spec, Z.lor_assoc
      by assumption.
    reflexivity.
  - f_equal. unfold gum_thumb_writer_put_instruction at 1 3. do 3 f_equal.
    unfold wide_mask. rewrite wide_mask_fold, Z.lor_0_l. reflexivity.
Qed.

Lemma low_reg_bits_u16 regs : u16 (low_reg_bits regs) = low_reg_bits regs.
Proof.
  induction regs as [|r rest IH]; cbn [low_reg_bits fold_right].
  - reflexivity.
  - fold (low_reg_bits rest). rewrite u16_lor, IH. f_equal.
    destruct r; reflexivity.
Qed.

Lemma reg_index_bits_u16 regs :
  u16 (reg_index_bits regs) = reg_index_bits regs.
Proof.
  induction regs as [|r rest IH]; cbn [reg_index_bits fold_right].
  - reflexivity.
  - fold (reg_index_bits rest). rewrite u16_lor, IH. f_equal.
    destruct r; reflexivity.
Qed.

Lemma stated_narrow_insn_u16 narrow_opcode special regs :
  u16 narrow_opcode = narrow_opcode ->
  u16 (stated_narrow_insn narrow_opcode special regs) =
  stated_narrow_insn narrow_opcode special regs.
Proof.
  intros H. unfold stated_narrow_insn.
  rewrite !u16_lor, H, low_reg_bits_u16.
  destruct (existsb _ _); reflexivity.
Qed.

(** C7: push (special register LR) and pop (special register PC) of a
    register set. For an empty set the call fails and leaves the writer as
    it was. For a set whose registers are all low or the special one, the
    call succeeds, the one halfword of the narrow form, with one bit per
    low register and bit 8 for the special register, is in the heap at the
    place of the cursor, and cursor and pc are two bytes on. For any other
    set the call succeeds, the wide opcode and a mask with one bit per
    register index are in the heap at the place of the cursor, and cursor
    and pc are four bytes on. Nothing else in the heap changes. *)
Theorem push_pop_regs_array_narrow_or_wide (w : GumThumbWriter)
    (push : bool) (regs : list arm_reg) :
  let special := if push then ARM_REG_LR else ARM_REG_PC in
  let narrow_opcode := if push then 0xb400 else 0xbc00 in
  let wide_opcode := if push then 0xe92d else 0xe8bd in
  let r :=
    if push then gum_thumb_writer_put_push_regs_array w regs
    else gum_thumb_writer_put_pop_regs_array w regs in
  let w' := snd r in
  match regs with
  | [] => r = (false, w)
  | _ :: _ =>
      fst r = true
      /\ (if all_low_or_special special regs then
            load16 (heap w') (code w) =
            narrow_opcode .| low_reg_bits regs
            .| (if existsb (is_reg special) regs then 0x0100 else 0)
            /\ code w' = code w + 2
            /\ pc w' = u64 (pc w + 2)
          else
            load16 (heap w') (code w) = wide_opcode
            /\ load16 (heap w') (code w + 2) = reg_index_bits regs
            /\ code w' = code w + 4
            /\ pc w' = u64 (pc w + 4))
      /\ forall x, x < code w \/ code w' <= x -> heap w' x = heap w x
  end.
Proof.
  cbv zeta.
  assert (E : (if push then gum_thumb_writer_put_push_regs_array w regs
               else gum_thumb_writer_put_pop_regs_array w regs) =
              stated_push_or_pop w (if push then 0xb400 else 0xbc00)
                (if push then 0xe92d else 0xe8bd)
                (if push then ARM_REG_LR else ARM_REG_PC) regs).
  { destruct push.
    - apply (push_or_pop_regs_forms w 0xb400 0xe92d ARM_REG_LR regs).
      reflexivity.
    - apply (push_or_pop_regs_forms w 0xbc00 0xe8bd ARM_REG_PC regs).
      reflexivity. }
  rewrite E. clear E. unfold stated_push_or_pop.
  destruct regs as [|first more]; [reflexivity|].
  set (regs := first :: more).
  set (special := if push then ARM_REG_LR else ARM_REG_PC).
  set (narrow_opcode := if push then 0xb400 else 0xbc00).
  set (wide_opcode := if push then 0xe92d else 0xe8bd).
  assert (Hn : u16 narrow_opcode = narrow_opcode)
    by (unfold narrow_opcode; destruct push; reflexivity).
  assert (Hw : u16 wide_opcode = wide_opcode)
    by (unfold wide_opcode; destruct push; reflexivity).
  destruct (all_low_or_special special regs); cbn [fst snd].
  - destruct (put_instruction_effect w
                (stated_narrow_insn narrow_opcode special regs))
      as (Hh & Hc & Hp & _ & Hf).
    cbv zeta in *. rewrite stated_narrow_insn_u16 in Hh by exact Hn.
    repeat split; try assumption; intros x Hx; apply Hf; lia.
  - destruct (two_instructions_effect w wide_opcode (reg_index_bits regs))
      as (H1 & H2 & Hc & Hp & Hf).
    cbv zeta in *. rewrite Hw in H1. rewrite reg_index_bits_u16 in H2.
    repeat split; try assumption; intros x Hx; apply Hf; lia.
Qed.

(** ** Pools *)

Lemma index_of_le val pool : (index_of val pool <= length pool)%nat.
Proof.
  induction pool as [|v rest IH]; cbn [index_of length]; [lia|].
  destruct (v =? val); lia.
Qed.

Lemma index_of_absent val pool :
  index_of val pool = length pool <-> ~ In val pool.
Proof.
  induction pool as [|v rest IH]; cbn [index_of length In].
  - tauto.
  - destruct (Z.eqb_spec v val) as [E|N].
    + split; [discriminate | intros H; exfalso; apply H; left; exact E].
    + split.
      * intros H [E|Hin]; [contradiction|]. apply IH in Hin; [exact Hin | lia].
      * intros H. f_equal. apply IH. tauto.
Qed.

Lemma index_of_app_present val pool more :
  In val pool -> index_of val (pool ++ more) = index_of val pool.
Proof.
  induction pool as [|v rest IH]; cbn [index_of app In]; [contradiction|].
  intros H. destruct (Z.eqb_spec v val) as [E|N]; [reflexivity|].
  f_equal. apply IH. destruct H; [contradiction | assumption].
Qed.

Lemma index_of_app_new val pool :
  ~ In val pool -> index_of val (pool ++ [val]) = length pool.
Proof.
  induction pool as [|v rest IH]; cbn [index_of app In length]; intros H.
  - rewrite Z.eqb_refl. reflexivity.
  - destruct (Z.eqb_spec v val) as [E|N]; [tauto|].
    f_equal. apply IH. tauto.
Qed.

Lemma nth_index_of val pool :
  In val pool -> nth (index_of val pool) pool 0 = val.
Proof.
  induction pool as [|v rest IH]; cbn [index_of In]; [contradiction|].
  intros H. destruct (Z.eqb_spec v val) as [E|N]; cbn [nth]; [exact E|].
  apply IH. destruct H; [contradiction | assumption].
Qed.

Lemma add_slot_length pool val :
  length (add_slot pool val) =
  if (index_of val pool =? length pool)%nat
  then S (length pool) else length pool.
Proof.
  unfold add_slot. destruct (index_of val pool =? length pool)%nat;
    [rewrite length_app; cbn; lia | reflexivity].
Qed.

Lemma add_slot_index pool val :
  index_of val (add_slot pool val) = index_of val pool.
Proof.
  unfold add_slot. destruct (Nat.eqb_spec (index_of val pool) (length pool))
    as [E|N]; [|reflexivity].
  rewrite index_of_app_new, E; [reflexivity|]. apply index_of_absent, E.
Qed.

Lemma add_slot_In pool val : In val (add_slot pool val).
Proof.
  unfold add_slot. destruct (Nat.eqb_spec (index_of val pool) (length pool))
    as [E|N].
  - apply in_or_app. right. left. reflexivity.
  - destruct (in_dec Z.eq_dec val pool) as [H|H]; [exact H|].
    apply index_of_absent in H. contradiction.
Qed.

Lemma add_slot_incl pool val v : In v pool -> In v (add_slot pool val).
Proof.
  unfold add_slot. destruct (index_of val pool =? length pool)%nat;
    [intros; apply in_or_app; left; assumption | trivial].
Qed.

Lemma add_slot_index_other pool val v :
  In v pool -> index_of v (add_slot pool val) = index_of v pool.
Proof.
  intros H. unfold add_slot.
  destruct (index_of val pool =? length pool)%nat; [|reflexivity].
  apply index_of_app_present, H.
Qed.

Lemma pool_at_agree pool : forall m1 m2 a,
  (forall x, a <= x < a + 4 * Z.of_nat (length pool) -> m1 x = m2 x) ->
  pool_at m1 a pool -> pool_at m2 a pool.
Proof.
  induction pool as [|v rest IH]; intros m1 m2 a H Hp; cbn [pool_at] in *.
  - exact I.
  - cbn [length] in H. destruct Hp as [Hv Hrest]. split.
    + rewrite <- Hv. symmetry. apply load32_agree. intros x Hx. apply H. lia.
    + apply (IH m1); [|exact Hrest]. intros x Hx. apply H. lia.
Qed.

Lemma pool_at_app pool : forall m a v,
  pool_at m a pool ->
  load32 m (a + 4 * Z.of_nat (length pool)) = v ->
  pool_at m a (pool ++ [v]).
Proof.
  induction pool as [|x rest IH]; intros m a v Hp Hv;
    cbn [pool_at app length] in *.
  - rewrite Z.add_0_r in Hv. split; [exact Hv | exact I].
  - destruct Hp as [Hx Hrest]. split; [exact Hx|].
    apply IH; [exact Hrest|]. rewrite <- Hv. f_equal. lia.
Qed.

Lemma pool_at_nth pool : forall m a k,
  pool_at m a pool -> (k < length pool)%nat ->
  load32 m (a + 4 * Z.of_nat k) = nth k pool 0.
Proof.
  induction pool as [|x rest IH]; intros m a k Hp Hk; cbn [length] in Hk;
    [lia|].
  destruct Hp as [Hx Hrest]. destruct k as [|k]; cbn [nth].
  - rewrite Z.add_0_r. exact Hx.
  - rewrite <- (IH m (a + 4) k Hrest) by lia. f_equal. lia.
Qed.

Lemma find_slot_pool_at pool : forall m a val,
  pool_at m a pool ->
  find_slot m a val (length pool) = a + 4 * Z.of_nat (index_of val pool).
Proof.
  induction pool as [|x rest IH]; intros m a val Hp;
    cbn [find_slot length index_of].
  - lia.
  - destruct Hp as [Hx Hrest]. rewrite Hx.
    destruct (x =? val); [lia|].
    rewrite (IH m (a + 4) val Hrest). lia.
Qed.

Lemma u64_eq_sub_add p a n k :
  u64 p = u64 (a + n) -> u64 (p - n + k) = u64 (a + k).
Proof.
  intros H. replace (p - n + k) with (p + (k - n)) by lia.
  rewrite <- u64_add_l, H, u64_add_l. f_equal. lia.
Qed.

(** ** The literal loop *)

Lemma pool_of_snoc done r :
  pool_of (done ++ [r]) = add_slot (pool_of done) (lit_val r).
Proof. unfold pool_of. rewrite map_app, fold_left_app. reflexivity. Qed.

Lemma literals_in_order_le m refs : forall lo hi,
  literals_in_order m lo refs hi = true -> lo <= hi.
Proof.
  induction refs as [|r rest IH]; intros lo hi H;
    cbn [literals_in_order] in H.
  - lia.
  - apply andb_prop in H. destruct H as [H Hrest].
    apply andb_prop in H. destruct H as [H _].
    apply andb_prop in H. destruct H as [H _].
    apply IH in Hrest.
    assert (2 <= literal_size m r)
      by (unfold literal_size; destruct gum_instruction_is_t1_load; lia).
    lia.
Qed.

Lemma loop_state_start w0 lo :
  lo <= code w0 -> loop_state w0 lo [] (w0, code w0).
Proof.
  intros H. constructor; cbn; try reflexivity; try assumption;
    try tauto.
  - lia.
  - rewrite Z.add_0_r. reflexivity.
  - lia.
Qed.

Lemma loop_state_step w0 lo done st r :
  loop_state w0 lo done st ->
  lo <= lit_insn r ->
  0 <= lit_val r < 2 ^ 32 ->
  lit_insn r + literal_size (heap w0) r <= code w0 ->
  loop_state w0 (lit_insn r + literal_size (heap w0) r) (done ++ [r])
    (flush_literal_ref (code w0) st r).
Proof.
  intros [Hlast Hcode Hpc Hem Hsk Hos Hbase Hlab Hlrefs Hlits Hpool Hlo
            Hframe Hdone] Hlo_r Hval Hhi.
  set (first_slot := code w0) in *. set (m0 := heap w0) in *.
  destruct st as [w last]. cbn [fst snd] in *.
  set (pool := pool_of done) in *.
  assert (Hsize : 2 <= literal_size m0 r <= 4)
    by (unfold literal_size; destruct gum_instruction_is_t1_load; lia).
  (* the load and the pool as the iteration reads them *)
  assert (Hunder : forall x, lo <= x < first_slot -> heap w x = m0 x).
  { intros x Hx. apply Hframe; [lia|]. intros q Hq.
    destruct (Hdone q Hq) as [Hq_lo _]. lia. }
  assert (Hinsn : load16 (heap w) (lit_insn r) = load16 m0 (lit_insn r)).
  { apply load16_agree. intros x Hx. apply Hunder. lia. }
  unfold flush_literal_ref.
  rewrite Hinsn, Hlast.
  replace (Z.to_nat
             ((first_slot + 4 * Z.of_nat (length pool) - first_slot) / 4))
    with (length pool)
    by (replace (first_slot + 4 * Z.of_nat (length pool) - first_slot)
          with (Z.of_nat (length pool) * 4) by lia;
        rewrite Z.div_mul by lia; lia).
  rewrite (find_slot_pool_at pool _ _ _ Hpool).
  pose proof (index_of_le (lit_val r) pool) as Hle.
  set (idx := index_of (lit_val r) pool) in *.
  set (pool' := add_slot pool (lit_val r)).
  (* the slot of the value, allocated if the pool did not hold it *)
  assert (Halloc : exists w1 last1,
    (if first_slot + 4 * Z.of_nat idx
        =? first_slot + 4 * Z.of_nat (length pool)
     then
       (advance
          (with_heap w
             (store32 (heap w) (first_slot + 4 * Z.of_nat idx)
                (lit_val r))) 2 4,
        first_slot + 4 * Z.of_nat (length pool) + 4)
     else (w, first_slot + 4 * Z.of_nat (length pool))) = (w1, last1)
    /\ last1 = first_slot + 4 * Z.of_nat (length pool')
    /\ code w1 = last1
    /\ u64 (pc w1) = u64 (pc w0 + 4 * Z.of_nat (length pool'))
    /\ halfwords_emitted w1 =
       halfwords_emitted w0 + 2 * Z.of_nat (length pool')
    /\ bytes_skipped w1 = bytes_skipped w0
    /\ target_os w1 = target_os w0
    /\ base w1 = base w0
    /\ id_to_address w1 = id_to_address w0
    /\ label_refs w1 = label_refs w0
    /\ literal_refs w1 = literal_refs w0
    /\ pool_at (heap w1) first_slot pool'
    /\ forall x, x < first_slot -> heap w1 x = heap w x).
  { pose proof (add_slot_length pool (lit_val r)) as Hlen.
    fold idx in Hlen. fold pool' in Hlen.
    assert (Hpool' : (idx = length pool -> pool' = pool ++ [lit_val r])
                     /\ (idx <> length pool -> pool' = pool)).
    { unfold pool', add_slot. fold idx.
      destruct (Nat.eqb_spec idx (length pool)); split; intros; tauto. }
    revert Hlen. destruct (Nat.eqb_spec idx (length pool)) as [E|N];
      intros Hlen.
    - rewrite E, Z.eqb_refl. eexists _, _. split; [reflexivity|].
      rewrite Hlen, (proj1 Hpool' E).
      cbn [advance with_heap code pc halfwords_emitted
        bytes_skipped target_os base id_to_address label_refs
        literal_refs heap].
      repeat split; try assumption; try lia.
      + rewrite u64_idem, <- u64_add_l, Hpc, u64_add_l. f_equal. lia.
      + apply pool_at_app.
        * apply (pool_at_agree pool (heap w)); [|exact Hpool].
          intros x Hx. symmetry. apply store32_outside. lia.
        * rewrite load32_store32. apply u32_small. exact Hval.
      + intros x Hx. apply store32_outside. lia.
    - destruct (Z.eqb_spec (first_slot + 4 * Z.of_nat idx)
                  (first_slot + 4 * Z.of_nat (length pool))) as [E|_];
        [lia|].
      eexists _, _. split; [reflexivity|].
      rewrite Hlen, (proj2 Hpool' N).
      repeat split; try assumption; try lia. }
  destruct Halloc as (w1 & last1 & -> & Hlast1 & Hcode1 & Hpc1 & Hem1 & Hsk1
                        & Hos1 & Hbase1 & Hlab1 & Hlrefs1 & Hlits1 & Hpool1
                        & Hlow1).
  (* the patch *)
  assert (Hpatch :
    (if gum_instruction_is_t1_load (load16 m0 (lit_insn r))
     then
       (with_heap w1
          (store16 (heap w1) (lit_insn r)
             (u16
                (load16 m0 (lit_insn r)
                 .| gsize
                      (u64
                         (pc w1 - (last1 - first_slot)
                          + (first_slot + 4 * Z.of_nat idx - first_slot))
                       - lit_pc r .& u64 (Z.lnot 3)) / 4))),
        last1)
     else
       (with_heap w1
          (store16 (heap w1) (lit_insn r + 2)
             (u16
                (load16 (heap w1) (lit_insn r + 2)
                 .| gsize
                      (u64
                         (pc w1 - (last1 - first_slot)
                          + (first_slot + 4 * Z.of_nat idx - first_slot))
                       - lit_pc r .& u64 (Z.lnot 3))))),
        last1)) =
    (with_heap w1
       (store16 (heap w1) (patch_address m0 r)
          (patched_literal m0 (pc w0) idx r)),
     last1)).
  { assert (Hslot_pc :
      u64 (pc w1 - (last1 - first_slot)
           + (first_slot + 4 * Z.of_nat idx - first_slot))
      = u64 (pc w0 + 4 * Z.of_nat idx)).
    { replace (first_slot + 4 * Z.of_nat idx - first_slot)
        with (4 * Z.of_nat idx) by lia.
      apply u64_eq_sub_add. rewrite Hpc1. f_equal. lia. }
    rewrite Hslot_pc. unfold patch_address, patched_literal, literal_size in *.
    destruct (gum_instruction_is_t1_load (load16 m0 (lit_insn r)));
      [reflexivity|].
    replace (load16 (heap w1) (lit_insn r + 2))
      with (load16 m0 (lit_insn r + 2)); [reflexivity|].
    symmetry. apply load16_agree. intros x Hx.
    rewrite Hlow1 by lia. apply Hunder. lia. }
  cbv zeta. cbv beta iota. rewrite Hpatch. clear Hpatch.
  assert (Hpa : lit_insn r <= patch_address m0 r
                /\ patch_address m0 r + 2
                   <= lit_insn r + literal_size m0 r).
  { unfold patch_address, literal_size.
    destruct (gum_instruction_is_t1_load (load16 m0 (lit_insn r))); lia. }
  constructor; cbn [fst snd with_heap code pc halfwords_emitted
    bytes_skipped target_os base id_to_address label_refs literal_refs
    heap]; fold first_slot; fold m0; rewrite ?pool_of_snoc; fold pool;
    fold pool'; try assumption.
  - apply (pool_at_agree pool' (heap w1)); [|exact Hpool1].
    intros x Hx. symmetry. apply store16_outside. lia.
  - intros x Hx Hout. rewrite store16_outside.
    + rewrite Hlow1 by lia. apply Hframe; [lia|].
      intros q Hq. apply Hout, in_or_app. left. exact Hq.
    + assert (Hr : In r (done ++ [r]))
        by (apply in_or_app; right; left; reflexivity).
      specialize (Hout r Hr). lia.
  - intros q Hq. apply in_app_or in Hq. destruct Hq as [Hq|[<-|[]]].
    + destruct (Hdone q Hq) as (Hq_lo & Hq_in & Hq_load).
      split; [lia|]. split; [apply add_slot_incl; exact Hq_in|].
      unfold pool'. rewrite add_slot_index_other by exact Hq_in.
      rewrite <- Hq_load. rewrite load16_store16_other by lia.
      apply load16_agree. intros x Hx. apply Hlow1. lia.
    + split; [lia|]. split; [apply add_slot_In|].
      unfold pool'. rewrite add_slot_index. fold idx.
      rewrite load16_store16. unfold patched_literal.
      destruct (gum_instruction_is_t1_load (load16 m0 (lit_insn r)));
        apply u16_idem.
Qed.

Lemma loop_state_fold w0 rest : forall lo done st hi,
  loop_state w0 lo done st ->
  literals_in_order (heap w0) lo rest hi = true ->
  hi <= code w0 ->
  exists lo',
    loop_state w0 lo' (done ++ rest)
      (fold_left (flush_literal_ref (code w0)) rest st).
Proof.
  induction rest as [|r rest IH]; intros lo done st hi Hst Hord Hhi;
    cbn [fold_left].
  - exists lo. rewrite app_nil_r. exact Hst.
  - cbn [literals_in_order] in Hord.
    apply andb_prop in Hord. destruct Hord as [Hord Hrest].
    apply andb_prop in Hord. destruct Hord as [Hord Hv2].
    apply andb_prop in Hord. destruct Hord as [Hlo_r Hv1].
    apply Z.leb_le in Hlo_r, Hv1. apply Z.ltb_lt in Hv2.
    pose proof (literals_in_order_le _ _ _ _ Hrest) as Hle.
    replace (done ++ r :: rest) with ((done ++ [r]) ++ rest)
      by (rewrite <- app_assoc; reflexivity).
    apply (IH (lit_insn r + literal_size (heap w0) r) _ _ hi);
      [|exact Hrest|exact Hhi].
    apply (loop_state_step w0 lo); [exact Hst|lia|lia|lia].
Qed.

(** ** First occurrences *)

Lemma first_occurrences_In vals x :
  In x (first_occurrences vals) <-> In x vals.
Proof.
  induction vals as [|v rest IH]; cbn [first_occurrences In]; [tauto|].
  rewrite filter_In, IH. destruct (Z.eqb_spec x v) as [E|N]; cbn [negb].
  - split; [intros [H|[_ H]]; [left; exact H | discriminate]
           | intros _; left; symmetry; exact E].
  - split; [tauto|]. intros [H|H]; [left; exact H | right; tauto].
Qed.



Lemma not_in_spec acc x : not_in acc x = true <-> ~ In x acc.
Proof.
  unfold not_in. rewrite negb_true_iff, <- not_true_iff_false, existsb_exists.
  split.
  - intros H Hin. apply H. exists x. split; [exact Hin | apply Z.eqb_refl].
  - intros H (y & Hy & E). apply Z.eqb_eq in E. subst y. contradiction.
Qed.

Lemma filter_agree (f g : Z -> bool) l :
  (forall x, In x l -> f x = g x) -> filter f l = filter g l.
Proof.
  induction l as [|x rest IH]; intros H; cbn [filter]; [reflexivity|].
  rewrite (H x) by (left; reflexivity).
  rewrite IH by (intros y Hy; apply H; right; exact Hy). reflexivity.
Qed.

Lemma filter_twice (f g : Z -> bool) l :
  filter f (filter g l) = filter (fun x => g x && f x) l.
Proof.
  induction l as [|x rest IH]; cbn [filter]; [reflexivity|].
  destruct (g x); cbn [filter andb]; rewrite IH; reflexivity.
Qed.

Lemma fold_add_slot vals : forall acc,
  fold_left add_slot vals acc =
  acc ++ filter (not_in acc) (first_occurrences vals).
Proof.
  induction vals as [|v rest IH]; intros acc;
    cbn [fold_left first_occurrences filter].
  - rewrite app_nil_r. reflexivity.
  - rewrite IH, filter_twice. unfold add_slot.
    destruct (Nat.eqb_spec (index_of v acc) (length acc)) as [E|N].
    + apply index_of_absent in E.
      replace (not_in acc v) with true
        by (symmetry; apply not_in_spec; exact E).
      rewrite <- app_assoc. cbn [app]. do 2 f_equal.
      apply filter_agree. intros x _. unfold not_in.
      rewrite existsb_app. cbn [existsb]. rewrite orb_false_r, negb_orb.
      apply andb_comm.
    + assert (Hin : In v acc).
      { destruct (in_dec Z.eq_dec v acc) as [H|H]; [exact H|].
        apply index_of_absent in H. contradiction. }
      replace (not_in acc v) with false.
      * f_equal. apply filter_agree. intros x _.
        destruct (Z.eqb_spec x v) as [->|_]; cbn [negb andb]; [|reflexivity].
        destruct (not_in acc v) eqn:Hn; [|reflexivity].
        apply not_in_spec in Hn. contradiction.
      * symmetry. apply not_true_iff_false. rewrite not_in_spec. tauto.
Qed.

Lemma pool_of_first_occurrences refs :
  pool_of refs = first_occurrences (map lit_val refs).
Proof.
  unfold pool_of. rewrite fold_add_slot. cbn [app].
  rewrite (filter_agree _ (fun _ => true)) by reflexivity.
  induction (first_occurrences (map lit_val refs)) as [|x l IH];
    cbn [filter]; [reflexivity | rewrite IH; reflexivity].
Qed.

(** ** Literal loads under a change of the heap *)

Lemma literal_size_range m r : 2 <= literal_size m r <= 4.
Proof. unfold literal_size. destruct gum_instruction_is_t1_load; lia. Qed.

Lemma agree_load16 m1 m2 refs r :
  agree_on_literals m1 m2 refs -> In r refs ->
  load16 m2 (lit_insn r) = load16 m1 (lit_insn r).
Proof.
  intros H Hin. symmetry. apply load16_agree. intros x Hx.
  apply (H r x Hin). pose proof (literal_size_range m1 r). lia.
Qed.

Lemma agree_literal_size m1 m2 refs r :
  agree_on_literals m1 m2 refs -> In r refs ->
  literal_size m2 r = literal_size m1 r.
Proof.
  intros H Hin. unfold literal_size. rewrite (agree_load16 m1 m2 refs r H Hin).
  reflexivity.
Qed.

Lemma agree_patch_address m1 m2 refs r :
  agree_on_literals m1 m2 refs -> In r refs ->
  patch_address m2 r = patch_address m1 r.
Proof.
  intros H Hin. unfold patch_address.
  rewrite (agree_load16 m1 m2 refs r H Hin). reflexivity.
Qed.

Lemma agree_patched_literal m1 m2 refs r pool_pc k :
  agree_on_literals m1 m2 refs -> In r refs ->
  patched_literal m2 pool_pc k r = patched_literal m1 pool_pc k r.
Proof.
  intros H Hin. unfold patched_literal.
  rewrite (agree_load16 m1 m2 refs r H Hin).
  destruct (gum_instruction_is_t1_load (load16 m1 (lit_insn r))) eqn:Ht;
    [reflexivity|].
  replace (load16 m2 (lit_insn r + 2)) with (load16 m1 (lit_insn r + 2));
    [reflexivity|].
  apply load16_agree. intros x Hx. apply (H r x Hin).
  unfold literal_size. rewrite Ht. lia.
Qed.

Lemma agree_on_literals_tail m1 m2 r rest :
  agree_on_literals m1 m2 (r :: rest) -> agree_on_literals m1 m2 rest.
Proof. intros H q x Hq. apply H. right. exact Hq. Qed.

Lemma agree_literals_in_order m1 m2 refs : forall lo hi,
  agree_on_literals m1 m2 refs ->
  literals_in_order m2 lo refs hi = literals_in_order m1 lo refs hi.
Proof.
  induction refs as [|r rest IH]; intros lo hi H; cbn [literals_in_order].
  - reflexivity.
  - rewrite (agree_literal_size m1 m2 (r :: rest) r H) by (left; reflexivity).
    rewrite (IH _ _ (agree_on_literals_tail _ _ _ _ H)). reflexivity.
Qed.

Lemma literals_in_order_bounds m refs : forall lo hi r,
  literals_in_order m lo refs hi = true -> In r refs ->
  lo <= lit_insn r /\ lit_insn r + literal_size m r <= hi
  /\ 0 <= lit_val r < 2 ^ 32.
Proof.
  induction refs as [|q rest IH]; intros lo hi r H Hin; [contradiction|].
  cbn [literals_in_order] in H.
  apply andb_prop in H. destruct H as [H Hrest].
  apply andb_prop in H. destruct H as [H Hv2].
  apply andb_prop in H. destruct H as [Hlo Hv1].
  apply Z.leb_le in Hlo, Hv1. apply Z.ltb_lt in Hv2.
  pose proof (literal_size_range m q).
  destruct Hin as [<-|Hin].
  - apply literals_in_order_le in Hrest. repeat split; lia.
  - destruct (IH _ _ r Hrest Hin) as (? & ? & ?). repeat split; lia.
Qed.

Lemma agree_below m1 m2 refs lo hi :
  literals_in_order m1 lo refs hi = true ->
  (forall x, x < hi -> m1 x = m2 x) ->
  agree_on_literals m1 m2 refs.
Proof.
  intros Hord H r x Hin Hx. apply H.
  destruct (literals_in_order_bounds m1 refs lo hi r Hord Hin) as (_ & ? & _).
  lia.
Qed.

Lemma need_aligned_slots_exists m refs :
  need_aligned_slots m refs =
  existsb (fun r => gum_instruction_is_t1_load (load16 m (lit_insn r))) refs.
Proof.
  unfold need_aligned_slots.
  assert (H : forall need,
    fold_left
      (fun need r =>
         if gum_instruction_is_t1_load (load16 m (lit_insn r))
         then true else need) refs need =
    need
    || existsb (fun r => gum_instruction_is_t1_load (load16 m (lit_insn r)))
         refs).
  { induction refs as [|r rest IH]; intros need; cbn [fold_left existsb].
    - rewrite orb_false_r. reflexivity.
    - rewrite IH.
      destruct (gum_instruction_is_t1_load (load16 m (lit_insn r))), need;
        reflexivity. }
  apply H.
Qed.

(** ** The literal part of flush *)

Lemma patched_literal_pc m pc1 pc2 k r :
  u64 pc1 = u64 pc2 -> patched_literal m pc1 k r = patched_literal m pc2 k r.
Proof.
  intros H. unfold patched_literal.
  rewrite <- (u64_add_l pc1), H, u64_add_l. reflexivity.
Qed.

Lemma flush_literal_refs_flushed w lo :
  literals_in_order (heap w) lo (literal_refs w) (code w) = true ->
  literals_flushed w (flush_literal_refs w).
Proof.
  intros Hord. unfold flush_literal_refs.
  rewrite need_aligned_slots_exists. fold (alignment_nop_due w).
  set (nop := alignment_nop_due w).
  set (w0 := if nop then gum_thumb_writer_put_nop w else w).
  assert (F : code w0 = code w + (if nop then 2 else 0)
              /\ u64 (pc w0) = u64 (pc w + (if nop then 2 else 0))
              /\ halfwords_emitted w0 =
                 halfwords_emitted w + (if nop then 1 else 0)
              /\ bytes_skipped w0 = bytes_skipped w
              /\ target_os w0 = target_os w
              /\ base w0 = base w
              /\ id_to_address w0 = id_to_address w
              /\ label_refs w0 = label_refs w
              /\ literal_refs w0 = literal_refs w
              /\ (forall x, x < code w -> heap w0 x = heap w x)
              /\ (nop = true -> load16 (heap w0) (code w) = 0x46c0)).
  { unfold w0. destruct nop; cbn.
    - repeat split; try reflexivity; try lia.
      + apply u64_idem.
      + intros x Hx. apply store16_outside. lia.
      + intros _. rewrite load16_store16. reflexivity.
    - rewrite !Z.add_0_r. repeat split; try reflexivity. discriminate. }
  destruct F as (Fcode & Fpc & Fem & Fsk & Fos & Fbase & Flab & Flrefs & Flits
                   & Fheap & Fnop).
  assert (Hagree : agree_on_literals (heap w) (heap w0) (literal_refs w)).
  { apply (agree_below _ _ _ lo (code w) Hord).
    intros x Hx. symmetry. apply Fheap, Hx. }
  assert (Hord0 : literals_in_order (heap w0) lo (literal_refs w) (code w)
                  = true).
  { rewrite (agree_literals_in_order (heap w) (heap w0)); assumption. }
  assert (Hhi : code w <= code w0) by (rewrite Fcode; destruct nop; lia).
  destruct (loop_state_fold w0 (literal_refs w) lo [] (w0, code w0) (code w))
    as (lo' & Hst); [ | exact Hord0 | exact Hhi | ].
  { apply loop_state_start. apply literals_in_order_le in Hord0. lia. }
  cbn [app] in Hst.
  destruct (fold_left (flush_literal_ref (code w0)) (literal_refs w)
              (w0, code w0)) as [w2 last].
  destruct Hst as [Hlast Hcode Hpc Hem Hsk Hos Hbase Hlab Hlrefs Hlits Hpool
                     Hlo Hframe Hdone].
  cbn [fst snd] in *. rewrite pool_of_first_occurrences in *.
  assert (Hbounds : forall r, In r (literal_refs w) ->
            patch_address (heap w0) r = patch_address (heap w) r
            /\ patch_address (heap w) r + 2 <= code w).
  { intros r Hr. split; [apply (agree_patch_address _ _ _ _ Hagree Hr)|].
    destruct (literals_in_order_bounds _ _ _ _ r Hord Hr) as (_ & Hb & _).
    unfold patch_address, literal_size in *.
    destruct (gum_instruction_is_t1_load (load16 (heap w) (lit_insn r)));
      lia. }
  constructor; unfold pool_first_slot, pool_pc, pool_values;
    cbn [with_literal_refs code pc halfwords_emitted bytes_skipped
    target_os base id_to_address label_refs literal_refs heap];
    fold nop; try congruence; try lia.
  - rewrite Hpc, <- u64_add_l, Fpc, u64_add_l. reflexivity.
  - intros Hn. rewrite <- (Fnop Hn). apply load16_agree. intros x Hx.
    apply Hframe; [rewrite Fcode, Hn; lia|].
    intros r Hr. destruct (Hbounds r Hr) as [-> Hb]. lia.
  - intros r Hr. destruct (Hdone r Hr) as (_ & _ & Hload).
    destruct (Hbounds r Hr) as [Hpa _]. rewrite Hpa in Hload.
    rewrite Hload, (agree_patched_literal _ _ _ _ _ _ Hagree Hr).
    apply patched_literal_pc, Fpc.
  - intros x Hx Hout. rewrite <- (Fheap x Hx). apply Hframe; [lia|].
    intros r Hr. destruct (Hbounds r Hr) as [-> _]. apply Hout, Hr.
Qed.

(** ** The label loop *)


(** A reference whose id looks up to 0 makes the label loop fail. *)
Lemma flush_label_refs_unresolved labels refs : forall m r,
  In r refs -> lookup_label labels (lref_id r) = 0 ->
  fst (flush_label_refs labels refs m) = false.
Proof.
  induction refs as [|q rest IH]; intros m r Hin Hr; [contradiction|].
  cbn [flush_label_refs].
  destruct (lookup_label labels (lref_id q) =? 0) eqn:Hq; [reflexivity|].
  destruct Hin as [->|Hin]; [rewrite Hr in Hq; discriminate|].
  repeat match goal with
         | |- context [if ?c then _ else _] => destruct c
         end; try reflexivity; eapply IH; eassumption.
Qed.

(** The label loop stores into the halfwords of the references it resolved
    before stopping, and nowhere else. *)
Lemma flush_label_refs_frame labels refs : forall m,
  exists pre post,
    refs = pre ++ post
    /\ (fst (flush_label_refs labels refs m) = true -> post = [])
    /\ (fst (flush_label_refs labels refs m) = false -> post <> [])
    /\ forall x,
         (forall p, In p pre -> x < lref_insn p \/ lref_insn p + 2 <= x) ->
         snd (flush_label_refs labels refs m) x = m x.
Proof.
  induction refs as [|q rest IH]; intros m.
  - exists [], []. cbn. repeat split; auto; discriminate.
  - cbn [flush_label_refs].
    assert (Hstop : exists pre post,
      q :: rest = pre ++ post /\ (fst (false, m) = true -> post = [])
      /\ (fst (false, m) = false -> post <> [])
      /\ forall x,
           (forall p, In p pre -> x < lref_insn p \/ lref_insn p + 2 <= x) ->
           snd (false, m) x = m x).
    { exists [], (q :: rest). cbn. repeat split; auto; discriminate. }
    assert (Hgo : forall h, exists pre post,
      q :: rest = pre ++ post
      /\ (fst (flush_label_refs labels rest (store16 m (lref_insn q) h)) = true
          -> post = [])
      /\ (fst (flush_label_refs labels rest (store16 m (lref_insn q) h)) = false
          -> post <> [])
      /\ forall x,
           (forall p, In p pre -> x < lref_insn p \/ lref_insn p + 2 <= x) ->
           snd (flush_label_refs labels rest (store16 m (lref_insn q) h)) x
           = m x).
    { intros h. destruct (IH (store16 m (lref_insn q) h))
        as (pre & post & E & Hok & Hfail & Hframe).
      exists (q :: pre), post. repeat split; auto.
      - cbn. rewrite E. reflexivity.
      - intros x Hx. rewrite Hframe.
        + apply store16_outside. apply Hx. left. reflexivity.
        + intros p Hp. apply Hx. right. exact Hp. }
    repeat match goal with
           | |- context [if ?c then _ else _] => destruct c
           end; auto.
Qed.

(** ** Flush on a well-formed writer *)

Lemma well_formed_literals w :
  well_formed w = true ->
  literals_in_order (heap w) (base w) (literal_refs w) (code w) = true.
Proof. unfold well_formed. intros H. apply andb_prop in H. tauto. Qed.

Lemma well_formed_apart w p r x :
  well_formed w = true -> In p (label_refs w) -> In r (literal_refs w) ->
  lit_insn r <= x < lit_insn r + literal_size (heap w) r ->
  x < lref_insn p \/ lref_insn p + 2 <= x.
Proof.
  unfold well_formed. intros H Hp Hr Hx.
  apply andb_prop in H. destruct H as [_ H].
  rewrite forallb_forall in H. specialize (H p Hp).
  apply andb_prop in H. destruct H as [_ H].
  rewrite forallb_forall in H. specialize (H r Hr).
  unfold label_ref_apart in H. apply orb_prop in H. lia.
Qed.

(** The label loop leaves the literal loads as they were. *)
Lemma flush_label_refs_agree w :
  well_formed w = true ->
  agree_on_literals (heap w)
    (snd (flush_label_refs (id_to_address w) (label_refs w) (heap w)))
    (literal_refs w).
Proof.
  intros Hwf r x Hr Hx.
  destruct (flush_label_refs_frame (id_to_address w) (label_refs w) (heap w))
    as (pre & post & E & _ & _ & Hframe).
  symmetry. apply Hframe. intros p Hp.
  apply (well_formed_apart w p r x Hwf); [|exact Hr|exact Hx].
  rewrite E. apply in_or_app. left. exact Hp.
Qed.

Lemma existsb_agree (A : Type) (f g : A -> bool) l :
  (forall x, In x l -> f x = g x) -> existsb f l = existsb g l.
Proof.
  induction l as [|x rest IH]; intros H; cbn [existsb]; [reflexivity|].
  rewrite (H x) by (left; reflexivity).
  rewrite IH by (intros y Hy; apply H; right; exact Hy). reflexivity.
Qed.

Lemma agree_alignment_nop_due w m :
  agree_on_literals (heap w) m (literal_refs w) ->
  alignment_nop_due (with_label_refs (with_heap w m) []) = alignment_nop_due w.
Proof.
  intros H. unfold alignment_nop_due.
  cbn [with_label_refs with_heap heap literal_refs pc]. f_equal.
  apply existsb_agree. intros r Hr.
  rewrite (agree_load16 _ _ _ _ H Hr). reflexivity.
Qed.

(** What a successful flush leaves behind when literals were pending. *)
Lemma flush_pool w :
  well_formed w = true ->
  literal_refs w <> [] ->
  fst (gum_thumb_writer_flush w) = true ->
  let w' := snd (gum_thumb_writer_flush w) in
  code w' = pool_first_slot w + 4 * Z.of_nat (length (pool_values w))
  /\ halfwords_emitted w' =
     halfwords_emitted w + (if alignment_nop_due w then 1 else 0)
     + 2 * Z.of_nat (length (pool_values w))
  /\ pool_at (heap w') (pool_first_slot w) (pool_values w)
  /\ (alignment_nop_due w = true -> load16 (heap w') (code w) = 0x46c0)
  /\ forall r,
       In r (literal_refs w) ->
       load16 (heap w') (patch_address (heap w) r) =
       patched_literal (heap w) (pool_pc w)
         (index_of (lit_val r) (pool_values w)) r.
Proof.
  intros Hwf Hne Hok.
  pose proof (flush_label_refs_agree w Hwf) as Hagree.
  unfold gum_thumb_writer_flush in *.
  set (res := if 0 <? Z.of_nat (length (label_refs w))
              then flush_label_refs (id_to_address w) (label_refs w) (heap w)
              else (true, heap w)) in *.
  assert (Hm : agree_on_literals (heap w) (snd res) (literal_refs w)).
  { unfold res. destruct (0 <? Z.of_nat (length (label_refs w)));
      [exact Hagree | intros r x _ _; reflexivity]. }
  clearbody res. destruct res as [ok m]. cbn [snd] in Hm.
  destruct ok; cbn [negb] in *; [|discriminate Hok].
  assert (Hlen : (0 <? Z.of_nat (length (literal_refs w))) = true)
    by (destruct (literal_refs w); [contradiction | reflexivity]).
  change (literal_refs (with_label_refs (with_heap w m) []))
    with (literal_refs w).
  rewrite Hlen. cbn [snd].
  set (w1 := with_label_refs (with_heap w m) []).
  assert (Hw1 : w1 = with_label_refs (with_heap w m) [])
    by reflexivity.
  assert (Hord : literals_in_order (heap w1) (base w) (literal_refs w1)
                   (code w1) = true).
  { cbn. rewrite (agree_literals_in_order (heap w) m) by exact Hm.
    apply well_formed_literals, Hwf. }
  destruct (flush_literal_refs_flushed w1 (base w) Hord)
    as [Hcode _ Hem _ _ _ _ _ _ Hpool Hnop Hpatched _].
  unfold pool_first_slot, pool_pc, pool_values in *.
  rewrite Hw1, (agree_alignment_nop_due w m Hm) in *.
  cbn [with_label_refs with_heap code pc halfwords_emitted literal_refs heap]
    in *.
  repeat split; try assumption.
  intros r Hr. rewrite <- (agree_patch_address _ _ _ _ Hm Hr).
  rewrite (Hpatched r Hr). apply (agree_patched_literal _ _ _ _ _ _ Hm Hr).
Qed.

(** ** Properties kept by every call *)

(** A property kept by the steps every call is made of is kept by every
    call. A label reference comes with the halfword emitted for it, and a
    literal load with its reference. *)
Section Steps.
Variable P : GumThumbWriter -> Prop.

Hypothesis P_instruction : forall w insn,
  P w -> P (gum_thumb_writer_put_instruction w insn).
Hypothesis P_label_reference : forall w id insn,
  P w ->
  P (gum_thumb_writer_put_instruction
       (snd (gum_thumb_writer_add_label_reference_here w id)) insn).
Hypothesis P_ldr_reg_u32 : forall w reg val,
  P w -> P (snd (gum_thumb_writer_put_ldr_reg_u32 w reg val)).
Hypothesis P_label : forall w id,
  P w -> P (snd (gum_thumb_writer_put_label w id)).
Hypothesis P_skip : forall w n, P w -> P (gum_thumb_writer_skip w n).
Hypothesis P_target_os : forall w os,
  P w -> P (gum_thumb_writer_set_target_os w os).
Hypothesis P_flush : forall w, P w -> P (snd (gum_thumb_writer_flush w)).
Hypothesis P_bytes : forall w data,
  P w -> P (snd (gum_thumb_writer_put_bytes w data)).

Ltac step :=
  repeat first
    [ assumption
    | apply P_instruction
    | apply P_ldr_reg_u32
    | match goal with
      | |- P (snd (if ?c then _ else _)) => destruct c
      | |- P (if ?c then _ else _) => destruct c
      | |- P (snd (match ?o with GUM_THUMB_MEMORY_LOAD => _ | _ => _ end)) =>
          destruct o
      | |- P (snd (_, _)) => cbn [snd]
      end ].

Lemma P_label_reference_here w id insn :
  P w ->
  P (snd (let '(ok, self') :=
            gum_thumb_writer_add_label_reference_here w id in
          if negb ok then (false, w)
          else (true, gum_thumb_writer_put_instruction self' insn))).
Proof.
  intros H. specialize (P_label_reference w id insn H).
  destruct (gum_thumb_writer_add_label_reference_here w id) as [ok w'].
  destruct ok; cbn in *; assumption.
Qed.

Lemma P_push_or_pop w n wo sp regs :
  P w -> P (snd (gum_thumb_writer_put_push_or_pop_regs w n wo sp regs)).
Proof.
  intros H. unfold gum_thumb_writer_put_push_or_pop_regs. step.
Qed.

Lemma P_transfer w o l r off :
  P w ->
  P (snd (gum_thumb_writer_put_transfer_reg_reg_offset w o l r off)).
Proof.
  intros H. unfold gum_thumb_writer_put_transfer_reg_reg_offset. step.
Qed.

Lemma P_add_reg_imm w d i :
  P w -> P (snd (gum_thumb_writer_put_add_reg_imm w d i)).
Proof. intros H. unfold gum_thumb_writer_put_add_reg_imm. step. Qed.

Lemma P_add_reg_reg_imm w d l i :
  P w -> P (snd (gum_thumb_writer_put_add_reg_reg_imm w d l i)).
Proof.
  intros H. unfold gum_thumb_writer_put_add_reg_reg_imm.
  destruct (meta (gum_arm_reg_describe l) =? meta (gum_arm_reg_describe d)).
  - apply P_add_reg_imm. assumption.
  - step.
Qed.

Lemma P_argument w i arg : P w -> P (put_argument w i arg).
Proof.
  intros H. unfold put_argument, gum_thumb_writer_put_ldr_reg_address,
    gum_thumb_writer_put_push_regs, gum_thumb_writer_put_mov_reg_reg.
  destruct (i <? 4)%nat, arg; step;
    repeat first [apply P_push_or_pop | apply P_ldr_reg_u32 | assumption].
Qed.

Lemma P_arguments args : forall w, P w -> P (put_arguments_from w args).
Proof.
  induction args as [|a rest IH]; intros w H; cbn [put_arguments_from].
  - assumption.
  - apply IH, P_argument, H.
Qed.

(** A skip is looked at where it is made, so that what it keeps may
    depend on the number of bytes. *)
Lemma perform_keeps_but_skip w op :
  (forall os a, op = OpReset os a ->
                P (gum_thumb_writer_reset os (heap w) a)) ->
  (forall n, op = OpSkip n -> P (gum_thumb_writer_skip w n)) ->
  P w -> P (perform w op).
Proof.
  clear P_skip.
  intros Hreset Hskip H. destruct op; cbn [perform];
    try solve [apply Hreset; reflexivity];
    try solve [apply Hskip; reflexivity];
    unfold gum_thumb_writer_put_call_address_with_arguments_array,
      gum_thumb_writer_put_call_reg_with_arguments_array,
      gum_thumb_writer_put_argument_list_teardown,
      gum_thumb_writer_put_argument_list_setup,
      gum_thumb_writer_put_ldr_reg_address,
      gum_thumb_writer_put_b_imm, gum_thumb_writer_put_bl_imm,
      gum_thumb_writer_put_blx_imm, gum_thumb_writer_put_branch_imm,
      put_branch_distance,
      gum_thumb_writer_put_bx_reg, gum_thumb_writer_put_blx_reg,
      gum_thumb_writer_put_cmp_reg_imm,
      gum_thumb_writer_put_beq_label, gum_thumb_writer_put_bne_label,
      gum_thumb_writer_put_b_label, gum_thumb_writer_put_b_cond_label,
      gum_thumb_writer_put_cbz_reg_label,
      gum_thumb_writer_put_cbnz_reg_label,
      gum_thumb_writer_put_push_regs_array,
      gum_thumb_writer_put_pop_regs_array,
      gum_thumb_writer_put_ldr_reg_reg, gum_thumb_writer_put_str_reg_reg,
      gum_thumb_writer_put_ldr_reg_reg_offset,
      gum_thumb_writer_put_str_reg_reg_offset,
      gum_thumb_writer_put_mov_reg_reg, gum_thumb_writer_put_mov_reg_u8,
      gum_thumb_writer_put_add_reg_reg,
      gum_thumb_writer_put_add_reg_reg_reg,
      gum_thumb_writer_put_sub_reg_imm, gum_thumb_writer_put_sub_reg_reg,
      gum_thumb_writer_put_sub_reg_reg_reg,
      gum_thumb_writer_put_sub_reg_reg_imm,
      gum_thumb_writer_put_nop, gum_thumb_writer_put_bkpt_imm;
    try solve [ auto
              | apply P_label_reference_here; assumption
              | apply P_push_or_pop; assumption
              | apply P_transfer; assumption
              | apply P_add_reg_imm; assumption
              | apply P_add_reg_reg_imm; assumption
              | repeat apply P_instruction; assumption
              | apply P_instruction, P_ldr_reg_u32, P_arguments; assumption
              | apply P_instruction, P_arguments; assumption ].
  unfold gum_thumb_writer_put_breakpoint, gum_thumb_writer_put_bkpt_imm,
    gum_thumb_writer_put_bx_reg.
  destruct (target_os w); repeat apply P_instruction; assumption.
Qed.

Lemma perform_all_keeps_but_skip ops :
  (forall w os a, In (OpReset os a) ops ->
                  P (gum_thumb_writer_reset os (heap w) a)) ->
  (forall w n, In (OpSkip n) ops -> P w -> P (gum_thumb_writer_skip w n)) ->
  forall w, P w -> P (perform_all w ops).
Proof.
  unfold perform_all.
  induction ops as [|op rest IH]; intros Hreset Hskip w H; cbn [fold_left].
  - assumption.
  - apply IH.
    + intros w' os a Hin. apply Hreset. right. exact Hin.
    + intros w' n Hin. apply Hskip. right. exact Hin.
    + apply perform_keeps_but_skip; [| |exact H].
      * intros os a ->. apply Hreset. left. reflexivity.
      * intros n ->. apply Hskip; [left; reflexivity | exact H].
Qed.

Lemma perform_keeps w op :
  (forall os a, op = OpReset os a ->
                P (gum_thumb_writer_reset os (heap w) a)) ->
  P w -> P (perform w op).
Proof.
  intros Hreset H. apply perform_keeps_but_skip; [exact Hreset| |exact H].
  intros n _. apply P_skip, H.
Qed.

Lemma perform_all_keeps ops :
  (forall w os a, In (OpReset os a) ops ->
                  P (gum_thumb_writer_reset os (heap w) a)) ->
  forall w, P w -> P (perform_all w ops).
Proof.
  unfold perform_all.
  induction ops as [|op rest IH]; intros Hreset w H; cbn [fold_left].
  - assumption.
  - apply IH.
    + intros w' os a Hin. apply Hreset. right. exact Hin.
    + apply perform_keeps; [|exact H].
      intros os a ->. apply Hreset. left. reflexivity.
Qed.
End Steps.

(** ** What flush leaves alone *)

Lemma carried_refl w : carried w w.
Proof. unfold carried. repeat split; lia. Qed.

Lemma carried_flush_literal_ref w first_slot st r :
  carried w (fst st) -> carried w (fst (flush_literal_ref first_slot st r)).
Proof.
  destruct st as [w1 last]. cbn [fst]. unfold flush_literal_ref.
  intros (Hb & Ho & Hi & Hl & Hr & Hs & Hc).
  match goal with
  | |- context [find_slot ?m ?a ?v ?n] => set (slot := find_slot m a v n)
  end.
  destruct (slot =? last), (gum_instruction_is_t1_load _);
    unfold carried;
    cbn [fst with_heap advance base target_os id_to_address label_refs
           literal_refs bytes_skipped code];
    repeat split; try assumption; lia.
Qed.

Lemma carried_fold w first_slot refs : forall st,
  carried w (fst st) ->
  carried w (fst (fold_left (flush_literal_ref first_slot) refs st)).
Proof.
  induction refs as [|r rest IH]; intros st H; cbn [fold_left].
  - exact H.
  - apply IH, carried_flush_literal_ref, H.
Qed.

Lemma flush_literal_refs_carried w :
  let w' := flush_literal_refs w in
  base w' = base w /\ target_os w' = target_os w
  /\ id_to_address w' = id_to_address w
  /\ label_refs w' = label_refs w
  /\ literal_refs w' = []
  /\ bytes_skipped w' = bytes_skipped w
  /\ code w <= code w'.
Proof.
  cbv zeta. unfold flush_literal_refs.
  match goal with
  | |- context [if ?c then gum_thumb_writer_put_nop w else w] =>
      set (w0 := if c then gum_thumb_writer_put_nop w else w)
  end.
  assert (H0 : carried w w0).
  { unfold w0. destruct (_ && _); [|apply carried_refl].
    unfold carried, gum_thumb_writer_put_nop,
      gum_thumb_writer_put_instruction.
    cbn [with_heap advance base target_os id_to_address label_refs
           literal_refs bytes_skipped code].
    repeat split; lia. }
  pose proof (carried_fold w (code w0) (literal_refs w) (w0, code w0) H0)
    as H.
  destruct (fold_left _ _ _) as [w2 last]. cbn [fst] in H.
  destruct H as (Hb & Ho & Hi & Hl & Hr & Hs & Hc).
  cbn [with_literal_refs base target_os id_to_address label_refs
         literal_refs bytes_skipped code].
  repeat split; assumption.
Qed.

(** After flush both reference tables are empty, whatever it returns. *)
Lemma flush_carried w :
  let w' := snd (gum_thumb_writer_flush w) in
  base w' = base w /\ target_os w' = target_os w
  /\ id_to_address w' = id_to_address w
  /\ label_refs w' = []
  /\ literal_refs w' = []
  /\ bytes_skipped w' = bytes_skipped w
  /\ code w <= code w'.
Proof.
  cbv zeta. unfold gum_thumb_writer_flush.
  match goal with
  | |- context [let '(_, _) := ?p in _] => destruct p as [ok m]
  end.
  destruct ok; cbn [negb].
  - set (w1 := with_label_refs (with_heap w m) []).
    destruct (Z.ltb_spec 0 (Z.of_nat (length (literal_refs w1))))
      as [Hlt|Hge]; cbn [snd]; unfold w1 in *; clear w1.
    + destruct (flush_literal_refs_carried (with_label_refs (with_heap w m) []))
        as (Hb & Ho & Hi & Hl & Hr & Hs & Hc).
      cbn [with_label_refs with_heap base target_os id_to_address
             label_refs literal_refs bytes_skipped code] in *.
      repeat split; assumption.
    + cbn [with_label_refs with_heap base target_os id_to_address
             label_refs literal_refs bytes_skipped code] in *.
      destruct (literal_refs w); cbn [length] in Hge; [|lia].
      repeat split; try reflexivity; lia.
  - cbn [with_literal_refs with_label_refs with_heap base target_os
           id_to_address label_refs literal_refs bytes_skipped code].
    repeat split; try reflexivity; lia.
Qed.

(** ** Every writer reached by calls is well-formed *)

Lemma literals_in_order_hi m refs : forall lo hi hi',
  literals_in_order m lo refs hi = true -> hi <= hi' ->
  literals_in_order m lo refs hi' = true.
Proof.
  induction refs as [|r rest IH]; intros lo hi hi' H Hle;
    cbn [literals_in_order] in *.
  - lia.
  - apply andb_prop in H. destruct H as [H Hrest].
    rewrite H. cbn [andb]. apply (IH _ hi); assumption.
Qed.

Lemma literals_in_order_app m refs : forall lo mid more hi,
  literals_in_order m lo refs mid = true ->
  literals_in_order m mid more hi = true ->
  literals_in_order m lo (refs ++ more) hi = true.
Proof.
  induction refs as [|r rest IH]; intros lo mid more hi H Hmore;
    cbn [literals_in_order app] in *.
  - destruct more as [|q more]; cbn [literals_in_order] in *; [lia|].
    apply andb_prop in Hmore. destruct Hmore as [Hq Hmore].
    apply andb_prop in Hq. destruct Hq as [Hq Hv2].
    apply andb_prop in Hq. destruct Hq as [Hq Hv1].
    rewrite Hmore, Hv1, Hv2.
    replace (lo <=? lit_insn q) with true by lia. reflexivity.
  - apply andb_prop in H. destruct H as [H Hrest].
    rewrite H. cbn [andb]. apply (IH _ mid); assumption.
Qed.

Lemma well_formed_intro w :
  literals_in_order (heap w) (base w) (literal_refs w) (code w) = true ->
  (forall p, In p (label_refs w) ->
     lref_insn p + 2 <= code w
     /\ forall r, In r (literal_refs w) ->
          lref_insn p + 2 <= lit_insn r
          \/ lit_insn r + literal_size (heap w) r <= lref_insn p) ->
  well_formed w = true.
Proof.
  intros Hord Hlab. unfold well_formed. rewrite Hord. cbn [andb].
  apply forallb_forall. intros p Hp. destruct (Hlab p Hp) as [Hc Hap].
  apply andb_true_intro. split; [lia|].
  apply forallb_forall. intros r Hr. unfold label_ref_apart.
  apply orb_true_intro. destruct (Hap r Hr); [left | right]; lia.
Qed.

Lemma well_formed_elim w :
  well_formed w = true ->
  literals_in_order (heap w) (base w) (literal_refs w) (code w) = true
  /\ forall p, In p (label_refs w) ->
       lref_insn p + 2 <= code w
       /\ forall r, In r (literal_refs w) ->
            lref_insn p + 2 <= lit_insn r
            \/ lit_insn r + literal_size (heap w) r <= lref_insn p.
Proof.
  unfold well_formed. intros H. apply andb_prop in H. destruct H as [Hord H].
  split; [exact Hord|]. intros p Hp.
  rewrite forallb_forall in H. specialize (H p Hp).
  apply andb_prop in H. destruct H as [Hc H]. split; [lia|].
  intros r Hr. rewrite forallb_forall in H. specialize (H r Hr).
  unfold label_ref_apart in H. apply orb_prop in H. lia.
Qed.

(** The cursor moved on and the heap changed from the old cursor on
    only. *)
Lemma well_formed_extend w w' :
  well_formed w = true ->
  base w' = base w -> code w <= code w' ->
  label_refs w' = label_refs w -> literal_refs w' = literal_refs w ->
  (forall x, x < code w -> heap w' x = heap w x) ->
  well_formed w' = true.
Proof.
  intros Hwf Hb Hc Hl Hr Hheap.
  apply well_formed_elim in Hwf. destruct Hwf as [Hord Hlab].
  assert (Hagree : agree_on_literals (heap w) (heap w') (literal_refs w)).
  { apply (agree_below _ _ _ (base w) (code w) Hord).
    intros x Hx. symmetry. apply Hheap, Hx. }
  apply well_formed_intro.
  - rewrite Hb, Hr, (agree_literals_in_order (heap w) (heap w'))
      by exact Hagree.
    apply (literals_in_order_hi _ _ _ (code w)); assumption.
  - rewrite Hl, Hr. intros p Hp. destruct (Hlab p Hp) as [Hpc Hap].
    split; [lia|]. intros r Hin.
    rewrite (agree_literal_size _ _ _ _ Hagree Hin). apply Hap, Hin.
Qed.

Lemma well_formed_instruction w insn :
  well_formed w = true ->
  well_formed (gum_thumb_writer_put_instruction w insn) = true.
Proof.
  intros H. apply (well_formed_extend w); auto.
  - cbn. lia.
  - intros x Hx. cbn. apply store16_outside. lia.
Qed.

Lemma well_formed_label_reference w id insn :
  well_formed w = true ->
  well_formed
    (gum_thumb_writer_put_instruction
       (snd (gum_thumb_writer_add_label_reference_here w id)) insn) = true.
Proof.
  intros H. unfold gum_thumb_writer_add_label_reference_here.
  destruct (_ =? _); cbn [snd]; [apply well_formed_instruction, H|].
  pose proof (well_formed_instruction w insn H) as H1.
  apply well_formed_elim in H1. destruct H1 as [Hord Hlab].
  apply well_formed_intro; [exact Hord|].
  cbn [gum_thumb_writer_put_instruction advance with_heap with_label_refs
         label_refs literal_refs code heap] in *.
  intros p Hp. apply in_app_or in Hp. destruct Hp as [Hp|[<-|[]]].
  - apply Hlab, Hp.
  - cbn [lref_insn]. split; [lia|]. intros r Hr. right.
    destruct (literals_in_order_bounds _ _ _ _ r Hord Hr) as (_ & Hb & _).
    apply well_formed_elim in H. destruct H as [Hord0 _].
    assert (Hagree : agree_on_literals (heap w)
                       (store16 (heap w) (code w) (u16 insn))
                       (literal_refs w)).
    { apply (agree_below _ _ _ (base w) (code w) Hord0).
      intros x Hx. symmetry. apply store16_outside. lia. }
    rewrite (agree_literal_size _ _ _ _ Hagree Hr).
    destruct (literals_in_order_bounds _ _ _ _ r Hord0 Hr) as (_ & Hb0 & _).
    exact Hb0.
Qed.

Lemma t1_load_opcode reg :
  (meta (gum_arm_reg_describe reg) <=? GUM_ARM_MREG_R7) = true ->
  gum_instruction_is_t1_load
    (u16 (u16 (0x4800 .| (index (gum_arm_reg_describe reg) << 8)))) = true.
Proof. destruct reg; intros H; try discriminate H; reflexivity. Qed.

Lemma well_formed_ldr_reg_u32 w reg val :
  well_formed w = true ->
  well_formed (snd (gum_thumb_writer_put_ldr_reg_u32 w reg val)) = true.
Proof.
  intros H. unfold gum_thumb_writer_put_ldr_reg_u32,
    gum_thumb_writer_add_literal_reference_here.
  destruct (_ =? _); cbn [negb snd]; [exact H|].
  set (r := mkLiteralRef (u32 val) (code w) (u64 (pc w + 4))).
  apply well_formed_elim in H. destruct H as [Hord Hlab].
  pose proof (u32_range val) as Hval.
  (* the heap changes from the cursor on, where the new load is put *)
  assert (Hgen : forall w',
    base w' = base w -> label_refs w' = label_refs w ->
    literal_refs w' = literal_refs w ++ [r] ->
    (forall x, x < code w -> heap w' x = heap w x) ->
    code w' = code w + literal_size (heap w') r ->
    well_formed w' = true).
  { intros w' Hb Hl Hr Hheap Hc.
    pose proof (literal_size_range (heap w') r) as Hsz.
    assert (Hagree : agree_on_literals (heap w) (heap w') (literal_refs w)).
    { apply (agree_below _ _ _ (base w) (code w) Hord).
      intros x Hx. symmetry. apply Hheap, Hx. }
    apply well_formed_intro.
    - rewrite Hb, Hr. apply (literals_in_order_app _ _ _ (code w)).
      + rewrite (agree_literals_in_order (heap w) (heap w')) by exact Hagree.
        exact Hord.
      + cbn [literals_in_order lit_insn lit_val r].
        repeat (apply andb_true_intro; split); lia.
    - rewrite Hl, Hr. intros p Hp. destruct (Hlab p Hp) as [Hpc Hap].
      split; [lia|]. intros q Hq. apply in_app_or in Hq.
      destruct Hq as [Hq|[<-|[]]].
      + rewrite (agree_literal_size _ _ _ _ Hagree Hq). apply Hap, Hq.
      + left. cbn [lit_insn r]. lia. }
  destruct (meta (gum_arm_reg_describe reg) <=? GUM_ARM_MREG_R7) eqn:Hlow;
    cbn [snd]; apply Hgen; try reflexivity.
  - intros x Hx. cbn. apply store16_outside. lia.
  - unfold literal_size.
    cbn [gum_thumb_writer_put_instruction advance with_heap
           with_literal_refs heap code lit_insn r].
    rewrite load16_store16, (t1_load_opcode reg Hlow). lia.
  - intros x Hx. cbn. rewrite !store16_outside by lia. reflexivity.
  - unfold literal_size.
    cbn [gum_thumb_writer_put_instruction advance with_heap
           with_literal_refs heap code lit_insn r].
    rewrite load16_store16_other, load16_store16 by lia.
    cbn. lia.
Qed.

Lemma well_formed_skip w n :
  well_formed w = true -> well_formed (gum_thumb_writer_skip w n) = true.
Proof.
  intros H. apply (well_formed_extend w); auto.
  cbn [gum_thumb_writer_skip code]. pose proof (u32_range n). lia.
Qed.

Lemma well_formed_bytes w data :
  well_formed w = true ->
  well_formed (snd (gum_thumb_writer_put_bytes w data)) = true.
Proof.
  intros H. unfold gum_thumb_writer_put_bytes.
  destruct (negb _); cbn [snd]; [exact H|].
  apply (well_formed_extend w); auto.
  - cbn [advance with_heap code].
    assert (0 <= Z.of_nat (length data) / 2) by (apply Z.div_pos; lia). lia.
  - intros x Hx. cbn [advance with_heap heap]. apply store_bytes_outside. lia.
Qed.

Lemma well_formed_no_refs w :
  label_refs w = [] -> literal_refs w = [] -> base w <= code w ->
  well_formed w = true.
Proof.
  intros Hl Hr Hc. unfold well_formed. rewrite Hl, Hr.
  cbn [literals_in_order forallb andb]. lia.
Qed.

Lemma well_formed_base_le_code w : well_formed w = true -> base w <= code w.
Proof.
  intros H. apply well_formed_elim in H. destruct H as [H _].
  apply literals_in_order_le in H. exact H.
Qed.

Lemma well_formed_flush w :
  well_formed w = true ->
  well_formed (snd (gum_thumb_writer_flush w)) = true.
Proof.
  intros H. pose proof (well_formed_base_le_code w H) as Hle.
  destruct (flush_carried w) as (Hb & _ & _ & Hl & Hr & _ & Hc).
  apply well_formed_no_refs; [exact Hl | exact Hr | lia].
Qed.

Lemma well_formed_reset os m a :
  well_formed (gum_thumb_writer_reset os m a) = true.
Proof. apply well_formed_no_refs; cbn; try reflexivity; lia. Qed.

Lemma well_formed_perform_all ops w :
  well_formed w = true -> well_formed (perform_all w ops) = true.
Proof.
  apply (perform_all_keeps (fun w => well_formed w = true)).
  - apply well_formed_instruction.
  - apply well_formed_label_reference.
  - apply well_formed_ldr_reg_u32.
  - intros w' id H. unfold gum_thumb_writer_put_label,
      gum_thumb_writer_add_address_for_label_id.
    destruct (negb _); cbn [snd]; [exact H|].
    destruct (_ =? _); cbn [snd]; exact H.
  - apply well_formed_skip.
  - intros w' os H. exact H.
  - apply well_formed_flush.
  - apply well_formed_bytes.
  - intros w' os a _. apply well_formed_reset.
Qed.

(** Every writer reached from a reset by calls is well-formed. *)
Lemma reached_well_formed (native_os : GumOS) (m : memory) (address : Z)
    (ops : list operation) :
  well_formed
    (perform_all (gum_thumb_writer_reset native_os m address) ops) = true.
Proof. apply well_formed_perform_all, well_formed_reset. Qed.

(** ** Cursor and pc *)

Lemma in_lockstep_advance w n d :
  in_lockstep w -> d = 2 * n -> in_lockstep (advance w n d).
Proof.
  intros [Hc Hp] ->. unfold in_lockstep.
  cbn [advance code base halfwords_emitted bytes_skipped pc].
  split; [lia|]. rewrite Hp, u64_add_l. reflexivity.
Qed.

Lemma in_lockstep_fields w w' :
  in_lockstep w ->
  base w' = base w -> code w' = code w -> pc w' = pc w ->
  halfwords_emitted w' = halfwords_emitted w ->
  bytes_skipped w' = bytes_skipped w ->
  in_lockstep w'.
Proof. unfold in_lockstep. intros [Hc Hp] -> -> -> -> ->. tauto. Qed.

Lemma in_lockstep_instruction w insn :
  in_lockstep w -> in_lockstep (gum_thumb_writer_put_instruction w insn).
Proof.
  intros H. apply in_lockstep_advance; [|reflexivity].
  apply (in_lockstep_fields w); auto.
Qed.

Lemma in_lockstep_flush_literal_ref first_slot st r :
  in_lockstep (fst st) ->
  in_lockstep (fst (flush_literal_ref first_slot st r)).
Proof.
  destruct st as [w last]. cbn [fst]. intros H. unfold flush_literal_ref.
  match goal with
  | |- context [find_slot ?m ?a ?v ?n] => set (slot := find_slot m a v n)
  end.
  assert (H1 : in_lockstep
            (fst (if slot =? last
                  then (advance
                          (with_heap w (store32 (heap w) slot (lit_val r)))
                          2 4, last + 4)
                  else (w, last)))).
  { destruct (slot =? last); cbn [fst]; [|exact H].
    apply in_lockstep_advance; [|reflexivity].
    apply (in_lockstep_fields w); auto. }
  match goal with
  | |- context [let '(_, _) := ?p in _] => destruct p as [w1 last1]
  end.
  cbn [fst] in H1.
  destruct (gum_instruction_is_t1_load _); cbn [fst];
    apply (in_lockstep_fields w1); auto.
Qed.

Lemma in_lockstep_flush_literal_refs w :
  in_lockstep w -> in_lockstep (flush_literal_refs w).
Proof.
  intros H. unfold flush_literal_refs.
  match goal with
  | |- context [if ?c then gum_thumb_writer_put_nop w else w] =>
      set (w0 := if c then gum_thumb_writer_put_nop w else w)
  end.
  assert (H0 : in_lockstep w0).
  { unfold w0. destruct (_ && _); [|exact H].
    apply in_lockstep_instruction, H. }
  clearbody w0. generalize (code w0) at 1 as first_slot. intros first_slot.
  assert (Hfold : forall refs st,
    in_lockstep (fst st) ->
    in_lockstep (fst (fold_left (flush_literal_ref first_slot) refs st))).
  { induction refs as [|r rest IH]; intros st Hst; cbn [fold_left].
    - exact Hst.
    - apply IH, in_lockstep_flush_literal_ref, Hst. }
  specialize (Hfold (literal_refs w) (w0, code w0) H0).
  destruct (fold_left _ _ _) as [w2 last]. cbn [fst] in Hfold.
  apply (in_lockstep_fields w2); auto.
Qed.

Lemma in_lockstep_flush w :
  in_lockstep w -> in_lockstep (snd (gum_thumb_writer_flush w)).
Proof.
  intros H. unfold gum_thumb_writer_flush.
  match goal with
  | |- context [let '(_, _) := ?p in _] => destruct p as [ok m]
  end.
  destruct ok; cbn [negb].
  - assert (H1 : in_lockstep (with_label_refs (with_heap w m) []))
      by (apply (in_lockstep_fields w); auto).
    destruct (0 <? _); cbn [snd]; [|exact H1].
    apply in_lockstep_flush_literal_refs, H1.
  - cbn [snd]. apply (in_lockstep_fields w); auto.
Qed.

Lemma in_lockstep_reset os m a :
  in_lockstep (gum_thumb_writer_reset os m a).
Proof.
  unfold in_lockstep, gum_thumb_writer_reset.
  cbn [code base halfwords_emitted bytes_skipped pc].
  split; [lia | reflexivity].
Qed.

Lemma in_lockstep_perform_all ops w :
  in_lockstep w -> in_lockstep (perform_all w ops).
Proof.
  apply perform_all_keeps.
  - apply in_lockstep_instruction.
  - intros w' id insn H. apply in_lockstep_instruction.
    unfold gum_thumb_writer_add_label_reference_here.
    destruct (_ =? _); cbn [snd]; [exact H|].
    apply (in_lockstep_fields w'); auto.
  - intros w' reg val H. unfold gum_thumb_writer_put_ldr_reg_u32,
      gum_thumb_writer_add_literal_reference_here.
    destruct (_ =? _); cbn [negb snd]; [exact H|].
    assert (H1 : in_lockstep
              (with_literal_refs w'
                 (literal_refs w'
                    ++ [mkLiteralRef (u32 val) (code w') (u64 (pc w' + 4))])))
      by (apply (in_lockstep_fields w'); auto).
    destruct (_ <=? _); cbn [snd];
      repeat apply in_lockstep_instruction; exact H1.
  - intros w' id H. unfold gum_thumb_writer_put_label,
      gum_thumb_writer_add_address_for_label_id.
    destruct (negb _); cbn [snd]; [exact H|].
    destruct (_ =? _); cbn [snd]; [exact H|].
    apply (in_lockstep_fields w'); auto.
  - intros w' n [Hc Hp]. unfold in_lockstep, gum_thumb_writer_skip.
    cbn [code base halfwords_emitted bytes_skipped pc]. split; [lia|].
    rewrite Hp, u64_add_l. reflexivity.
  - intros w' os H. apply (in_lockstep_fields w'); auto.
  - apply in_lockstep_flush.
  - intros w' data H. unfold gum_thumb_writer_put_bytes.
    destruct (Z.eqb_spec (Z.of_nat (length data) mod 2) 0) as [E|N];
      cbn [negb snd]; [|exact H].
    apply in_lockstep_advance; [apply (in_lockstep_fields w'); auto|].
    rewrite (Z.div_mod (Z.of_nat (length data)) 2) at 1 by lia. lia.
  - intros w' os a _. apply in_lockstep_reset.
Qed.

(** Without a further reset the base stays the address of the reset. *)
Lemma base_kept_without_reset ops w :
  forallb (fun op => negb (is_reset op)) ops = true ->
  base (perform_all w ops) = base w.
Proof.
  intros Hops.
  apply (perform_all_keeps (fun w' => base w' = base w)); try reflexivity.
  - intros w' insn H. exact H.
  - intros w' id insn H. rewrite <- H.
    unfold gum_thumb_writer_add_label_reference_here.
    destruct (_ =? _); reflexivity.
  - intros w' reg val H. rewrite <- H.
    unfold gum_thumb_writer_put_ldr_reg_u32,
      gum_thumb_writer_add_literal_reference_here.
    destruct (_ =? _); cbn [negb snd]; [reflexivity|].
    destruct (_ <=? _); reflexivity.
  - intros w' id H. rewrite <- H.
    unfold gum_thumb_writer_put_label,
      gum_thumb_writer_add_address_for_label_id.
    destruct (negb _); cbn [snd]; [reflexivity|].
    destruct (_ =? _); reflexivity.
  - intros w' n H. exact H.
  - intros w' os H. exact H.
  - intros w' H. rewrite <- H. apply (flush_carried w').
  - intros w' data H. rewrite <- H.
    unfold gum_thumb_writer_put_bytes. destruct (negb _); reflexivity.
  - intros w' os a Hin. rewrite forallb_forall in Hops.
    specialize (Hops _ Hin). discriminate Hops.
Qed.

Lemma even_skips_bytes_skipped ops w :
  even_skips ops = true ->
  Z.even (bytes_skipped w) = true ->
  Z.even (bytes_skipped (perform_all w ops)) = true.
Proof.
  intros Hops.
  apply (perform_all_keeps_but_skip
           (fun w' => Z.even (bytes_skipped w') = true)).
  - intros w' insn H. exact H.
  - intros w' id insn H. rewrite <- H.
    unfold gum_thumb_writer_add_label_reference_here.
    destruct (_ =? _); reflexivity.
  - intros w' reg val H. rewrite <- H.
    unfold gum_thumb_writer_put_ldr_reg_u32,
      gum_thumb_writer_add_literal_reference_here.
    destruct (_ =? _); cbn [negb snd]; [reflexivity|].
    destruct (_ <=? _); reflexivity.
  - intros w' id H. rewrite <- H.
    unfold gum_thumb_writer_put_label,
      gum_thumb_writer_add_address_for_label_id.
    destruct (negb _); cbn [snd]; [reflexivity|].
    destruct (_ =? _); reflexivity.
  - intros w' os H. exact H.
  - intros w' H. rewrite <- H. f_equal. apply (flush_carried w').
  - intros w' data H. rewrite <- H.
    unfold gum_thumb_writer_put_bytes. destruct (negb _); reflexivity.
  - intros w' os a _. reflexivity.
  - intros w' n Hin H. unfold even_skips in Hops.
    rewrite forallb_forall in Hops. specialize (Hops _ Hin).
    cbn [gum_thumb_writer_skip bytes_skipped].
    rewrite Z.even_add, H, Hops. reflexivity.
Qed.

(** As long as every skip is of an even number of bytes, the cursor is a
    whole number of halfwords away from the base. *)
Lemma even_skips_even_distance native_os m address ops :
  even_skips ops = true ->
  let w := perform_all (gum_thumb_writer_reset native_os m address) ops in
  base w <= code w /\ (code w - base w) mod 2 = 0.
Proof.
  intros Hops. cbv zeta.
  set (w := perform_all (gum_thumb_writer_reset native_os m address) ops).
  assert (Hle : base w <= code w)
    by apply well_formed_base_le_code, reached_well_formed.
  split; [exact Hle|].
  assert (Hlock : in_lockstep w)
    by apply in_lockstep_perform_all, in_lockstep_reset.
  destruct Hlock as [Hcode _].
  assert (Hs : Z.even (bytes_skipped w) = true).
  { apply even_skips_bytes_skipped; [exact Hops | reflexivity]. }
  replace (code w - base w)
    with (bytes_skipped w + halfwords_emitted w * 2) by lia.
  rewrite Z.mod_add by lia.
  apply Zeven_bool_iff, Zeven_ex_iff in Hs. destruct Hs as [k Hk].
  rewrite Hk, Z.mul_comm. apply Z.mod_mul. lia.
Qed.

(** C9, as amended: after a reset and any sequence of calls the cursor is
    not below the base, the pc is the address of the cursor in 64 bits,
    and so the pc is as far from the base as the cursor is; the base is
    the address of the reset when there was no further one. The cursor is
    a whole number of halfwords away from the base as long as every skip
    was of an even number of bytes. From there, an emitted halfword is
    stored at the cursor and moves cursor and pc on by two bytes, a skip
    moves both by its number of bytes, and so does a copy of an even
    number of bytes. *)
Theorem cursor_and_pc_in_lockstep (native_os : GumOS) (m : memory)
    (address : Z) (ops : list operation) :
  let w := perform_all (gum_thumb_writer_reset native_os m address) ops in
  base w <= code w
  /\ pc w = u64 (code w)
  /\ u64 (pc w - u64 (base w)) = u64 (code w - base w)
  /\ (forallb (fun op => negb (is_reset op)) ops = true -> base w = address)
  /\ (even_skips ops = true ->
      exists n, 0 <= n /\ code w = base w + 2 * n)
  /\ (forall insn,
        let w' := gum_thumb_writer_put_instruction w insn in
        load16 (heap w') (code w) = u16 insn
        /\ code w' = code w + 2
        /\ pc w' = u64 (pc w + 2))
  /\ (forall n,
        let w' := gum_thumb_writer_skip w n in
        code w' = code w + u32 n /\ pc w' = u64 (pc w + u32 n))
  /\ (forall data,
        Z.even (Z.of_nat (length data)) = true ->
        let w' := snd (gum_thumb_writer_put_bytes w data) in
        code w' = code w + Z.of_nat (length data)
        /\ pc w' = u64 (pc w + Z.of_nat (length data))).
Proof.
  cbv zeta.
  set (w := perform_all (gum_thumb_writer_reset native_os m address) ops).
  destruct (in_lockstep_perform_all ops
              (gum_thumb_writer_reset native_os m address)
              (in_lockstep_reset native_os m address)) as [_ Hp].
  fold w in Hp.
  split; [apply well_formed_base_le_code, reached_well_formed|].
  split; [exact Hp|].
  split; [rewrite Hp; unfold u64; rewrite <- Zminus_mod; reflexivity|].
  split.
  { intros Hops.
    exact (base_kept_without_reset ops
             (gum_thumb_writer_reset native_os m address) Hops). }
  split.
  { intros Hops.
    destruct (even_skips_even_distance native_os m address ops Hops)
      as [Hle Hmod]. fold w in Hle, Hmod.
    exists ((code w - base w) / 2). split; [apply Z.div_pos; lia|].
    pose proof (Z.div_mod (code w - base w) 2). lia. }
  split.
  { intros insn.
    destruct (put_instruction_effect w insn) as (Hh & Hc & Hpc & _).
    repeat split; assumption. }
  split; [intros n; split; reflexivity|].
  intros data Hlen. unfold gum_thumb_writer_put_bytes.
  apply Zeven_bool_iff, Zeven_ex_iff in Hlen. destruct Hlen as [k Hk].
  rewrite Hk.
  replace (2 * k mod 2 =? 0) with true
    by (symmetry; apply Z.eqb_eq; rewrite Z.mul_comm; apply Z.mod_mul; lia).
  cbn [negb snd advance code pc with_heap].
  replace (2 * k / 2) with k by (rewrite Z.mul_comm, Z.div_mul; lia).
  split; reflexivity.
Qed.

Lemma cursor_and_pc_in_lockstep_witness :
  even_skips nop_and_even_skip_ops = true
  /\ exists n,
       0 <= n
       /\ code (perform_all writer_at_0x1000 nop_and_even_skip_ops)
          = base (perform_all writer_at_0x1000 nop_and_even_skip_ops) + 2 * n.
Proof.
  assert (H : even_skips nop_and_even_skip_ops = true) by reflexivity.
  split; [exact H|].
  pose proof (cursor_and_pc_in_lockstep GUM_OS_LINUX zero_heap 0x1000
                nop_and_even_skip_ops) as T.
  cbv zeta in T. destruct T as (_ & _ & _ & _ & T & _).
  exact (T H).
Defined.

(** C9 as stated fails: after a nop and a skip of three bytes the cursor
    is five bytes past the base, which is no whole number of halfwords,
    whatever is counted. *)
Lemma odd_skip_cursor_counterexample :
  code nop_and_odd_skip = 0x1005
  /\ base nop_and_odd_skip = 0x1000
  /\ pc nop_and_odd_skip = 0x1005
  /\ forall halfwords : Z,
       code nop_and_odd_skip <> base nop_and_odd_skip + 2 * halfwords.
Proof.
  split; [reflexivity|]. split; [reflexivity|]. split; [reflexivity|].
  intros h. change (code nop_and_odd_skip) with 0x1005.
  change (base nop_and_odd_skip) with 0x1000. lia.
Qed.

(** ** Compare-and-branch fixups *)

(** The range accepted for a compare-and-branch: 0 to 127 halfwords. *)
Lemma cbz_fixup_range labels r m :
  let insn := load16 m (lref_insn r) in
  let target := lookup_label labels (lref_id r) in
  let distance := Z.quot (s32 (s32 target - s32 (lref_pc r))) 2 in
  (insn .& 0xf000 =? 0xd000) = false ->
  (insn .& 0xf800 =? 0xe000) = false ->
  fst (flush_label_refs labels [r] m) =
  negb (target =? 0) && (0 <=? distance) && (distance <=? 127).
Proof.
  cbv zeta. intros H1 H2. cbn [flush_label_refs]. rewrite H1, H2.
  unfold GUM_IS_WITHIN_UINT7_RANGE.
  destruct (lookup_label labels (lref_id r) =? 0); [reflexivity|].
  destruct (0 <=? _), (_ <=? 127); reflexivity.
Qed.

(** C2: a cbz whose label is 128 bytes ahead of its pc is accepted by
    flush, which leaves its offset field at zero, the encoding of a branch
    to the pc itself; at 126 bytes the offset is encoded in full, and a
    label 2 bytes before the pc makes flush fail. *)
Theorem cbz_forward_128_bytes_is_accepted :
  label_refs cbz_over_128_bytes = [mkLabelRef 5 0x1000 0x1004]
  /\ gum_thumb_writer_lookup_address_for_label_id cbz_over_128_bytes 5
     = 0x1004 + 128
  /\ load16 (heap cbz_over_128_bytes) 0x1000 = 0xb100
  /\ fst (gum_thumb_writer_flush cbz_over_128_bytes) = true
  /\ load16 (heap (snd (gum_thumb_writer_flush cbz_over_128_bytes))) 0x1000
     = 0xb100
  /\ gum_thumb_writer_lookup_address_for_label_id (cbz_over_nops 64) 5
     = 0x1004 + 126
  /\ load16 (heap (snd (gum_thumb_writer_flush (cbz_over_nops 64)))) 0x1000
     = 0xb100 .| (1 << 9) .| (31 << 3)
  /\ fst (gum_thumb_writer_flush (cbz_over_nops 0)) = false.
Proof. vm_compute. repeat split; reflexivity. Qed.

(** ** Unresolved labels *)

Lemma flush_unresolved w r :
  In r (label_refs w) ->
  lookup_label (id_to_address w) (lref_id r) = 0 ->
  fst (gum_thumb_writer_flush w) = false.
Proof.
  intros Hin Hr. unfold gum_thumb_writer_flush.
  assert (Hlen : (0 <? Z.of_nat (length (label_refs w))) = true)
    by (destruct (label_refs w); [contradiction | reflexivity]).
  rewrite Hlen.
  pose proof (flush_label_refs_unresolved (id_to_address w) (label_refs w)
                (heap w) r Hin Hr) as Hfail.
  destruct (flush_label_refs _ _ _) as [ok m]. cbn [fst] in Hfail.
  rewrite Hfail. reflexivity.
Qed.



(** ** The literal pool of writers reached by calls *)



(** A flush that fails on a well-formed writer leaves the cursor, the pc
    and the heap from the cursor on as they were. *)
Lemma failed_flush_frame w :
  well_formed w = true ->
  fst (gum_thumb_writer_flush w) = false ->
  let w' := snd (gum_thumb_writer_flush w) in
  code w' = code w /\ pc w' = pc w
  /\ forall x, code w <= x -> heap w' x = heap w x.
Proof.
  intros Hwf. cbv zeta. destruct (well_formed_elim w Hwf) as [_ Hrefs].
  unfold gum_thumb_writer_flush.
  destruct (0 <? Z.of_nat (length (label_refs w))).
  - destruct (flush_label_refs_frame (id_to_address w) (label_refs w)
                (heap w)) as (pre & post & E & _ & _ & Hframe).
    destruct (flush_label_refs _ _ _) as [ok m']. cbn [snd] in Hframe.
    destruct ok; cbn [negb].
    + destruct (0 <? _); cbn [fst]; discriminate.
    + intros _. cbn [snd with_literal_refs with_label_refs with_heap code pc
                       heap].
      repeat split. intros x Hx. apply Hframe. intros p Hp.
      assert (Hin : In p (label_refs w))
        by (rewrite E; apply in_or_app; left; exact Hp).
      destruct (Hrefs p Hin) as [Hc _]. lia.
  - cbn [negb]. destruct (0 <? _); cbn [fst]; discriminate.
Qed.

(** C8, as amended: a flush with literals pending, of a writer reached
    from a reset by calls. When it succeeds and a pending load is a T1
    load while the pc is not 4-byte aligned, one nop is in the heap at the
    place of the cursor and the pool follows it; when it succeeds
    otherwise, the pool starts at the place of the cursor and there is no
    nop; when it fails, which it does on a branch it cannot resolve, the
    cursor, the pc and the heap from the cursor on are as they were:
    neither a nop nor a pool is emitted. *)
Theorem alignment_nop_iff_t1_load_and_unaligned_pc (native_os : GumOS)
    (m : memory) (address : Z) (ops : list operation) :
  let w := perform_all (gum_thumb_writer_reset native_os m address) ops in
  literal_refs w <> [] ->
  let w' := snd (gum_thumb_writer_flush w) in
  let pool := first_occurrences (map lit_val (literal_refs w)) in
  if fst (gum_thumb_writer_flush w) then
    if existsb
         (fun r => gum_instruction_is_t1_load (load16 (heap w) (lit_insn r)))
         (literal_refs w)
       && negb (pc w .& 3 =? 0)
    then
      load16 (heap w') (code w) = 0x46c0
      /\ pool_at (heap w') (code w + 2) pool
      /\ code w' = code w + 2 + 4 * Z.of_nat (length pool)
      /\ halfwords_emitted w' =
         halfwords_emitted w + 1 + 2 * Z.of_nat (length pool)
    else
      pool_at (heap w') (code w) pool
      /\ code w' = code w + 4 * Z.of_nat (length pool)
      /\ halfwords_emitted w' =
         halfwords_emitted w + 2 * Z.of_nat (length pool)
  else
    code w' = code w /\ pc w' = pc w
    /\ forall x, code w <= x -> heap w' x = heap w x.
Proof.
  cbv zeta. intros Hne.
  set (w := perform_all (gum_thumb_writer_reset native_os m address) ops) in *.
  pose proof (reached_well_formed native_os m address ops) as Hwf.
  fold w in Hwf.
  destruct (fst (gum_thumb_writer_flush w)) eqn:Hok.
  - destruct (flush_pool w Hwf Hne Hok) as (Hcode & Hem & Hpool & Hnop & _).
    unfold pool_values, pool_first_slot in *.
    fold (alignment_nop_due w). destruct (alignment_nop_due w).
    + specialize (Hnop eq_refl). repeat split; try assumption; lia.
    + rewrite Z.add_0_r in *. repeat split; try assumption; lia.
  - apply (failed_flush_frame w Hwf Hok).
Qed.

Lemma alignment_nop_iff_t1_load_and_unaligned_pc_witness :
  literal_refs two_loads_and_bx <> []
  /\ load16 (heap (snd (gum_thumb_writer_flush two_loads_and_bx)))
       (code two_loads_and_bx) = 0x46c0.
Proof.
  unfold two_loads_and_bx.
  assert (H1 : literal_refs
                 (perform_all
                    (gum_thumb_writer_reset GUM_OS_LINUX zero_heap 0x1000)
                    two_loads_and_bx_ops) <> [])
    by (vm_compute; discriminate).
  split; [exact H1|].
  pose proof (alignment_nop_iff_t1_load_and_unaligned_pc GUM_OS_LINUX
                zero_heap 0x1000 two_loads_and_bx_ops) as H.
  cbv zeta in H. specialize (H H1).
  match type of H with
  | if ?c then _ else _ =>
      replace c with true in H by (vm_compute; reflexivity)
  end.
  match type of H with
  | if ?c then _ else _ =>
      replace c with true in H by (vm_compute; reflexivity)
  end.
  exact (proj1 H).
Defined.

(** C8 as stated fails: after ldr r0, =1; b L; nop, with [L] defined
    nowhere, the literal table is not empty, a T1 load awaits its pool and
    the pc, 0x1006, is not 4-byte aligned, yet flush fails on the branch
    and emits no nop: the cursor stays and the halfword at its place is
    not 0x46c0. *)
Lemma failed_flush_alignment_nop_counterexample :
  let w := load_and_unresolved_branch in
  let w' := snd (gum_thumb_writer_flush w) in
  literal_refs w <> []
  /\ existsb
       (fun r => gum_instruction_is_t1_load (load16 (heap w) (lit_insn r)))
       (literal_refs w) = true
  /\ pc w = 0x1006
  /\ pc w .& 3 <> 0
  /\ fst (gum_thumb_writer_flush w) = false
  /\ code w' = code w
  /\ load16 (heap w') (code w) <> 0x46c0.
Proof.
  cbv zeta.
  split; [vm_compute; discriminate|].
  split; [vm_compute; reflexivity|].
  split; [vm_compute; reflexivity|].
  split; [vm_compute; discriminate|].
  split; [vm_compute; reflexivity|].
  split; [vm_compute; reflexivity|].
  vm_compute. discriminate.
Qed.

(** ** A label at address 0 *)

Lemma first_label_is_zero_lookup id w :
  first_label_is_zero id w ->
  gum_thumb_writer_lookup_address_for_label_id w id = 0.
Proof.
  intros [more E]. unfold gum_thumb_writer_lookup_address_for_label_id.
  rewrite E. cbn. rewrite Z.eqb_refl. reflexivity.
Qed.

Lemma first_label_is_zero_fields id w w' :
  first_label_is_zero id w -> id_to_address w' = id_to_address w ->
  first_label_is_zero id w'.
Proof. intros [more E] H. exists more. rewrite H. exact E. Qed.

Lemma first_label_is_zero_perform_all id ops w :
  forallb (fun op => negb (is_reset op)) ops = true ->
  first_label_is_zero id w -> first_label_is_zero id (perform_all w ops).
Proof.
  intros Hops. apply perform_all_keeps.
  - intros w' insn H. apply (first_label_is_zero_fields id w'); auto.
  - intros w' i insn H.
    apply (first_label_is_zero_fields id w'); [exact H|].
    unfold gum_thumb_writer_add_label_reference_here.
    destruct (_ =? _); reflexivity.
  - intros w' reg val H.
    apply (first_label_is_zero_fields id w'); [exact H|].
    unfold gum_thumb_writer_put_ldr_reg_u32,
      gum_thumb_writer_add_literal_reference_here.
    destruct (_ =? _); cbn [negb snd]; [reflexivity|].
    destruct (_ <=? _); reflexivity.
  - intros w' i [more E]. unfold gum_thumb_writer_put_label,
      gum_thumb_writer_add_address_for_label_id.
    destruct (negb _); cbn [snd]; [exists more; exact E|].
    destruct (_ =? _); cbn [snd]; [exists more; exact E|].
    exists (more ++ [mkLabelMapping i (pc w')]).
    cbn [with_id_to_address id_to_address]. rewrite E. reflexivity.
  - intros w' n H. apply (first_label_is_zero_fields id w'); auto.
  - intros w' os H. apply (first_label_is_zero_fields id w'); auto.
  - intros w' H. apply (first_label_is_zero_fields id w'); [exact H|].
    apply (flush_carried w').
  - intros w' data H. apply (first_label_is_zero_fields id w'); [exact H|].
    unfold gum_thumb_writer_put_bytes. destruct (negb _); reflexivity.
  - intros w' os a Hin. rewrite forallb_forall in Hops.
    specialize (Hops _ Hin). discriminate Hops.
Qed.

(** C10: on a writer reset at address 0, a label put before anything is
    emitted is recorded at address 0, which is what the lookup returns for
    an id that was never defined. The same id can then be defined again,
    and as long as the writer is not reset, a flush with a reference to
    the id fails. *)
Theorem label_at_address_zero_is_undefined (native_os : GumOS) (m : memory)
    (id : Z) (ops : list operation) :
  forallb (fun op => negb (is_reset op)) ops = true ->
  let w0 := gum_thumb_writer_reset native_os m 0 in
  let w1 := snd (gum_thumb_writer_put_label w0 id) in
  let w := perform_all w1 ops in
  gum_thumb_writer_lookup_address_for_label_id w0 id = 0
  /\ gum_thumb_writer_put_label w0 id =
     (true, with_id_to_address w0 [mkLabelMapping id 0])
  /\ gum_thumb_writer_lookup_address_for_label_id w1 id = 0
  /\ gum_thumb_writer_put_label w1 id =
     (true,
      with_id_to_address w1 [mkLabelMapping id 0; mkLabelMapping id 0])
  /\ gum_thumb_writer_lookup_address_for_label_id w id = 0
  /\ forall r,
       In r (label_refs w) -> lref_id r = id ->
       fst (gum_thumb_writer_flush w) = false.
Proof.
  intros Hops. cbv zeta.
  assert (H1 : gum_thumb_writer_put_label
                 (gum_thumb_writer_reset native_os m 0) id =
               (true,
                with_id_to_address (gum_thumb_writer_reset native_os m 0)
                  [mkLabelMapping id 0])) by reflexivity.
  rewrite H1. cbn [snd].
  assert (Hz : first_label_is_zero id
                 (with_id_to_address (gum_thumb_writer_reset native_os m 0)
                    [mkLabelMapping id 0]))
    by (exists []; reflexivity).
  pose proof (first_label_is_zero_perform_all id ops _ Hops Hz) as Hw.
  repeat split.
  - apply first_label_is_zero_lookup, Hz.
  - unfold gum_thumb_writer_put_label.
    rewrite (first_label_is_zero_lookup _ _ Hz). reflexivity.
  - apply first_label_is_zero_lookup, Hw.
  - intros r Hr Hid. apply (flush_unresolved _ r Hr). rewrite Hid.
    apply (first_label_is_zero_lookup _ _ Hw).
Qed.

Lemma label_at_address_zero_is_undefined_witness :
  forallb (fun op => negb (is_reset op)) label_then_branch_ops = true
  /\ fst (gum_thumb_writer_flush
            (perform_all
               (snd (gum_thumb_writer_put_label
                       (gum_thumb_writer_reset GUM_OS_LINUX zero_heap 0) 7))
               label_then_branch_ops)) = false.
Proof.
  assert (H : forallb (fun op => negb (is_reset op)) label_then_branch_ops
              = true) by reflexivity.
  split; [exact H|].
  pose proof (label_at_address_zero_is_undefined GUM_OS_LINUX zero_heap 7
                label_then_branch_ops H) as T.
  cbv zeta in T. destruct T as (_ & _ & _ & _ & _ & T).
  apply (T (mkLabelRef 7 2 6)); [left; reflexivity | reflexivity].
Defined.

(** * Further properties *)

(** ** The tables *)

Lemma within_capacity_fields w w' :
  within_capacity w ->
  id_to_address w' = id_to_address w -> label_refs w' = label_refs w ->
  literal_refs w' = literal_refs w ->
  within_capacity w'.
Proof. unfold within_capacity. intros H -> -> ->. exact H. Qed.

Lemma within_capacity_perform_all ops w :
  within_capacity w -> within_capacity (perform_all w ops).
Proof.
  apply perform_all_keeps.
  - intros w' insn H. apply (within_capacity_fields w'); auto.
  - intros w' id insn (Hi & Hl & Hr).
    unfold gum_thumb_writer_add_label_reference_here.
    destruct (Z.eqb_spec (Z.of_nat (length (label_refs w')))
                GUM_MAX_LREF_COUNT) as [E|N]; cbn [snd].
    + repeat split; assumption.
    + unfold within_capacity.
      cbn [gum_thumb_writer_put_instruction advance with_heap
             with_label_refs id_to_address label_refs literal_refs].
      rewrite length_app. cbn [length]. repeat split; try assumption. lia.
  - intros w' reg val (Hi & Hl & Hr).
    unfold gum_thumb_writer_put_ldr_reg_u32,
      gum_thumb_writer_add_literal_reference_here.
    destruct (Z.eqb_spec (Z.of_nat (length (literal_refs w')))
                GUM_MAX_LITERAL_REF_COUNT) as [E|N]; cbn [negb snd].
    + repeat split; assumption.
    + destruct (_ <=? _); unfold within_capacity;
        cbn [snd gum_thumb_writer_put_instruction advance with_heap
               with_literal_refs id_to_address label_refs literal_refs];
        rewrite length_app; cbn [length]; repeat split; try assumption; lia.
  - intros w' id (Hi & Hl & Hr).
    unfold gum_thumb_writer_put_label,
      gum_thumb_writer_add_address_for_label_id.
    destruct (negb _); cbn [snd]; [repeat split; assumption|].
    destruct (Z.eqb_spec (Z.of_nat (length (id_to_address w')))
                GUM_MAX_LABEL_COUNT) as [E|N]; cbn [snd].
    + repeat split; assumption.
    + unfold within_capacity.
      cbn [with_id_to_address id_to_address label_refs literal_refs].
      rewrite length_app. cbn [length]. repeat split; try assumption. lia.
  - intros w' n H. apply (within_capacity_fields w'); auto.
  - intros w' os H. apply (within_capacity_fields w'); auto.
  - intros w' (Hi & Hl & Hr).
    destruct (flush_carried w') as (_ & _ & Ei & El & Er & _).
    unfold within_capacity. rewrite Ei, El, Er. cbn [length].
    repeat split; [assumption | |]; vm_compute; discriminate.
  - intros w' data H. unfold gum_thumb_writer_put_bytes.
    destruct (negb _); cbn [snd]; [exact H|].
    apply (within_capacity_fields w'); auto.
  - intros w' os a _. unfold within_capacity, gum_thumb_writer_reset.
    cbn [id_to_address label_refs literal_refs length].
    repeat split; vm_compute; discriminate.
Qed.

Lemma within_capacity_reset os m a :
  within_capacity (gum_thumb_writer_reset os m a).
Proof.
  unfold within_capacity, gum_thumb_writer_reset.
  cbn [id_to_address label_refs literal_refs length].
  repeat split; vm_compute; discriminate.
Qed.

(** X1: whatever calls follow a reset, the label table never holds more
    than 100 entries, the label references never more than 300 and the
    literal references never more than 100. *)
Theorem tables_stay_within_capacity (native_os : GumOS) (m : memory)
    (address : Z) (ops : list operation) :
  let w := perform_all (gum_thumb_writer_reset native_os m address) ops in
  (length (id_to_address w) <= 100)%nat
  /\ (length (label_refs w) <= 300)%nat
  /\ (length (literal_refs w) <= 100)%nat.
Proof.
  cbv zeta.
  destruct (within_capacity_perform_all ops
              (gum_thumb_writer_reset native_os m address))
    as (Hi & Hl & Hr).
  - apply within_capacity_reset.
  - unfold GUM_MAX_LREF_COUNT, GUM_MAX_LABEL_COUNT,
      GUM_MAX_LITERAL_REF_COUNT in *. lia.
Qed.

(** ** Labels *)

Lemma lookup_label_absent labels id :
  Forall (fun map => map_address map <> 0) labels ->
  lookup_label labels id = 0 -> ~ In id (map map_id labels).
Proof.
  induction 1 as [|entry rest Hentry Hrest IH]; cbn [lookup_label map In];
    [tauto|].
  destruct (Z.eqb_spec (map_id entry) id) as [E|N]; [contradiction|].
  intros H [E|Hin]; [contradiction | exact (IH H Hin)].
Qed.

Lemma lookup_label_app_other labels id id' a :
  id' <> id ->
  lookup_label (labels ++ [mkLabelMapping id a]) id' = lookup_label labels id'.
Proof.
  intros N. induction labels as [|entry rest IH];
    cbn [lookup_label app map_id].
  - destruct (Z.eqb_spec id id'); [congruence | reflexivity].
  - destruct (map_id entry =? id'); [reflexivity | exact IH].
Qed.

Lemma lookup_label_app_new labels id a :
  ~ In id (map map_id labels) ->
  lookup_label (labels ++ [mkLabelMapping id a]) id = a.
Proof.
  induction labels as [|entry rest IH];
    cbn [lookup_label app map_id map In map_address]; intros H.
  - rewrite Z.eqb_refl. reflexivity.
  - destruct (Z.eqb_spec (map_id entry) id) as [E|N]; [tauto|].
    apply IH. tauto.
Qed.

(** X2: a label that was put is found at the pc it was put at, the
    other ids are found as before, and putting the same id again is
    refused, unless the pc was 0. *)
Theorem put_label_then_lookup (w : GumThumbWriter) (id : Z) :
  no_label_at_zero w ->
  fst (gum_thumb_writer_put_label w id) = true ->
  let w' := snd (gum_thumb_writer_put_label w id) in
  gum_thumb_writer_lookup_address_for_label_id w' id = pc w
  /\ (forall id', id' <> id ->
        gum_thumb_writer_lookup_address_for_label_id w' id' =
        gum_thumb_writer_lookup_address_for_label_id w id')
  /\ (pc w <> 0 ->
      gum_thumb_writer_put_label w' id = (false, w')).
Proof.
  intros Hz. unfold gum_thumb_writer_put_label,
    gum_thumb_writer_add_address_for_label_id,
    gum_thumb_writer_lookup_address_for_label_id.
  destruct (Z.eqb_spec (lookup_label (id_to_address w) id) 0) as [E|N];
    cbn [negb fst snd]; [|discriminate].
  destruct (_ =? GUM_MAX_LABEL_COUNT); cbn [fst snd]; [discriminate|].
  intros _. cbn [with_id_to_address id_to_address pc].
  pose proof (lookup_label_absent _ _ Hz E) as Habs.
  rewrite (lookup_label_app_new _ _ _ Habs).
  split; [reflexivity|]. split.
  - intros id' Hne. apply lookup_label_app_other, Hne.
  - intros Hpc. destruct (Z.eqb_spec (pc w) 0); [contradiction|]. reflexivity.
Qed.

Lemma put_label_then_lookup_witness :
  no_label_at_zero writer_at_0x1000
  /\ fst (gum_thumb_writer_put_label writer_at_0x1000 7) = true
  /\ gum_thumb_writer_lookup_address_for_label_id
       (snd (gum_thumb_writer_put_label writer_at_0x1000 7)) 7 = 0x1000.
Proof.
  assert (H1 : no_label_at_zero writer_at_0x1000) by constructor.
  assert (H2 : fst (gum_thumb_writer_put_label writer_at_0x1000 7) = true)
    by reflexivity.
  split; [exact H1|]. split; [exact H2|].
  exact (proj1 (put_label_then_lookup writer_at_0x1000 7 H1 H2)).
Defined.

Lemma labels_sound_grow w w' :
  labels_sound w -> in_lockstep w' ->
  base w' = base w -> code w <= code w' ->
  id_to_address w' = id_to_address w ->
  labels_sound w'.
Proof.
  unfold labels_sound, no_label_at_zero.
  intros (_ & Hle & H) Hlock Hb Hc Hi. rewrite Hb, Hi.
  split; [exact Hlock|]. split; [lia|]. intros H0 H1. apply H; lia.
Qed.

Lemma labels_sound_perform_all ops w :
  labels_sound w -> labels_sound (perform_all w ops).
Proof.
  apply perform_all_keeps.
  - intros w' insn H. apply (labels_sound_grow w' _ H); try reflexivity.
    + apply in_lockstep_instruction, H.
    + cbn. lia.
  - intros w' id insn H.
    assert (Hf : forall w1,
              base w1 = base w' -> code w1 = code w' -> pc w1 = pc w' ->
              halfwords_emitted w1 = halfwords_emitted w' ->
              bytes_skipped w1 = bytes_skipped w' ->
              id_to_address w1 = id_to_address w' ->
              labels_sound (gum_thumb_writer_put_instruction w1 insn)).
    { intros w1 Hb Hc Hp Hh Hs Hi.
      apply (labels_sound_grow w' _ H); cbn; try assumption; try lia.
      apply in_lockstep_instruction.
      apply (in_lockstep_fields w'); [apply H|..]; assumption. }
    unfold gum_thumb_writer_add_label_reference_here.
    destruct (_ =? _); cbn [snd]; apply Hf; reflexivity.
  - intros w' reg val H.
    pose proof (in_lockstep_perform_all [OpLdrRegU32 reg val] w' (proj1 H))
      as Hlock.
    cbn [perform_all fold_left perform] in Hlock.
    apply (labels_sound_grow w' _ H Hlock);
      unfold gum_thumb_writer_put_ldr_reg_u32,
        gum_thumb_writer_add_literal_reference_here;
      destruct (_ =? _); cbn [negb snd]; try reflexivity; try lia;
      destruct (_ <=? _); cbn; try reflexivity; lia.
  - intros w' id Hs. pose proof Hs as (Hlock & Hle & H).
    unfold gum_thumb_writer_put_label,
      gum_thumb_writer_add_address_for_label_id,
      gum_thumb_writer_lookup_address_for_label_id.
    destruct (Z.eqb_spec (lookup_label (id_to_address w') id) 0) as [E|N];
      cbn [negb snd]; [|exact Hs].
    destruct (_ =? GUM_MAX_LABEL_COUNT); cbn [snd]; [exact Hs|].
    unfold labels_sound, no_label_at_zero.
    cbn [with_id_to_address id_to_address base code].
    split; [exact Hlock|]. split; [exact Hle|]. intros H0 H1.
    destruct (H H0 H1) as [Hz Hnd].
    assert (Hpc : pc w' <> 0).
    { destruct Hlock as [_ ->]. unfold u64. rewrite Z.mod_small; lia. }
    split.
    + apply Forall_app. split; [exact Hz|]. constructor; [exact Hpc|].
      constructor.
    + rewrite map_app. cbn [map map_id].
      apply NoDup_app; [exact Hnd | repeat constructor; intros [] |].
      intros x Hx [<-|[]]. exact (lookup_label_absent _ _ Hz E Hx).
  - intros w' n H. apply (labels_sound_grow w' _ H); try reflexivity.
    + exact (in_lockstep_perform_all [OpSkip n] w' (proj1 H)).
    + cbn [gum_thumb_writer_skip code]. pose proof (u32_range n). lia.
  - intros w' os H. apply (labels_sound_grow w' _ H); try reflexivity.
    exact (in_lockstep_perform_all [OpSetTargetOs os] w' (proj1 H)).
  - intros w' H. destruct (flush_carried w') as (Hb & _ & Hi & _ & _ & _ & Hc).
    apply (labels_sound_grow w' _ H); try assumption.
    apply in_lockstep_flush, H.
  - intros w' data H.
    pose proof (in_lockstep_perform_all [OpBytes data] w' (proj1 H)) as Hlock.
    cbn [perform_all fold_left perform] in Hlock.
    apply (labels_sound_grow w' _ H Hlock);
      unfold gum_thumb_writer_put_bytes; destruct (negb _); cbn [snd];
      try reflexivity; try lia.
    cbn [advance with_heap code].
    assert (0 <= Z.of_nat (length data) / 2) by (apply Z.div_pos; lia). lia.
  - intros w' os a _. unfold labels_sound. split; [apply in_lockstep_reset|].
    cbn [gum_thumb_writer_reset base code id_to_address]. split; [lia|].
    intros _ _. split; constructor.
Qed.

(** X3: in a writer whose code starts above address 0 and ends below
    2^64, no id is recorded twice in the label table and no label is
    recorded at address 0. *)
Theorem label_ids_are_unique (native_os : GumOS) (m : memory) (address : Z)
    (ops : list operation) :
  let w := perform_all (gum_thumb_writer_reset native_os m address) ops in
  0 < base w -> code w < 2 ^ 64 ->
  NoDup (map map_id (id_to_address w))
  /\ Forall (fun entry => map_address entry <> 0) (id_to_address w).
Proof.
  cbv zeta. intros H0 H1.
  destruct (labels_sound_perform_all ops
              (gum_thumb_writer_reset native_os m address)) as (_ & _ & H).
  - unfold labels_sound. split; [apply in_lockstep_reset|].
    cbn [gum_thumb_writer_reset base code id_to_address]. split; [lia|].
    intros _ _. split; constructor.
  - destruct (H H0 H1) as [Hz Hnd]. split; assumption.
Qed.

Lemma label_ids_are_unique_witness :
  0 < base (perform_all
              (gum_thumb_writer_reset GUM_OS_LINUX zero_heap 0x1000)
              two_labels_ops)
  /\ code (perform_all
             (gum_thumb_writer_reset GUM_OS_LINUX zero_heap 0x1000)
             two_labels_ops) < 2 ^ 64
  /\ NoDup (map map_id
              (id_to_address
                 (perform_all
                    (gum_thumb_writer_reset GUM_OS_LINUX zero_heap 0x1000)
                    two_labels_ops))).
Proof.
  assert (H1 : 0 < base (perform_all
                           (gum_thumb_writer_reset GUM_OS_LINUX zero_heap
                              0x1000) two_labels_ops))
    by (vm_compute; reflexivity).
  assert (H2 : code (perform_all
                       (gum_thumb_writer_reset GUM_OS_LINUX zero_heap 0x1000)
                       two_labels_ops) < 2 ^ 64)
    by (vm_compute; reflexivity).
  split; [exact H1|]. split; [exact H2|].
  pose proof (label_ids_are_unique GUM_OS_LINUX zero_heap 0x1000
                two_labels_ops) as H.
  cbv zeta in H. exact (proj1 (H H1 H2)).
Defined.

(** ** Flush, again *)

Lemma flush_nothing_pending w :
  label_refs w = [] -> literal_refs w = [] ->
  gum_thumb_writer_flush w = (true, w).
Proof.
  destruct w as [os b c p ids lrefs lits m n k]. cbn [label_refs literal_refs].
  intros -> ->. reflexivity.
Qed.

(** X4: whether flush succeeds or fails, it leaves both reference tables
    empty, keeps the base and the label table, does not move the cursor
    back, and a second flush succeeds and changes nothing. *)
Theorem flush_settles_the_writer (w : GumThumbWriter) :
  let w' := snd (gum_thumb_writer_flush w) in
  label_refs w' = [] /\ literal_refs w' = []
  /\ base w' = base w /\ id_to_address w' = id_to_address w
  /\ code w <= code w'
  /\ gum_thumb_writer_flush w' = (true, w').
Proof.
  cbv zeta. destruct (flush_carried w) as (Hb & _ & Hi & Hl & Hr & _ & Hc).
  repeat split; try assumption.
  apply flush_nothing_pending; assumption.
Qed.

(** X5: a failed flush drops the literal loads with the branches: no
    pool is emitted, the cursor and the pc stay, and the heap differs at
    most in the halfwords of the branches awaiting a label. *)
Theorem failed_flush_emits_nothing (w : GumThumbWriter) :
  fst (gum_thumb_writer_flush w) = false ->
  let w' := snd (gum_thumb_writer_flush w) in
  code w' = code w /\ pc w' = pc w
  /\ halfwords_emitted w' = halfwords_emitted w
  /\ literal_refs w' = []
  /\ forall x,
       (forall p, In p (label_refs w) ->
                  x < lref_insn p \/ lref_insn p + 2 <= x) ->
       heap w' x = heap w x.
Proof.
  cbv zeta. unfold gum_thumb_writer_flush.
  destruct (0 <? Z.of_nat (length (label_refs w))).
  - destruct (flush_label_refs_frame (id_to_address w) (label_refs w)
                (heap w)) as (pre & post & Hrefs & _ & _ & Hframe).
    destruct (flush_label_refs _ _ _) as [ok m]. cbn [snd] in Hframe.
    destruct ok; cbn [negb].
    + destruct (0 <? _); cbn [fst]; discriminate.
    + intros _. cbn [snd with_literal_refs with_label_refs with_heap code pc
                       halfwords_emitted literal_refs heap].
      repeat split. intros x Hx. apply Hframe. intros p Hp. apply Hx.
      rewrite Hrefs. apply in_or_app. left. exact Hp.
  - cbn [negb]. destruct (0 <? _); cbn [fst]; discriminate.
Qed.

Lemma failed_flush_emits_nothing_witness :
  fst (gum_thumb_writer_flush b_to_undefined_label) = false
  /\ code (snd (gum_thumb_writer_flush b_to_undefined_label))
     = code b_to_undefined_label.
Proof.
  assert (H : fst (gum_thumb_writer_flush b_to_undefined_label) = false)
    by (vm_compute; reflexivity).
  split; [exact H|].
  exact (proj1 (failed_flush_emits_nothing b_to_undefined_label H)).
Defined.

(** ** Raw bytes *)

Lemma load8_store_bytes data : forall m a k,
  (k < length data)%nat ->
  load8 (store_bytes m a data) (a + Z.of_nat k) = u8 (nth k data 0).
Proof.
  induction data as [|b rest IH]; intros m a k Hk; cbn [length] in Hk;
    [lia|].
  cbn [store_bytes]. destruct k as [|k].
  - cbn [nth]. unfold load8.
    rewrite store_bytes_outside by lia.
    replace (a + Z.of_nat 0) with a by lia.
    rewrite store8_same. apply u8_idem.
  - cbn [nth]. replace (a + Z.of_nat (S k)) with (a + 1 + Z.of_nat k) by lia.
    apply IH. lia.
Qed.

(** X6: an even number of bytes is copied to the cursor as it is: byte [k]
    of the data is read back at [code + k], the cursor and the pc move on
    by the length, nothing else in the heap changes and the tables stay. *)
Theorem put_bytes_copies_the_data (w : GumThumbWriter) (data : list Z) :
  Z.of_nat (length data) mod 2 = 0 ->
  let w' := snd (gum_thumb_writer_put_bytes w data) in
  fst (gum_thumb_writer_put_bytes w data) = true
  /\ code w' = code w + Z.of_nat (length data)
  /\ pc w' = u64 (pc w + Z.of_nat (length data))
  /\ (forall k, (k < length data)%nat ->
                load8 (heap w') (code w + Z.of_nat k) = u8 (nth k data 0))
  /\ (forall x, x < code w \/ code w + Z.of_nat (length data) <= x ->
                heap w' x = heap w x)
  /\ id_to_address w' = id_to_address w
  /\ label_refs w' = label_refs w
  /\ literal_refs w' = literal_refs w.
Proof.
  intros Heven. cbv zeta. unfold gum_thumb_writer_put_bytes.
  rewrite Heven. cbn [Z.eqb negb fst snd].
  cbn [advance with_heap code pc heap id_to_address label_refs
         literal_refs].
  split; [reflexivity|]. split.
  { pose proof (Z.div_mod (Z.of_nat (length data)) 2). lia. }
  split; [reflexivity|]. split; [apply load8_store_bytes|].
  split; [|repeat split]. intros x Hx. apply store_bytes_outside. exact Hx.
Qed.

Lemma put_bytes_copies_the_data_witness :
  Z.of_nat (length [0xc0; 0x46; 0x70; 0x47]) mod 2 = 0
  /\ code (snd (gum_thumb_writer_put_bytes writer_at_0x1000
                  [0xc0; 0x46; 0x70; 0x47])) = 0x1004.
Proof.
  assert (H : Z.of_nat (length [0xc0; 0x46; 0x70; 0x47]) mod 2 = 0)
    by reflexivity.
  split; [exact H|].
  exact (proj1 (proj2 (put_bytes_copies_the_data writer_at_0x1000
                         [0xc0; 0x46; 0x70; 0x47] H))).
Defined.

(** ** All or nothing *)

Lemma label_reference_all_or_nothing (w : GumThumbWriter) (id insn : Z) :
  fst (let '(ok, self') :=
         gum_thumb_writer_add_label_reference_here w id in
       if negb ok then (false, w)
       else (true, gum_thumb_writer_put_instruction self' insn)) = false ->
  snd (let '(ok, self') :=
         gum_thumb_writer_add_label_reference_here w id in
       if negb ok then (false, w)
       else (true, gum_thumb_writer_put_instruction self' insn)) = w.
Proof.
  unfold gum_thumb_writer_add_label_reference_here.
  destruct (_ =? _); cbn [negb fst snd]; [reflexivity | discriminate].
Qed.

Lemma push_or_pop_all_or_nothing narrow wide special regs :
  all_or_nothing
    (fun w => gum_thumb_writer_put_push_or_pop_regs w narrow wide special
                regs).
Proof.
  intros w. unfold gum_thumb_writer_put_push_or_pop_regs.
  destruct (_ =? 0); cbn [fst snd]; [reflexivity|].
  destruct (need_wide_instruction _ _); cbn [fst]; discriminate.
Qed.

Lemma ldr_reg_u32_all_or_nothing reg val :
  all_or_nothing (fun w => gum_thumb_writer_put_ldr_reg_u32 w reg val).
Proof.
  intros w. unfold gum_thumb_writer_put_ldr_reg_u32,
    gum_thumb_writer_add_literal_reference_here.
  destruct (_ =? _); cbn [negb fst snd]; [reflexivity|].
  destruct (_ <=? _); cbn [fst]; discriminate.
Qed.

Lemma transfer_all_or_nothing operation left_reg right_reg right_offset :
  all_or_nothing
    (fun w => gum_thumb_writer_put_transfer_reg_reg_offset w operation
                left_reg right_reg right_offset).
Proof.
  intros w. unfold gum_thumb_writer_put_transfer_reg_reg_offset.
  match goal with
  | |- context [if ?c then (true, _) else _] => destruct c
  end; cbn [fst]; [discriminate|].
  destruct (4095 <? _); cbn [fst snd]; [reflexivity | discriminate].
Qed.

Lemma add_reg_imm_all_or_nothing dst_reg imm_value :
  all_or_nothing (fun w => gum_thumb_writer_put_add_reg_imm w dst_reg
                             imm_value).
Proof.
  intros w. unfold gum_thumb_writer_put_add_reg_imm.
  destruct (_ =? GUM_ARM_MREG_SP); cbn [fst]; [|discriminate].
  destruct (negb _); cbn [fst snd]; [reflexivity | discriminate].
Qed.

Lemma add_reg_reg_imm_all_or_nothing dst_reg left_reg right_value :
  all_or_nothing (fun w => gum_thumb_writer_put_add_reg_reg_imm w dst_reg
                             left_reg right_value).
Proof.
  intros w. unfold gum_thumb_writer_put_add_reg_reg_imm.
  destruct (_ =? meta _); [apply add_reg_imm_all_or_nothing|].
  destruct (_ || _).
  - destruct (_ || _); cbn [fst snd]; [reflexivity | discriminate].
  - destruct (7 <? _); cbn [fst snd]; [reflexivity | discriminate].
Qed.

(** X7: every emitter that can report failure, flush apart, has done
    nothing when it does: the writer it leaves is the writer it was given. *)
Theorem failed_emitters_leave_the_writer (id cc val address offset imm : Z)
    (reg reg' : arm_reg) (regs : list arm_reg) (data : list Z) :
  all_or_nothing (fun w => gum_thumb_writer_put_label w id)
  /\ all_or_nothing (fun w => gum_thumb_writer_put_b_label w id)
  /\ all_or_nothing (fun w => gum_thumb_writer_put_b_cond_label w cc id)
  /\ all_or_nothing (fun w => gum_thumb_writer_put_cbz_reg_label w reg id)
  /\ all_or_nothing (fun w => gum_thumb_writer_put_cbnz_reg_label w reg id)
  /\ all_or_nothing (fun w => gum_thumb_writer_put_push_regs_array w regs)
  /\ all_or_nothing (fun w => gum_thumb_writer_put_pop_regs_array w regs)
  /\ all_or_nothing (fun w => gum_thumb_writer_put_ldr_reg_u32 w reg val)
  /\ all_or_nothing
       (fun w => gum_thumb_writer_put_ldr_reg_address w reg address)
  /\ all_or_nothing
       (fun w => gum_thumb_writer_put_ldr_reg_reg_offset w reg reg' offset)
  /\ all_or_nothing
       (fun w => gum_thumb_writer_put_str_reg_reg_offset w reg reg' offset)
  /\ all_or_nothing (fun w => gum_thumb_writer_put_add_reg_imm w reg imm)
  /\ all_or_nothing
       (fun w => gum_thumb_writer_put_add_reg_reg_imm w reg reg' imm)
  /\ all_or_nothing (fun w => gum_thumb_writer_put_sub_reg_imm w reg imm)
  /\ all_or_nothing
       (fun w => gum_thumb_writer_put_sub_reg_reg_imm w reg reg' imm)
  /\ all_or_nothing (fun w => gum_thumb_writer_put_bytes w data).
Proof.
  repeat split.
  - intros w. unfold gum_thumb_writer_put_label,
      gum_thumb_writer_add_address_for_label_id.
    destruct (negb _); cbn [fst snd]; [reflexivity|].
    destruct (_ =? _); cbn [fst snd]; [reflexivity | discriminate].
  - intros w. apply label_reference_all_or_nothing.
  - intros w. apply label_reference_all_or_nothing.
  - intros w. apply label_reference_all_or_nothing.
  - intros w. apply label_reference_all_or_nothing.
  - apply push_or_pop_all_or_nothing.
  - apply push_or_pop_all_or_nothing.
  - apply ldr_reg_u32_all_or_nothing.
  - apply ldr_reg_u32_all_or_nothing.
  - apply transfer_all_or_nothing.
  - apply transfer_all_or_nothing.
  - apply add_reg_imm_all_or_nothing.
  - apply add_reg_reg_imm_all_or_nothing.
  - apply add_reg_imm_all_or_nothing.
  - apply add_reg_reg_imm_all_or_nothing.
  - intros w. unfold gum_thumb_writer_put_bytes.
    destruct (negb _); cbn [fst snd]; [reflexivity | discriminate].
Qed.

(** ** Calls *)

Lemma put_instruction_literal_refs w insn :
  literal_refs (gum_thumb_writer_put_instruction w insn) = literal_refs w.
Proof. reflexivity. Qed.

Lemma push_or_pop_literal_refs w narrow wide special regs :
  literal_refs
    (snd (gum_thumb_writer_put_push_or_pop_regs w narrow wide special regs))
  = literal_refs w.
Proof.
  unfold gum_thumb_writer_put_push_or_pop_regs.
  destruct (_ =? 0); [reflexivity|].
  destruct (need_wide_instruction _ _); reflexivity.
Qed.

Lemma ldr_reg_address_table_full w reg address :
  Z.of_nat (length (literal_refs w)) = GUM_MAX_LITERAL_REF_COUNT ->
  gum_thumb_writer_put_ldr_reg_address w reg address = (false, w).
Proof.
  intros H. unfold gum_thumb_writer_put_ldr_reg_address,
    gum_thumb_writer_put_ldr_reg_u32,
    gum_thumb_writer_add_literal_reference_here.
  rewrite H, Z.eqb_refl. reflexivity.
Qed.

Lemma put_argument_table_full w arg_index arg :
  Z.of_nat (length (literal_refs w)) = GUM_MAX_LITERAL_REF_COUNT ->
  literal_refs (put_argument w arg_index arg) = literal_refs w.
Proof.
  intros H. unfold put_argument.
  destruct (arg_index <? 4)%nat, arg as [address|reg].
  - rewrite ldr_reg_address_table_full by exact H. reflexivity.
  - destruct (negb _); reflexivity.
  - rewrite ldr_reg_address_table_full by exact H. cbn [snd].
    apply push_or_pop_literal_refs.
  - apply push_or_pop_literal_refs.
Qed.

Lemma put_arguments_from_table_full args_rev : forall w,
  Z.of_nat (length (literal_refs w)) = GUM_MAX_LITERAL_REF_COUNT ->
  literal_refs (put_arguments_from w args_rev) = literal_refs w.
Proof.
  induction args_rev as [|arg rest IH]; intros w H; [reflexivity|].
  cbn [put_arguments_from].
  pose proof (put_argument_table_full w (length rest) arg H) as Harg.
  rewrite IH; [exact Harg | rewrite Harg; exact H].
Qed.

(** X8: with the literal table full, a call of an address loads nothing
    into lr: what is emitted is the call through lr as it stands, whatever
    the address. *)
Theorem call_address_with_full_literal_table (w : GumThumbWriter) (func : Z)
    (args : list GumArgument) :
  Z.of_nat (length (literal_refs w)) = GUM_MAX_LITERAL_REF_COUNT ->
  gum_thumb_writer_put_call_address_with_arguments_array w func args =
  gum_thumb_writer_put_call_reg_with_arguments_array w ARM_REG_LR args.
Proof.
  intros H.
  unfold gum_thumb_writer_put_call_address_with_arguments_array,
    gum_thumb_writer_put_call_reg_with_arguments_array,
    gum_thumb_writer_put_argument_list_setup.
  cbv zeta. rewrite ldr_reg_address_table_full; [reflexivity|].
  rewrite put_arguments_from_table_full; exact H.
Qed.

Lemma call_address_with_full_literal_table_witness :
  Z.of_nat (length (literal_refs hundred_loads)) = GUM_MAX_LITERAL_REF_COUNT
  /\ gum_thumb_writer_put_call_address_with_arguments_array hundred_loads
       0x2000 [] =
     gum_thumb_writer_put_call_reg_with_arguments_array hundred_loads
       ARM_REG_LR [].
Proof.
  assert (H : Z.of_nat (length (literal_refs hundred_loads))
              = GUM_MAX_LITERAL_REF_COUNT) by (vm_compute; reflexivity).
  split; [exact H|].
  exact (call_address_with_full_literal_table hundred_loads 0x2000 [] H).
Defined.

(** ** What later calls leave alone *)

Lemma flush_label_loop w :
  (if 0 <? Z.of_nat (length (label_refs w))
   then flush_label_refs (id_to_address w) (label_refs w) (heap w)
   else (true, heap w))
  = flush_label_refs (id_to_address w) (label_refs w) (heap w).
Proof. destruct (label_refs w); reflexivity. Qed.

Lemma patch_address_range m r :
  lit_insn r <= patch_address m r
  /\ patch_address m r + 2 <= lit_insn r + literal_size m r.
Proof.
  unfold patch_address, literal_size.
  destruct (gum_instruction_is_t1_load _); lia.
Qed.

(** The literal part of a flush that passed the label loop with the heap
    [m]: below the cursor it stores into the offset halfwords of the
    literal loads and nowhere else. *)
Lemma flush_after_labels w x :
  well_formed w = true ->
  fst (flush_label_refs (id_to_address w) (label_refs w) (heap w)) = true ->
  x < code w ->
  (forall r, In r (literal_refs w) ->
             x < patch_address (heap w) r
             \/ patch_address (heap w) r + 2 <= x) ->
  heap (snd (gum_thumb_writer_flush w)) x =
  snd (flush_label_refs (id_to_address w) (label_refs w) (heap w)) x.
Proof.
  intros Hwf Hok Hx Hlit.
  pose proof (flush_label_refs_agree w Hwf) as Hm.
  unfold gum_thumb_writer_flush. rewrite flush_label_loop.
  destruct (flush_label_refs _ _ _) as [ok m]. cbn [fst snd] in *.
  subst ok. cbn [negb].
  change (literal_refs (with_label_refs (with_heap w m) []))
    with (literal_refs w).
  destruct (0 <? _); cbn [snd]; [|reflexivity].
  set (w1 := with_label_refs (with_heap w m) []).
  assert (Hord : literals_in_order (heap w1) (base w) (literal_refs w1)
                   (code w1) = true).
  { cbn. rewrite (agree_literals_in_order (heap w) m) by exact Hm.
    apply well_formed_literals, Hwf. }
  destruct (flush_literal_refs_flushed w1 (base w) Hord)
    as [_ _ _ _ _ _ _ _ _ _ _ _ Hframe].
  rewrite Hframe; [reflexivity | exact Hx |].
  intros r Hr. change (heap w1) with m.
  rewrite (agree_patch_address _ _ _ _ Hm Hr). apply Hlit, Hr.
Qed.

(** Below the cursor a flush stores into the halfwords of the pending
    branches and the offset halfwords of the pending literal loads, and
    nowhere else. *)
Lemma flush_frame w x :
  well_formed w = true ->
  x < code w ->
  (forall p, In p (label_refs w) ->
             x < lref_insn p \/ lref_insn p + 2 <= x) ->
  (forall r, In r (literal_refs w) ->
             x < patch_address (heap w) r
             \/ patch_address (heap w) r + 2 <= x) ->
  heap (snd (gum_thumb_writer_flush w)) x = heap w x.
Proof.
  intros Hwf Hx Hlab Hlit.
  destruct (flush_label_refs_frame (id_to_address w) (label_refs w) (heap w))
    as (pre & post & E & _ & _ & Hframe).
  assert (Hm : snd (flush_label_refs (id_to_address w) (label_refs w)
                      (heap w)) x = heap w x).
  { apply Hframe. intros p Hp. apply Hlab. rewrite E.
    apply in_or_app. left. exact Hp. }
  destruct (fst (flush_label_refs (id_to_address w) (label_refs w) (heap w)))
    eqn:Hok.
  - rewrite (flush_after_labels w x Hwf Hok Hx Hlit). exact Hm.
  - unfold gum_thumb_writer_flush. rewrite flush_label_loop.
    destruct (flush_label_refs _ _ _) as [ok m]. cbn [fst snd] in *.
    subst ok. cbn [negb snd]. exact Hm.
Qed.

Lemma continues_refl w : well_formed w = true -> continues w w.
Proof.
  intros H. unfold continues. split; [exact H|]. split; [lia|].
  split; [reflexivity|]. split; [intros p Hp; left; exact Hp|].
  intros r Hr. left. split; [exact Hr | reflexivity].
Qed.

Lemma continues_grow w w1 w2 :
  continues w w1 -> well_formed w1 = true -> well_formed w2 = true ->
  code w1 <= code w2 ->
  (forall x, x < code w1 -> heap w2 x = heap w1 x) ->
  (forall p, In p (label_refs w2) ->
             In p (label_refs w1) \/ code w1 <= lref_insn p) ->
  (forall r, In r (literal_refs w2) ->
             In r (literal_refs w1) \/ code w1 <= lit_insn r) ->
  continues w w2.
Proof.
  intros (_ & Hc & Hheap & Hlab & Hlit) Hwf1 Hwf2 Hc2 Hheap2 Hlab2 Hlit2.
  unfold continues. split; [exact Hwf2|]. split; [lia|]. split.
  { intros x Hx. rewrite Hheap2; [apply Hheap, Hx|].
    destruct Hx as [Hx _]. lia. }
  split.
  { intros p Hp. destruct (Hlab2 p Hp) as [H|H]; [apply Hlab, H | right; lia]. }
  intros r Hr. destruct (Hlit2 r Hr) as [H|H]; [|right; lia].
  destruct (Hlit r H) as [[Hin Hload]|Hge]; [|right; exact Hge].
  left. split; [exact Hin|]. rewrite <- Hload.
  apply load16_agree. intros x Hx. apply Hheap2.
  pose proof (well_formed_literals w1 Hwf1) as Hord.
  destruct (literals_in_order_bounds _ _ _ _ r Hord H) as (_ & Hhi & _).
  pose proof (literal_size_range (heap w1) r). lia.
Qed.

Lemma continues_flush w w1 :
  continues w w1 -> continues w (snd (gum_thumb_writer_flush w1)).
Proof.
  intros (Hwf & Hc & Hheap & Hlab & Hlit).
  destruct (flush_carried w1) as (_ & _ & _ & Hl & Hr & _ & Hc1).
  unfold continues. rewrite Hl, Hr.
  split; [apply well_formed_flush, Hwf|]. split; [lia|].
  split; [|split; intros ? []].
  intros x Hx. rewrite <- (Hheap x Hx). destruct Hx as (Hx & Hxl & Hxr).
  apply flush_frame; [exact Hwf | lia | |].
  - intros p Hp. destruct (Hlab p Hp) as [H|H]; [apply Hxl, H | lia].
  - intros r Hin.
    pose proof (patch_address_range (heap w1) r) as Hpa.
    destruct (Hlit r Hin) as [[Hin' Hload]|Hge]; [|lia].
    assert (Hsize : literal_size (heap w1) r = literal_size (heap w) r)
      by (unfold literal_size; rewrite Hload; reflexivity).
    specialize (Hxr r Hin'). lia.
Qed.

Lemma continues_perform_all ops w w1 :
  forallb (fun op => negb (is_reset op)) ops = true ->
  continues w w1 -> continues w (perform_all w1 ops).
Proof.
  intros Hops H.
  apply (perform_all_keeps (continues w)); try exact H.
  - intros w' insn H'. pose proof H' as (Hwf & _).
    apply (continues_grow w w' _ H' Hwf).
    + apply well_formed_instruction, Hwf.
    + cbn. lia.
    + intros x Hx. cbn. apply store16_outside. lia.
    + intros p Hp. left. exact Hp.
    + intros r Hr. left. exact Hr.
  - intros w' id insn H'. pose proof H' as (Hwf & _).
    apply (continues_grow w w' _ H' Hwf).
    + apply well_formed_label_reference, Hwf.
    + unfold gum_thumb_writer_add_label_reference_here.
      destruct (_ =? _); cbn; lia.
    + intros x Hx. unfold gum_thumb_writer_add_label_reference_here.
      destruct (_ =? _); cbn; apply store16_outside; lia.
    + intros p. unfold gum_thumb_writer_add_label_reference_here.
      destruct (_ =? _); cbn [snd gum_thumb_writer_put_instruction advance
        with_heap with_label_refs label_refs]; [auto|].
      intros Hp. apply in_app_or in Hp. destruct Hp as [Hp|[<-|[]]];
        [left; exact Hp | right; cbn; lia].
    + intros r. unfold gum_thumb_writer_add_label_reference_here.
      destruct (_ =? _); cbn; auto.
  - intros w' reg val H'. pose proof H' as (Hwf & _).
    apply (continues_grow w w' _ H' Hwf).
    + apply well_formed_ldr_reg_u32, Hwf.
    + unfold gum_thumb_writer_put_ldr_reg_u32,
        gum_thumb_writer_add_literal_reference_here.
      destruct (_ =? _); cbn [negb snd]; [lia|].
      destruct (_ <=? _); cbn; lia.
    + intros x Hx. unfold gum_thumb_writer_put_ldr_reg_u32,
        gum_thumb_writer_add_literal_reference_here.
      destruct (_ =? _); cbn [negb snd]; [reflexivity|].
      destruct (_ <=? _); cbn; rewrite ?store16_outside by lia; reflexivity.
    + intros p. unfold gum_thumb_writer_put_ldr_reg_u32,
        gum_thumb_writer_add_literal_reference_here.
      destruct (_ =? _); cbn [negb snd]; [auto|].
      destruct (_ <=? _); cbn; auto.
    + intros r. unfold gum_thumb_writer_put_ldr_reg_u32,
        gum_thumb_writer_add_literal_reference_here.
      destruct (_ =? _); cbn [negb snd]; [auto|].
      destruct (_ <=? _);
        cbn [snd gum_thumb_writer_put_instruction advance with_heap
               with_literal_refs literal_refs];
        intros Hr; apply in_app_or in Hr;
        (destruct Hr as [Hr|[<-|[]]]; [left; exact Hr | right; cbn; lia]).
  - intros w' id H'. pose proof H' as (Hwf & _).
    assert (Hsame : forall w2,
              code w2 = code w' -> heap w2 = heap w' ->
              label_refs w2 = label_refs w' ->
              literal_refs w2 = literal_refs w' -> base w2 = base w' ->
              continues w w2).
    { intros w2 Hc Hh Hl Hr Hb.
      apply (continues_grow w w' _ H' Hwf).
      - apply (well_formed_extend w'); auto; [lia|].
        intros x _. rewrite Hh. reflexivity.
      - lia.
      - intros x _. rewrite Hh. reflexivity.
      - intros p. rewrite Hl. auto.
      - intros r. rewrite Hr. auto. }
    unfold gum_thumb_writer_put_label,
      gum_thumb_writer_add_address_for_label_id.
    destruct (negb _); cbn [snd]; [exact H'|].
    destruct (_ =? _); cbn [snd]; [exact H'|]. apply Hsame; reflexivity.
  - intros w' n H'. pose proof H' as (Hwf & _).
    apply (continues_grow w w' _ H' Hwf).
    + apply well_formed_skip, Hwf.
    + cbn [gum_thumb_writer_skip code]. pose proof (u32_range n). lia.
    + reflexivity.
    + intros p Hp. left. exact Hp.
    + intros r Hr. left. exact Hr.
  - intros w' os H'. pose proof H' as (Hwf & _).
    apply (continues_grow w w' _ H' Hwf); try reflexivity;
      [exact Hwf | intros p Hp; left; exact Hp
       | intros r Hr; left; exact Hr].
  - apply continues_flush.
  - intros w' data H'. pose proof H' as (Hwf & _).
    apply (continues_grow w w' _ H' Hwf).
    + apply well_formed_bytes, Hwf.
    + unfold gum_thumb_writer_put_bytes. destruct (negb _); cbn [snd];
        [lia|]. cbn [advance with_heap code].
      assert (0 <= Z.of_nat (length data) / 2) by (apply Z.div_pos; lia).
      lia.
    + intros x Hx. unfold gum_thumb_writer_put_bytes.
      destruct (negb _); cbn [snd]; [reflexivity|].
      cbn [advance with_heap heap]. apply store_bytes_outside. lia.
    + intros p. unfold gum_thumb_writer_put_bytes.
      destruct (negb _); cbn; auto.
    + intros r. unfold gum_thumb_writer_put_bytes.
      destruct (negb _); cbn; auto.
  - intros w' os a Hin. exfalso. rewrite forallb_forall in Hops.
    specialize (Hops _ Hin). discriminate Hops.
Qed.

(** X9: what has been emitted stays: a byte below the cursor that lies
    in no branch awaiting a label and in no literal load awaiting its
    pool is never changed by later calls, flushes included, as long as
    the writer is not reset. *)
Theorem emitted_code_is_stable (native_os : GumOS) (m : memory)
    (address : Z) (ops ops' : list operation) (x : Z) :
  let w := perform_all (gum_thumb_writer_reset native_os m address) ops in
  forallb (fun op => negb (is_reset op)) ops' = true ->
  x < code w ->
  (forall p, In p (label_refs w) ->
             x < lref_insn p \/ lref_insn p + 2 <= x) ->
  (forall r, In r (literal_refs w) ->
             x < lit_insn r \/ lit_insn r + literal_size (heap w) r <= x) ->
  heap (perform_all w ops') x = heap w x.
Proof.
  cbv zeta. intros Hops Hx Hlab Hlit.
  set (w := perform_all (gum_thumb_writer_reset native_os m address) ops)
    in *.
  assert (Hwf : well_formed w = true) by apply reached_well_formed.
  destruct (continues_perform_all ops' w w Hops (continues_refl w Hwf))
    as (_ & _ & Hheap & _).
  apply Hheap. unfold settled. auto.
Qed.

Lemma emitted_code_is_stable_witness :
  forallb (fun op => negb (is_reset op)) label_and_flush_ops = true
  /\ 0x1000 < code (perform_all
                      (gum_thumb_writer_reset GUM_OS_LINUX zero_heap 0x1000)
                      nop_branch_load_ops)
  /\ heap (perform_all
             (perform_all
                (gum_thumb_writer_reset GUM_OS_LINUX zero_heap 0x1000)
                nop_branch_load_ops) label_and_flush_ops) 0x1000
     = heap (perform_all
               (gum_thumb_writer_reset GUM_OS_LINUX zero_heap 0x1000)
               nop_branch_load_ops) 0x1000.
Proof.
  assert (H1 : forallb (fun op => negb (is_reset op)) label_and_flush_ops
               = true) by reflexivity.
  assert (H2 : 0x1000 < code (perform_all
                                (gum_thumb_writer_reset GUM_OS_LINUX
                                   zero_heap 0x1000) nop_branch_load_ops))
    by (vm_compute; reflexivity).
  assert (H3 : forall p,
            In p (label_refs
                    (perform_all
                       (gum_thumb_writer_reset GUM_OS_LINUX zero_heap 0x1000)
                       nop_branch_load_ops)) ->
            0x1000 < lref_insn p \/ lref_insn p + 2 <= 0x1000).
  { intros p Hp. vm_compute in Hp. destruct Hp as [<-|[]].
    left. reflexivity. }
  assert (H4 : forall r,
            In r (literal_refs
                    (perform_all
                       (gum_thumb_writer_reset GUM_OS_LINUX zero_heap 0x1000)
                       nop_branch_load_ops)) ->
            0x1000 < lit_insn r
            \/ lit_insn r
               + literal_size
                   (heap (perform_all
                            (gum_thumb_writer_reset GUM_OS_LINUX zero_heap
                               0x1000) nop_branch_load_ops)) r <= 0x1000).
  { intros r Hr. vm_compute in Hr. destruct Hr as [<-|[]].
    left. reflexivity. }
  split; [exact H1|]. split; [exact H2|].
  exact (emitted_code_is_stable GUM_OS_LINUX zero_heap 0x1000
           nop_branch_load_ops label_and_flush_ops 0x1000 H1 H2 H3 H4).
Defined.

(** ** Properties kept by every call, the branches to labels apart *)

(** As Section Steps, with the halfword emitted for a label reference
    known to be one of the four the writer emits. *)
Section BranchSteps.
Variable P : GumThumbWriter -> Prop.

Hypothesis P_instruction : forall w insn,
  P w -> P (gum_thumb_writer_put_instruction w insn).
Hypothesis P_branch : forall w id insn,
  branch_template insn ->
  P w ->
  P (gum_thumb_writer_put_instruction
       (snd (gum_thumb_writer_add_label_reference_here w id)) insn).
Hypothesis P_ldr_reg_u32 : forall w reg val,
  P w -> P (snd (gum_thumb_writer_put_ldr_reg_u32 w reg val)).
Hypothesis P_label : forall w id,
  P w -> P (snd (gum_thumb_writer_put_label w id)).
Hypothesis P_skip : forall w n, P w -> P (gum_thumb_writer_skip w n).
Hypothesis P_target_os : forall w os,
  P w -> P (gum_thumb_writer_set_target_os w os).
Hypothesis P_flush : forall w, P w -> P (snd (gum_thumb_writer_flush w)).
Hypothesis P_bytes : forall w data,
  P w -> P (snd (gum_thumb_writer_put_bytes w data)).

Lemma P_branch_here w id insn :
  branch_template insn ->
  P w ->
  P (snd (let '(ok, self') :=
            gum_thumb_writer_add_label_reference_here w id in
          if negb ok then (false, w)
          else (true, gum_thumb_writer_put_instruction self' insn))).
Proof.
  intros Ht H. specialize (P_branch w id insn Ht H).
  destruct (gum_thumb_writer_add_label_reference_here w id) as [ok w'].
  destruct ok; cbn in *; assumption.
Qed.

Lemma perform_keeps_branches w op :
  (forall os a, op = OpReset os a ->
                P (gum_thumb_writer_reset os (heap w) a)) ->
  P w -> P (perform w op).
Proof.
  intros Hreset H. destruct op; cbn [perform];
    try solve [apply Hreset; reflexivity];
    unfold gum_thumb_writer_put_call_address_with_arguments_array,
      gum_thumb_writer_put_call_reg_with_arguments_array,
      gum_thumb_writer_put_argument_list_teardown,
      gum_thumb_writer_put_argument_list_setup,
      gum_thumb_writer_put_ldr_reg_address,
      gum_thumb_writer_put_b_imm, gum_thumb_writer_put_bl_imm,
      gum_thumb_writer_put_blx_imm, gum_thumb_writer_put_branch_imm,
      put_branch_distance,
      gum_thumb_writer_put_bx_reg, gum_thumb_writer_put_blx_reg,
      gum_thumb_writer_put_cmp_reg_imm,
      gum_thumb_writer_put_beq_label, gum_thumb_writer_put_bne_label,
      gum_thumb_writer_put_b_label, gum_thumb_writer_put_b_cond_label,
      gum_thumb_writer_put_cbz_reg_label,
      gum_thumb_writer_put_cbnz_reg_label,
      gum_thumb_writer_put_push_regs_array,
      gum_thumb_writer_put_pop_regs_array,
      gum_thumb_writer_put_ldr_reg_reg, gum_thumb_writer_put_str_reg_reg,
      gum_thumb_writer_put_ldr_reg_reg_offset,
      gum_thumb_writer_put_str_reg_reg_offset,
      gum_thumb_writer_put_mov_reg_reg, gum_thumb_writer_put_mov_reg_u8,
      gum_thumb_writer_put_add_reg_reg,
      gum_thumb_writer_put_add_reg_reg_reg,
      gum_thumb_writer_put_sub_reg_imm, gum_thumb_writer_put_sub_reg_reg,
      gum_thumb_writer_put_sub_reg_reg_reg,
      gum_thumb_writer_put_sub_reg_reg_imm,
      gum_thumb_writer_put_nop, gum_thumb_writer_put_bkpt_imm;
    try solve [ auto
              | apply P_branch_here; [|assumption]; unfold branch_template;
                eauto
              | apply P_push_or_pop; assumption
              | apply P_transfer; assumption
              | apply P_add_reg_imm; assumption
              | apply P_add_reg_reg_imm; assumption
              | repeat apply P_instruction; assumption
              | apply P_instruction, P_ldr_reg_u32, P_arguments; assumption
              | apply P_instruction, P_arguments; assumption ].
  unfold gum_thumb_writer_put_breakpoint, gum_thumb_writer_put_bkpt_imm,
    gum_thumb_writer_put_bx_reg.
  destruct (target_os w); repeat apply P_instruction; assumption.
Qed.

Lemma perform_all_keeps_branches ops :
  (forall w os a, In (OpReset os a) ops ->
                  P (gum_thumb_writer_reset os (heap w) a)) ->
  forall w, P w -> P (perform_all w ops).
Proof.
  unfold perform_all.
  induction ops as [|op rest IH]; intros Hreset w H; cbn [fold_left].
  - assumption.
  - apply IH.
    + intros w' os a Hin. apply Hreset. right. exact Hin.
    + apply perform_keeps_branches; [|exact H].
      intros os a ->. apply Hreset. left. reflexivity.
Qed.
End BranchSteps.

(** ** The offset field of a branch *)

Lemma land_low_mask x n : 0 <= n -> x .& (2 ^ n - 1) = x mod 2 ^ n.
Proof.
  intros Hn. rewrite <- Z.land_ones by exact Hn. f_equal.
  rewrite Z.ones_equiv. lia.
Qed.

(** Or-ing a field below [2 ^ n] into a halfword whose low [n] bits are
    zero adds it. *)
Lemma lor_field h f n :
  0 <= n -> h mod 2 ^ n = 0 -> 0 <= f < 2 ^ n -> h .| f = h + f.
Proof.
  intros Hn Hh Hf. rewrite <- Z.add_lor_land.
  assert (E : h .& f = 0).
  { rewrite <- (Z.mod_small f (2 ^ n)) by exact Hf.
    rewrite <- !Z.land_ones by exact Hn.
    rewrite (Z.land_comm f), Z.land_assoc, (Z.land_ones h) by exact Hn.
    rewrite Hh. apply Z.land_0_l. }
  rewrite E. lia.
Qed.

Lemma sign_extend_mod n d :
  0 < n -> - 2 ^ (n - 1) <= d < 2 ^ (n - 1) ->
  sign_extend n (d mod 2 ^ n) = d.
Proof.
  intros Hn Hd. unfold sign_extend. cbv zeta.
  assert (E : 2 ^ n = 2 * 2 ^ (n - 1)).
  { replace n with (n - 1 + 1) at 1 by lia. rewrite Z.pow_add_r by lia.
    lia. }
  rewrite Z.mod_mod by lia.
  destruct (Z.ltb_spec (d mod 2 ^ n) (2 ^ (n - 1))) as [H|H].
  - destruct (Z.lt_ge_cases d 0) as [Hneg|Hpos].
    + exfalso. assert (d mod 2 ^ n = d + 2 ^ n); [|lia].
      symmetry. apply (Z.mod_unique _ _ (-1)); lia.
    + apply Z.mod_small. lia.
  - destruct (Z.lt_ge_cases d 0) as [Hneg|Hpos].
    + assert (d mod 2 ^ n = d + 2 ^ n); [|lia].
      symmetry. apply (Z.mod_unique _ _ (-1)); lia.
    + exfalso. rewrite Z.mod_small in H; lia.
Qed.

(** A halfword with its low [n] bits zero, patched with the low [n] bits
    of [d]: the bits above the field are kept and the field reads back as
    [d]. *)
Lemma patched_field h d n :
  0 < n < 16 -> 0 <= h < 2 ^ 16 -> h .& (2 ^ n - 1) = 0 ->
  - 2 ^ (n - 1) <= d < 2 ^ (n - 1) ->
  let h' := u16 (h .| (d .& (2 ^ n - 1))) in
  h' >> n = h >> n
  /\ sign_extend n (h' .& (2 ^ n - 1)) = d.
Proof.
  intros Hn Hh Hlow Hd. cbv zeta.
  rewrite land_low_mask in Hlow by lia.
  rewrite !land_low_mask by lia.
  assert (Hf : 0 <= d mod 2 ^ n < 2 ^ n) by (apply Z.mod_pos_bound; lia).
  rewrite (lor_field h (d mod 2 ^ n) n) by (try lia; assumption).
  assert (Hpow : 2 ^ 16 = 2 ^ n * 2 ^ (16 - n)).
  { rewrite <- Z.pow_add_r by lia. f_equal. lia. }
  assert (Hq : h = 2 ^ n * (h / 2 ^ n)).
  { pose proof (Z.div_mod h (2 ^ n)). lia. }
  assert (Hdiv : 0 <= h / 2 ^ n < 2 ^ (16 - n)).
  { split; [apply Z.div_pos; lia|].
    apply Z.div_lt_upper_bound; lia. }
  assert (Hsum : 0 <= h + d mod 2 ^ n < 2 ^ 16) by nia.
  rewrite (u16_small _ Hsum). split.
  - rewrite !Z.shiftr_div_pow2 by lia.
    rewrite Hq at 1. rewrite Z.mul_comm, Z.div_add_l by lia.
    rewrite (Z.div_small (d mod 2 ^ n)) by lia. lia.
  - rewrite Hq at 1. rewrite Z.mul_comm, Z.add_comm, Z.mod_add by lia.
    rewrite Z.mod_mod by lia. apply sign_extend_mod; lia.
Qed.

Lemma b_cond_template_unpatched y :
  unpatched (u16 (0xd000 .| (y << 8))) = true.
Proof.
  unfold unpatched. apply andb_true_intro. split;
    [apply andb_true_intro; split|].
  - apply orb_true_intro. right. apply Z.eqb_eq.
    change 0xff with (2 ^ 8 - 1). rewrite land_low_mask by lia.
    change 0xd000 with (0xd0 << 8).
    rewrite <- Z.shiftl_lor, Z.shiftl_mul_pow2 by lia. unfold u16.
    generalize (0xd0 .| y). intros k.
    change (2 ^ 16) with 65536. change (2 ^ 8) with 256.
    Z.div_mod_to_equations. lia.
  - apply orb_true_intro. left. apply negb_true_iff, Z.eqb_neq. intros H.
    apply (f_equal (fun v => Z.testbit v 12)) in H.
    rewrite Z.land_spec, u16_testbit, Z.lor_spec in H by lia.
    discriminate H.
  - apply orb_true_intro. left. apply negb_true_iff, Z.eqb_neq. intros H.
    apply (f_equal (fun v => Z.testbit v 14)) in H.
    rewrite Z.land_spec, u16_testbit, Z.lor_spec in H by lia.
    discriminate H.
Qed.

Lemma branch_template_unpatched insn :
  branch_template insn -> unpatched (u16 insn) = true.
Proof.
  intros [->|[[cc ->]|[[reg ->]|[reg ->]]]].
  - reflexivity.
  - apply b_cond_template_unpatched.
  - destruct reg; reflexivity.
  - destruct reg; reflexivity.
Qed.

(** ** The branches awaiting a label, in order *)

Lemma branches_in_order_le m refs : forall lo hi,
  branches_in_order m lo refs hi -> lo <= hi.
Proof.
  induction refs as [|p rest IH]; intros lo hi H;
    cbn [branches_in_order] in H; [exact H|].
  destruct H as (Hlo & _ & _ & Hrest). specialize (IH _ _ Hrest). lia.
Qed.

Lemma branches_in_order_agree m1 m2 refs : forall lo hi hi',
  (forall x, lo <= x < hi -> m2 x = m1 x) -> hi <= hi' ->
  branches_in_order m1 lo refs hi -> branches_in_order m2 lo refs hi'.
Proof.
  induction refs as [|p rest IH]; intros lo hi hi' Hm Hhi H;
    cbn [branches_in_order] in *; [lia|].
  destruct H as (Hlo & Hpc & Hun & Hrest).
  pose proof (branches_in_order_le _ _ _ _ Hrest) as Hle.
  split; [exact Hlo|]. split; [exact Hpc|]. split.
  - rewrite <- Hun. f_equal. apply load16_agree. intros x Hx. apply Hm. lia.
  - apply (IH _ hi); [|exact Hhi|exact Hrest].
    intros x Hx. apply Hm. lia.
Qed.

Lemma branches_in_order_app m refs : forall lo p hi,
  branches_in_order m lo refs (lref_insn p) ->
  lref_pc p = u64 (lref_insn p + 4) ->
  unpatched (load16 m (lref_insn p)) = true ->
  lref_insn p + 2 <= hi ->
  branches_in_order m lo (refs ++ [p]) hi.
Proof.
  induction refs as [|q rest IH]; intros lo p hi H Hpc Hun Hhi;
    cbn [branches_in_order app] in *.
  - repeat split; assumption.
  - destruct H as (Hlo & Hqpc & Hqun & Hrest).
    repeat split; try assumption. apply IH; assumption.
Qed.

Lemma branches_in_order_bounds m refs : forall lo hi p,
  branches_in_order m lo refs hi -> In p refs ->
  lo <= lref_insn p /\ lref_insn p + 2 <= hi
  /\ lref_pc p = u64 (lref_insn p + 4)
  /\ unpatched (load16 m (lref_insn p)) = true.
Proof.
  induction refs as [|q rest IH]; intros lo hi p H Hin; [contradiction|].
  cbn [branches_in_order] in H. destruct H as (Hlo & Hpc & Hun & Hrest).
  destruct Hin as [->|Hin].
  - pose proof (branches_in_order_le _ _ _ _ Hrest). repeat split; auto.
  - destruct (IH _ _ p Hrest Hin) as (H1 & H2 & H3 & H4).
    repeat split; auto. lia.
Qed.

Lemma branches_sound_grow w w' :
  branches_sound w -> in_lockstep w' ->
  base w' = base w -> code w <= code w' ->
  label_refs w' = label_refs w ->
  (forall x, x < code w -> heap w' x = heap w x) ->
  branches_sound w'.
Proof.
  intros [_ H] Hlock Hb Hc Hl Hm. split; [exact Hlock|].
  rewrite Hb, Hl. apply (branches_in_order_agree (heap w) _ _ _ (code w));
    [|exact Hc|exact H].
  intros x Hx. apply Hm. lia.
Qed.

Lemma branches_sound_reset os m a :
  branches_sound (gum_thumb_writer_reset os m a).
Proof.
  split; [apply in_lockstep_reset|].
  cbn [gum_thumb_writer_reset label_refs branches_in_order base code]. lia.
Qed.

Lemma branches_sound_perform_all ops w :
  branches_sound w -> branches_sound (perform_all w ops).
Proof.
  apply perform_all_keeps_branches.
  - intros w' insn H. apply (branches_sound_grow w' _ H); try reflexivity.
    + apply in_lockstep_instruction, H.
    + cbn. lia.
    + intros x Hx. cbn. apply store16_outside. lia.
  - intros w' id insn Ht H.
    unfold gum_thumb_writer_add_label_reference_here.
    destruct (_ =? _); cbn [snd].
    + apply (branches_sound_grow w' _ H); try reflexivity.
      * apply in_lockstep_instruction, H.
      * cbn. lia.
      * intros x Hx. cbn. apply store16_outside. lia.
    + destruct H as [Hlock H]. split.
      * apply in_lockstep_instruction.
        apply (in_lockstep_fields w'); auto.
      * cbn [gum_thumb_writer_put_instruction advance with_heap
               with_label_refs heap base label_refs code].
        apply branches_in_order_app; cbn [lref_insn lref_pc]; [| | |lia].
        -- apply (branches_in_order_agree (heap w') _ _ _ (code w'));
             [|lia|exact H].
           intros x Hx. apply store16_outside. lia.
        -- destruct Hlock as [_ ->]. apply u64_add_l.
        -- rewrite load16_store16, u16_idem.
           apply branch_template_unpatched, Ht.
  - intros w' reg val H.
    pose proof (in_lockstep_perform_all [OpLdrRegU32 reg val] w' (proj1 H))
      as Hlock.
    cbn [perform_all fold_left perform] in Hlock.
    apply (branches_sound_grow w' _ H Hlock);
      unfold gum_thumb_writer_put_ldr_reg_u32,
        gum_thumb_writer_add_literal_reference_here;
      destruct (_ =? _); cbn [negb snd]; try reflexivity; try lia;
      destruct (_ <=? _); cbn; try reflexivity; try lia;
      intros x Hx; rewrite ?store16_outside by lia; reflexivity.
  - intros w' id H.
    pose proof (in_lockstep_perform_all [OpPutLabel id] w' (proj1 H))
      as Hlock.
    cbn [perform_all fold_left perform] in Hlock.
    apply (branches_sound_grow w' _ H Hlock);
      unfold gum_thumb_writer_put_label,
        gum_thumb_writer_add_address_for_label_id;
      destruct (negb _); cbn [snd]; try reflexivity;
      destruct (_ =? _); cbn [snd]; reflexivity.
  - intros w' n H. apply (branches_sound_grow w' _ H); try reflexivity.
    + exact (in_lockstep_perform_all [OpSkip n] w' (proj1 H)).
    + cbn [gum_thumb_writer_skip code]. pose proof (u32_range n). lia.
  - intros w' os H. apply (branches_sound_grow w' _ H); try reflexivity.
    exact (in_lockstep_perform_all [OpSetTargetOs os] w' (proj1 H)).
  - intros w' [Hlock H].
    destruct (flush_carried w') as (Hb & _ & _ & Hl & _ & _ & Hc).
    split; [apply in_lockstep_flush, Hlock|]. rewrite Hb, Hl.
    pose proof (branches_in_order_le _ _ _ _ H).
    cbn [branches_in_order]. lia.
  - intros w' data H.
    pose proof (in_lockstep_perform_all [OpBytes data] w' (proj1 H)) as Hlock.
    cbn [perform_all fold_left perform] in Hlock.
    apply (branches_sound_grow w' _ H Hlock);
      unfold gum_thumb_writer_put_bytes; destruct (negb _); cbn [snd];
      try reflexivity; try lia.
    + cbn [advance with_heap code].
      assert (0 <= Z.of_nat (length data) / 2) by (apply Z.div_pos; lia).
      lia.
    + intros x Hx. cbn [advance with_heap heap].
      apply store_bytes_outside. lia.
  - intros w' os a _. apply branches_sound_reset.
Qed.

(** ** The first loop of flush *)

(** One iteration of the loop, with the three kinds of branch folded into
    [branch_in_range] and [patched_branch]. *)
Lemma flush_label_refs_step labels q rest m :
  flush_label_refs labels (q :: rest) m =
  if lookup_label labels (lref_id q) =? 0 then (false, m)
  else if negb (branch_in_range (load16 m (lref_insn q))
                  (label_distance labels q))
  then (false, m)
  else
    flush_label_refs labels rest
      (store16 m (lref_insn q)
         (patched_branch (load16 m (lref_insn q))
            (label_distance labels q))).
Proof.
  cbn [flush_label_refs]. cbv zeta.
  unfold branch_in_range, patched_branch, label_distance.
  destruct (lookup_label labels (lref_id q) =? 0); [reflexivity|].
  destruct (_ =? 0xd000); [reflexivity|].
  destruct (_ =? 0xe000); reflexivity.
Qed.

Lemma forallb_agree (A : Type) (f g : A -> bool) l :
  (forall x, In x l -> f x = g x) -> forallb f l = forallb g l.
Proof.
  induction l as [|x rest IH]; intros H; cbn [forallb]; [reflexivity|].
  rewrite (H x) by (left; reflexivity).
  rewrite IH by (intros y Hy; apply H; right; exact Hy). reflexivity.
Qed.

Lemma patched_branch_u16 h d : u16 (patched_branch h d) = patched_branch h d.
Proof.
  unfold patched_branch.
  destruct (_ =? 0xd000); [apply u16_idem|].
  destruct (_ =? 0xe000); apply u16_idem.
Qed.

(** The loop succeeds exactly when every reference is resolvable, and
    then every branch holds its patched halfword. *)
Lemma flush_label_refs_resolved labels refs : forall m lo hi,
  branches_in_order m lo refs hi ->
  fst (flush_label_refs labels refs m) = forallb (resolvable labels m) refs
  /\ (fst (flush_label_refs labels refs m) = true ->
      forall p, In p refs ->
        load16 (snd (flush_label_refs labels refs m)) (lref_insn p) =
        patched_branch (load16 m (lref_insn p)) (label_distance labels p)).
Proof.
  induction refs as [|q rest IH]; intros m lo hi H.
  - split; [reflexivity | intros _ p []].
  - rewrite flush_label_refs_step. cbn [forallb]. unfold resolvable at 1.
    cbn [branches_in_order] in H. destruct H as (Hlo & Hpc & Hun & Hrest).
    destruct (lookup_label labels (lref_id q) =? 0); cbn [negb andb fst];
      [split; [reflexivity | discriminate]|].
    destruct (branch_in_range _ _); cbn [negb andb fst];
      [|split; [reflexivity | discriminate]].
    set (m' := store16 m (lref_insn q) _).
    assert (Hm' : forall x, lref_insn q + 2 <= x < hi -> m' x = m x).
    { intros x Hx. apply store16_outside. lia. }
    pose proof (branches_in_order_agree m m' rest _ hi hi Hm'
                  (Z.le_refl hi) Hrest) as Hrest'.
    destruct (IH m' _ hi Hrest') as [Hok Hpatched].
    assert (Hload : forall p, In p rest ->
              load16 m' (lref_insn p) = load16 m (lref_insn p)).
    { intros p Hp.
      destruct (branches_in_order_bounds _ _ _ _ p Hrest Hp) as (? & ? & _).
      apply load16_agree. intros x Hx. apply Hm'. lia. }
    split.
    + rewrite Hok. apply forallb_agree. intros p Hp. unfold resolvable.
      rewrite (Hload p Hp). reflexivity.
    + intros Htrue p [<-|Hp].
      * destruct (flush_label_refs_frame labels rest m')
          as (pre & post & E & _ & _ & Hframe).
        rewrite (load16_agree _ m' (lref_insn q)).
        -- unfold m'. rewrite load16_store16. apply patched_branch_u16.
        -- intros x Hx. apply Hframe. intros p Hp.
           assert (Hin : In p rest)
             by (rewrite E; apply in_or_app; left; exact Hp).
           destruct (branches_in_order_bounds _ _ _ _ p Hrest Hin)
             as (? & _). lia.
      * rewrite (Hpatched Htrue p Hp), (Hload p Hp). reflexivity.
Qed.

(** Flush succeeds exactly when its first loop does. *)
Lemma flush_ok_label_loop w :
  fst (gum_thumb_writer_flush w) =
  fst (flush_label_refs (id_to_address w) (label_refs w) (heap w)).
Proof.
  unfold gum_thumb_writer_flush. rewrite flush_label_loop.
  destruct (flush_label_refs _ _ _) as [ok m]. cbn [fst].
  destruct ok; cbn [negb]; [|reflexivity].
  destruct (0 <? _); reflexivity.
Qed.

(** X10: flush succeeds exactly when every pending branch is
    resolvable: its label is defined, and the distance to it is within
    the range flush accepts for that kind of branch. *)
Theorem flush_succeeds_iff_branches_resolvable (native_os : GumOS)
    (m : memory) (address : Z) (ops : list operation) :
  let w := perform_all (gum_thumb_writer_reset native_os m address) ops in
  fst (gum_thumb_writer_flush w) =
  forallb (resolvable (id_to_address w) (heap w)) (label_refs w).
Proof.
  cbv zeta.
  set (w := perform_all (gum_thumb_writer_reset native_os m address) ops).
  assert (H : branches_sound w)
    by apply branches_sound_perform_all, branches_sound_reset.
  destruct H as [_ H]. rewrite flush_ok_label_loop.
  apply (flush_label_refs_resolved _ _ _ _ _ H).
Qed.

Lemma unconditional_is_not_conditional h :
  h .& 0xf800 = 0xe000 -> (h .& 0xf000 =? 0xd000) = false.
Proof.
  intros H. apply Z.eqb_neq. intros H'.
  apply (f_equal (fun v => Z.testbit v 13)) in H, H'.
  rewrite Z.land_spec in H, H'. cbn in H, H'.
  rewrite andb_true_r in H, H'. congruence.
Qed.

Lemma s32_congruent x : exists q, s32 x = x - 2 ^ 32 * q.
Proof.
  unfold s32. exists ((x + 2 ^ 31) / 2 ^ 32).
  pose proof (Z.div_mod (x + 2 ^ 31) (2 ^ 32)). lia.
Qed.

(** Halving the wrapped difference of two addresses an even number of
    bytes apart loses nothing: the second plus twice the half is the
    first, in the 32 bits of an address. *)
Lemma halved_distance_lands a b :
  Z.even (a - b) = true ->
  u32 (b + 2 * Z.quot (s32 (s32 a - s32 b)) 2) = u32 a.
Proof.
  intros Heven.
  destruct (s32_congruent a) as [q1 ->].
  destruct (s32_congruent b) as [q2 ->].
  destruct (s32_congruent (a - 2 ^ 32 * q1 - (b - 2 ^ 32 * q2)))
    as [q3 ->].
  apply Z.even_spec in Heven. destruct Heven as [k Hk].
  set (D := a - 2 ^ 32 * q1 - (b - 2 ^ 32 * q2) - 2 ^ 32 * q3).
  assert (HD : D = 2 * (k - 2 ^ 31 * (q1 - q2 + q3))) by (unfold D; lia).
  assert (Hq : Z.quot D 2 = k - 2 ^ 31 * (q1 - q2 + q3)).
  { rewrite HD, (Z.mul_comm 2). apply Z.quot_mul. lia. }
  rewrite Hq. unfold u32.
  replace (b + 2 * (k - 2 ^ 31 * (q1 - q2 + q3)))
    with (a + (- (q1 - q2 + q3)) * 2 ^ 32) by lia.
  apply Z.mod_add. lia.
Qed.

(** The branch lands on its label: its pc plus twice the distance is the
    address of the label, in the 32 bits of an address. *)
Lemma label_distance_lands labels p :
  Z.even (lookup_label labels (lref_id p) - lref_pc p) = true ->
  u32 (lref_pc p + 2 * label_distance labels p)
  = u32 (lookup_label labels (lref_id p)).
Proof. apply halved_distance_lands. Qed.

Lemma compare_branch_class h :
  h .& 0xf500 = 0xb100 ->
  (h .& 0xf000 =? 0xd000) = false /\ (h .& 0xf800 =? 0xe000) = false.
Proof.
  intros H. apply (f_equal (fun v => Z.testbit v 14)) in H.
  rewrite Z.land_spec in H. cbn in H. rewrite andb_true_r in H.
  split; apply Z.eqb_neq; intros H';
    apply (f_equal (fun v => Z.testbit v 14)) in H';
    rewrite Z.land_spec in H'; cbn in H'; rewrite andb_true_r in H';
    congruence.
Qed.

Lemma lor_disjoint a b : a .& b = 0 -> a .| b = a + b.
Proof. intros H. rewrite <- Z.add_lor_land, H. lia. Qed.

Lemma compare_branch_fields_value d :
  0 <= d < 64 ->
  compare_branch_fields d = 512 * (d / 32) + 8 * (d mod 32)
  /\ 0x2f8 .& compare_branch_fields d = compare_branch_fields d.
Proof.
  intros Hd.
  assert (H : forallb
                (fun n =>
                   (compare_branch_fields (Z.of_nat n)
                    =? 512 * (Z.of_nat n / 32) + 8 * (Z.of_nat n mod 32))
                   && (0x2f8 .& compare_branch_fields (Z.of_nat n)
                       =? compare_branch_fields (Z.of_nat n)))
                (seq 0 64) = true) by (vm_compute; reflexivity).
  rewrite forallb_forall in H. specialize (H (Z.to_nat d)).
  rewrite Z2Nat.id in H by lia.
  assert (Hin : In (Z.to_nat d) (seq 0 64)) by (apply in_seq; lia).
  apply H in Hin. apply andb_prop in Hin. destruct Hin as [H1 H2].
  apply Z.eqb_eq in H1, H2. split; assumption.
Qed.

(** A compare and branch of a low register whose offset bits are zero,
    patched with a distance of six bits: the bits above the offset and
    the register are kept and the offset reads back as the distance. *)
Lemma patched_compare_branch h d :
  0 <= h < 2 ^ 16 -> h .& 0x2f8 = 0 -> 0 <= d < 64 ->
  let h' := u16 (h .| compare_branch_fields d) in
  h' >> 10 = h >> 10 /\ h' .& 7 = h .& 7 /\ compare_branch_offset h' = d.
Proof.
  intros Hh Hzero Hd. cbv zeta.
  destruct (compare_branch_fields_value d Hd) as [Hvalue Hmask].
  assert (Hdisjoint : h .& compare_branch_fields d = 0).
  { rewrite <- Hmask, Z.land_assoc, Hzero. apply Z.land_0_l. }
  rewrite (lor_disjoint _ _ Hdisjoint), Hvalue.
  assert (H5 : (h / 8) mod 32 = 0).
  { assert (E : h .& 0xf8 = 0).
    { change 0xf8 with (0x2f8 .& 0xf8). rewrite Z.land_assoc, Hzero.
      apply Z.land_0_l. }
    apply (f_equal (fun v => v >> 3)) in E.
    rewrite Z.shiftr_land in E. change (0xf8 >> 3) with (2 ^ 5 - 1) in E.
    rewrite land_low_mask, Z.shiftr_div_pow2 in E by lia. exact E. }
  assert (H9 : (h / 512) mod 2 = 0).
  { assert (E : h .& 0x200 = 0).
    { change 0x200 with (0x2f8 .& 0x200). rewrite Z.land_assoc, Hzero.
      apply Z.land_0_l. }
    apply (f_equal (fun v => v >> 9)) in E.
    rewrite Z.shiftr_land in E. change (0x200 >> 9) with (2 ^ 1 - 1) in E.
    rewrite land_low_mask, Z.shiftr_div_pow2 in E by lia. exact E. }
  change (2 ^ 16) with 65536 in Hh. change (2 ^ 3) with 8 in H5.
  change (2 ^ 9) with 512 in H9.
  assert (Hsum : u16 (h + (512 * (d / 32) + 8 * (d mod 32)))
                 = h + (512 * (d / 32) + 8 * (d mod 32))).
  { apply u16_small. change (2 ^ 16) with 65536.
    Z.div_mod_to_equations. lia. }
  rewrite Hsum. unfold compare_branch_offset, GUM_INT5_MASK.
  change 7 with (2 ^ 3 - 1). change 0x1f with (2 ^ 5 - 1).
  change 1 with (2 ^ 1 - 1) at 3.
  rewrite !land_low_mask, !Z.shiftr_div_pow2 by lia.
  change (2 ^ 10) with 1024. change (2 ^ 9) with 512.
  change (2 ^ 5) with 32. change (2 ^ 3) with 8. change (2 ^ 1) with 2.
  repeat split; Z.div_mod_to_equations; lia.
Qed.

(** X11: after a successful flush every pending [b] and [b<cc>] keeps
    its opcode bits and holds, in its offset field read as a two's
    complement number, the distance to its label in halfwords, and so
    does a [cbz] or [cbnz] of a low register in its bit i and field
    imm5 for a distance below 64; the pc of a branch is its address plus
    four, and pc plus twice the distance is the address of the label
    when the two are an even number of bytes apart. *)
Theorem resolved_branches_hold_their_distance (native_os : GumOS)
    (m : memory) (address : Z) (ops : list operation)
    (p : GumThumbLabelRef) :
  let w := perform_all (gum_thumb_writer_reset native_os m address) ops in
  let w' := snd (gum_thumb_writer_flush w) in
  let h := load16 (heap w) (lref_insn p) in
  let h' := load16 (heap w') (lref_insn p) in
  let d := label_distance (id_to_address w) p in
  fst (gum_thumb_writer_flush w) = true ->
  In p (label_refs w) ->
  lref_pc p = u64 (lref_insn p + 4)
  /\ lookup_label (id_to_address w) (lref_id p) <> 0
  /\ (h .& 0xf000 = 0xd000 ->
      h' >> 8 = h >> 8 /\ sign_extend 8 (h' .& 0xff) = d)
  /\ (h .& 0xf800 = 0xe000 ->
      h' >> 11 = h >> 11 /\ sign_extend 11 (h' .& 0x7ff) = d)
  /\ (h .& 0xf500 = 0xb100 -> h .& 8 = 0 -> d < 64 ->
      h' >> 10 = h >> 10 /\ h' .& 7 = h .& 7
      /\ compare_branch_offset h' = d)
  /\ (Z.even (lookup_label (id_to_address w) (lref_id p) - lref_pc p)
      = true ->
      u32 (lref_pc p + 2 * d)
      = u32 (lookup_label (id_to_address w) (lref_id p))).
Proof.
  cbv zeta.
  set (w := perform_all (gum_thumb_writer_reset native_os m address) ops).
  intros Hok Hp.
  assert (Hwf : well_formed w = true) by apply reached_well_formed.
  assert (Hs : branches_sound w)
    by apply branches_sound_perform_all, branches_sound_reset.
  destruct Hs as [_ Hord].
  destruct (branches_in_order_bounds _ _ _ _ p Hord Hp)
    as (_ & Hhi & Hpc & Hun).
  destruct (flush_label_refs_resolved (id_to_address w) _ _ _ _ Hord)
    as [Hres Hpatched].
  rewrite flush_ok_label_loop in Hok.
  specialize (Hpatched Hok p Hp). rewrite Hok in Hres. symmetry in Hres.
  rewrite forallb_forall in Hres. specialize (Hres p Hp).
  unfold resolvable in Hres. apply andb_prop in Hres.
  destruct Hres as [Hdef Hrange].
  apply negb_true_iff, Z.eqb_neq in Hdef.
  assert (Hload : load16 (heap (snd (gum_thumb_writer_flush w)))
                    (lref_insn p) =
                  patched_branch (load16 (heap w) (lref_insn p))
                    (label_distance (id_to_address w) p)).
  { rewrite <- Hpatched. apply load16_agree. intros x Hx.
    apply flush_after_labels; [exact Hwf | exact Hok | lia |].
    intros r Hr. destruct (well_formed_elim w Hwf) as [_ Hapart].
    destruct (Hapart p Hp) as [_ Hpr]. specialize (Hpr r Hr).
    pose proof (patch_address_range (heap w) r). lia. }
  rewrite Hload. clear Hload Hpatched.
  pose proof (load16_range (heap w) (lref_insn p)) as Hh.
  unfold unpatched in Hun. apply andb_prop in Hun.
  destruct Hun as [Hun Hcb]. apply andb_prop in Hun. destruct Hun as [Hc Hu].
  unfold branch_in_range in Hrange. unfold patched_branch.
  split; [exact Hpc|]. split; [exact Hdef|].
  split; [|split; [|split; [|apply label_distance_lands]]].
  - intros Hcond. rewrite Hcond in *. cbn [Z.eqb Pos.eqb negb orb] in *.
    apply Z.eqb_eq in Hc. unfold GUM_IS_WITHIN_INT8_RANGE in Hrange.
    apply andb_prop in Hrange. destruct Hrange as [H1 H2].
    apply Z.leb_le in H1, H2. unfold GUM_INT8_MASK.
    change 0xff with (2 ^ 8 - 1) in *.
    apply patched_field; [lia | exact Hh | exact Hc | cbn; lia].
  - intros Hunc. rewrite (unconditional_is_not_conditional _ Hunc) in *.
    rewrite Hunc in *. cbn [Z.eqb Pos.eqb negb orb] in *.
    apply Z.eqb_eq in Hu. unfold GUM_IS_WITHIN_INT11_RANGE in Hrange.
    apply andb_prop in Hrange. destruct Hrange as [H1 H2].
    apply Z.leb_le in H1, H2. unfold GUM_INT11_MASK.
    change 0x7ff with (2 ^ 11 - 1) in *.
    apply patched_field; [lia | exact Hh | exact Hu | cbn; lia].
  - intros Hcmp Hlow Hd.
    destruct (compare_branch_class _ Hcmp) as [Hnc Hnu].
    rewrite Hnc, Hnu in *. rewrite Hcmp in Hcb.
    cbn [Z.eqb Pos.eqb negb orb] in Hcb. apply Z.eqb_eq in Hcb.
    unfold GUM_IS_WITHIN_UINT7_RANGE in Hrange.
    apply andb_prop in Hrange. destruct Hrange as [H1 _].
    apply Z.leb_le in H1.
    apply (patched_compare_branch _ _ Hh); [|lia].
    change 0x2f8 with (0x2f0 .| 8).
    rewrite Z.land_lor_distr_r, Hcb, Hlow. reflexivity.
Qed.

Lemma resolved_branches_hold_their_distance_witness :
  fst (gum_thumb_writer_flush
         (perform_all (gum_thumb_writer_reset GUM_OS_LINUX zero_heap 0x1000)
            forward_and_backward_ops)) = true
  /\ In (mkLabelRef 3 0x1000 0x1004)
       (label_refs
          (perform_all (gum_thumb_writer_reset GUM_OS_LINUX zero_heap 0x1000)
             forward_and_backward_ops))
  /\ lref_pc (mkLabelRef 3 0x1000 0x1004)
     = u64 (lref_insn (mkLabelRef 3 0x1000 0x1004) + 4).
Proof.
  assert (H1 : fst (gum_thumb_writer_flush
                      (perform_all
                         (gum_thumb_writer_reset GUM_OS_LINUX zero_heap
                            0x1000) forward_and_backward_ops)) = true)
    by (vm_compute; reflexivity).
  assert (H2 : In (mkLabelRef 3 0x1000 0x1004)
                 (label_refs
                    (perform_all
                       (gum_thumb_writer_reset GUM_OS_LINUX zero_heap 0x1000)
                       forward_and_backward_ops)))
    by (vm_compute; left; reflexivity).
  split; [exact H1|]. split; [exact H2|].
  exact (proj1 (resolved_branches_hold_their_distance GUM_OS_LINUX zero_heap
                  0x1000 forward_and_backward_ops
                  (mkLabelRef 3 0x1000 0x1004) H1 H2)).
Defined.

(** ** Literal loads *)

Lemma literal_unpatched_agree m1 m2 r :
  (forall x, lit_insn r <= x < lit_insn r + literal_size m1 r ->
             m2 x = m1 x) ->
  literal_unpatched m1 r -> literal_unpatched m2 r.
Proof.
  unfold literal_unpatched, literal_size. intros Hm [Hpc H].
  split; [exact Hpc|].
  assert (E : load16 m2 (lit_insn r) = load16 m1 (lit_insn r)).
  { apply load16_agree. intros x Hx. apply Hm.
    destruct (gum_instruction_is_t1_load _); lia. }
  rewrite E. destruct (gum_instruction_is_t1_load _); [exact H|].
  rewrite <- H. f_equal. apply load16_agree. intros x Hx. apply Hm. lia.
Qed.

Lemma literals_sound_grow w w' :
  literals_sound w -> well_formed w' = true -> in_lockstep w' ->
  literal_refs w' = literal_refs w ->
  (forall x, x < code w -> heap w' x = heap w x) ->
  literals_sound w'.
Proof.
  intros (Hwf & _ & H) Hwf' Hlock Hr Hm.
  split; [exact Hwf'|]. split; [exact Hlock|]. rewrite Hr. intros r Hin.
  apply (literal_unpatched_agree (heap w)); [|apply H, Hin].
  intros x Hx. apply Hm.
  pose proof (well_formed_literals w Hwf) as Hord.
  destruct (literals_in_order_bounds _ _ _ _ r Hord Hin) as (_ & Hhi & _).
  lia.
Qed.

Lemma literals_sound_reset os m a :
  literals_sound (gum_thumb_writer_reset os m a).
Proof.
  split; [apply well_formed_reset|]. split; [apply in_lockstep_reset|].
  intros r [].
Qed.

Lemma t1_template reg :
  (meta (gum_arm_reg_describe reg) <=? GUM_ARM_MREG_R7) = true ->
  gum_instruction_is_t1_load
    (u16 (0x4800 .| (index (gum_arm_reg_describe reg) << 8))) = true
  /\ u16 (0x4800 .| (index (gum_arm_reg_describe reg) << 8)) .& 0xff = 0.
Proof. destruct reg; intros H; try discriminate H; split; reflexivity. Qed.

Lemma t2_template reg :
  u16 (index (gum_arm_reg_describe reg) << 12) .& 0xfff = 0.
Proof. destruct reg; reflexivity. Qed.

Lemma literals_sound_ldr_reg_u32 w reg val :
  literals_sound w ->
  literals_sound (snd (gum_thumb_writer_put_ldr_reg_u32 w reg val)).
Proof.
  intros H.
  pose proof (well_formed_ldr_reg_u32 w reg val (proj1 H)) as Hwf'.
  pose proof (in_lockstep_perform_all [OpLdrRegU32 reg val] w
                (proj1 (proj2 H))) as Hlock'.
  cbn [perform_all fold_left perform] in Hlock'.
  split; [exact Hwf'|]. split; [exact Hlock'|]. clear Hwf' Hlock'.
  destruct H as (Hwf & Hlock & H).
  assert (Hold : forall m' r,
            (forall x, x < code w -> m' x = heap w x) ->
            In r (literal_refs w) -> literal_unpatched m' r).
  { intros m' r Hm Hin.
    apply (literal_unpatched_agree (heap w)); [|apply H, Hin].
    intros x Hx. apply Hm.
    pose proof (well_formed_literals w Hwf) as Hord.
    destruct (literals_in_order_bounds _ _ _ _ r Hord Hin) as (_ & Hhi & _).
    lia. }
  assert (Hpc : u64 (pc w + 4) = u64 (code w + 4))
    by (destruct Hlock as [_ ->]; apply u64_add_l).
  unfold gum_thumb_writer_put_ldr_reg_u32,
    gum_thumb_writer_add_literal_reference_here.
  destruct (_ =? GUM_MAX_LITERAL_REF_COUNT); cbn [negb snd]; [exact H|].
  destruct (meta (gum_arm_reg_describe reg) <=? GUM_ARM_MREG_R7) eqn:Hlow;
    cbn [snd gum_thumb_writer_put_instruction advance with_heap
           with_literal_refs literal_refs heap code];
    intros r Hin; apply in_app_or in Hin; destruct Hin as [Hin|[<-|[]]].
  - apply Hold; [|exact Hin]. intros x Hx. apply store16_outside. lia.
  - destruct (t1_template reg Hlow) as [Ht Hz].
    unfold literal_unpatched. cbn [lit_pc lit_insn].
    rewrite load16_store16, u16_idem, Ht. split; [exact Hpc | exact Hz].
  - apply Hold; [|exact Hin]. intros x Hx.
    rewrite !store16_outside by lia. reflexivity.
  - unfold literal_unpatched. cbn [lit_pc lit_insn].
    rewrite load16_store16_other, !load16_store16 by lia.
    rewrite !u16_idem. split; [exact Hpc|]. cbn [gboolean].
    change (gum_instruction_is_t1_load (u16 (0xf85f .| (1 << 7))))
      with false. cbv iota. apply t2_template.
Qed.

Lemma literals_sound_perform_all ops w :
  literals_sound w -> literals_sound (perform_all w ops).
Proof.
  apply perform_all_keeps.
  - intros w' insn H. apply (literals_sound_grow w' _ H).
    + apply well_formed_instruction, H.
    + apply in_lockstep_instruction, H.
    + reflexivity.
    + intros x Hx. cbn. apply store16_outside. lia.
  - intros w' id insn H. apply (literals_sound_grow w' _ H).
    + apply well_formed_label_reference, H.
    + unfold gum_thumb_writer_add_label_reference_here.
      destruct (_ =? _); cbn [snd]; apply in_lockstep_instruction;
        [apply H | apply (in_lockstep_fields w'); auto; apply H].
    + unfold gum_thumb_writer_add_label_reference_here.
      destruct (_ =? _); reflexivity.
    + intros x Hx. unfold gum_thumb_writer_add_label_reference_here.
      destruct (_ =? _); cbn; apply store16_outside; lia.
  - apply literals_sound_ldr_reg_u32.
  - intros w' id H.
    pose proof (in_lockstep_perform_all [OpPutLabel id] w'
                  (proj1 (proj2 H))) as Hlock.
    pose proof (well_formed_perform_all [OpPutLabel id] w' (proj1 H))
      as Hwf.
    cbn [perform_all fold_left perform] in Hlock, Hwf.
    apply (literals_sound_grow w' _ H Hwf Hlock);
      unfold gum_thumb_writer_put_label,
        gum_thumb_writer_add_address_for_label_id;
      destruct (negb _); cbn [snd]; try reflexivity;
      destruct (_ =? _); cbn [snd]; reflexivity.
  - intros w' n H. apply (literals_sound_grow w' _ H); try reflexivity.
    + apply well_formed_skip, H.
    + exact (in_lockstep_perform_all [OpSkip n] w' (proj1 (proj2 H))).
  - intros w' os H. apply (literals_sound_grow w' _ H); try reflexivity.
    + exact (proj1 H).
    + exact (in_lockstep_perform_all [OpSetTargetOs os] w'
               (proj1 (proj2 H))).
  - intros w' (Hwf & Hlock & H).
    destruct (flush_carried w') as (_ & _ & _ & _ & Hr & _).
    split; [apply well_formed_flush, Hwf|].
    split; [apply in_lockstep_flush, Hlock|]. rewrite Hr. intros r [].
  - intros w' data H.
    pose proof (in_lockstep_perform_all [OpBytes data] w'
                  (proj1 (proj2 H))) as Hlock.
    cbn [perform_all fold_left perform] in Hlock.
    apply (literals_sound_grow w' _ H (well_formed_bytes w' data (proj1 H))
             Hlock);
      unfold gum_thumb_writer_put_bytes; destruct (negb _); cbn [snd];
      try reflexivity.
    intros x Hx. cbn [advance with_heap heap].
    apply store_bytes_outside. lia.
  - intros w' os a _. apply literals_sound_reset.
Qed.

Lemma align_down_4 x : 0 <= x < 2 ^ 64 -> x .& u64 (Z.lnot 3) = 4 * (x / 4).
Proof.
  intros Hx. unfold u64. rewrite <- Z.land_ones by lia.
  rewrite (Z.land_comm (Z.lnot 3)), Z.land_assoc, Z.land_ones by lia.
  rewrite Z.mod_small by exact Hx.
  rewrite <- Z.ldiff_land. change 3 with (Z.ones 2).
  rewrite Z.ldiff_ones_r, Z.shiftl_mul_pow2, Z.shiftr_div_pow2 by lia.
  change (2 ^ 2) with 4. lia.
Qed.

(** A field below [2 ^ n] or-ed into a halfword whose low [n] bits are
    zero reads back as it is. *)
Lemma patched_unsigned h f n :
  0 < n < 16 -> 0 <= h < 2 ^ 16 -> h .& (2 ^ n - 1) = 0 ->
  0 <= f < 2 ^ n ->
  u16 (h .| f) .& (2 ^ n - 1) = f.
Proof.
  intros Hn Hh Hlow Hf.
  rewrite land_low_mask in Hlow by lia. rewrite land_low_mask by lia.
  rewrite (lor_field h f n) by (try lia; assumption).
  assert (Hpow : 2 ^ 16 = 2 ^ n * 2 ^ (16 - n)).
  { rewrite <- Z.pow_add_r by lia. f_equal. lia. }
  assert (Hq : h = 2 ^ n * (h / 2 ^ n)).
  { pose proof (Z.div_mod h (2 ^ n)). lia. }
  assert (Hdiv : 0 <= h / 2 ^ n < 2 ^ (16 - n)).
  { split; [apply Z.div_pos; lia|].
    apply Z.div_lt_upper_bound; lia. }
  assert (Hsum : 0 <= h + f < 2 ^ 16) by nia.
  rewrite (u16_small _ Hsum).
  rewrite Hq at 1. rewrite Z.mul_comm, Z.add_comm, Z.mod_add by lia.
  apply Z.mod_small. exact Hf.
Qed.

(** An immediate below [2 ^ n] or-ed into an opcode whose low [n] bits
    are zero: the bits above are those of the opcode, the bits below
    those of the immediate. *)
Lemma immediate_field k a n :
  0 < n < 16 -> 0 <= k < 2 ^ 16 -> k mod 2 ^ n = 0 -> 0 <= a < 2 ^ n ->
  u16 (k .| a) >> n = k >> n /\ u16 (k .| a) .& (2 ^ n - 1) = a.
Proof.
  intros Hn Hk Hlow Ha.
  assert (Hland : k .& (2 ^ n - 1) = 0)
    by (rewrite land_low_mask by lia; exact Hlow).
  split; [|apply patched_unsigned; assumption].
  rewrite (lor_field k a n) by (try lia; assumption).
  assert (Hpow : 2 ^ 16 = 2 ^ n * 2 ^ (16 - n)).
  { rewrite <- Z.pow_add_r by lia. f_equal. lia. }
  assert (Hq : k = 2 ^ n * (k / 2 ^ n)).
  { pose proof (Z.div_mod k (2 ^ n)). lia. }
  assert (Hdiv : 0 <= k / 2 ^ n < 2 ^ (16 - n)).
  { split; [apply Z.div_pos; lia|].
    apply Z.div_lt_upper_bound; lia. }
  assert (Hsum : 0 <= k + a < 2 ^ 16) by nia.
  rewrite (u16_small _ Hsum), !Z.shiftr_div_pow2 by lia.
  rewrite Hq at 1. rewrite Z.mul_comm, Z.div_add_l by lia.
  rewrite (Z.div_small a) by lia. lia.
Qed.

(** X12: after a successful flush, a literal load whose pool ends
    within its reach reads the value it was emitted for: the slot at its
    aligned pc plus the offset of its field holds that value, and the
    bits above the field, opcode and register, are as they were emitted.
    The code lies within the 64-bit address space and the cursor was
    even. *)
Theorem literal_loads_read_their_values (native_os : GumOS) (m : memory)
    (address : Z) (ops : list operation) (r : GumThumbLiteralRef) :
  let w := perform_all (gum_thumb_writer_reset native_os m address) ops in
  let w' := snd (gum_thumb_writer_flush w) in
  0 <= base w -> code w' <= 2 ^ 64 -> Z.even (code w) = true ->
  fst (gum_thumb_writer_flush w) = true ->
  In r (literal_refs w) ->
  code w' - lit_insn r <= literal_reach (heap w) r ->
  load32 (heap w') (literal_load_address (heap w) (heap w') r) = lit_val r
  /\ if gum_instruction_is_t1_load (load16 (heap w) (lit_insn r))
     then load16 (heap w') (lit_insn r) >> 8
          = load16 (heap w) (lit_insn r) >> 8
     else load16 (heap w') (lit_insn r + 2) >> 12
          = load16 (heap w) (lit_insn r + 2) >> 12.
Proof.
  cbv zeta.
  set (w := perform_all (gum_thumb_writer_reset native_os m address) ops).
  intros Hbase Hend Heven Hok Hin Hreach.
  assert (Hs : literals_sound w)
    by apply literals_sound_perform_all, literals_sound_reset.
  destruct Hs as (Hwf & [_ Hpc] & Hun). specialize (Hun r Hin).
  assert (Hne : literal_refs w <> [])
    by (intros E; rewrite E in Hin; exact Hin).
  destruct (flush_pool w Hwf Hne Hok) as (Hcode & _ & Hpool & _ & Hpatch).
  specialize (Hpatch r Hin).
  set (vals := pool_values w) in *.
  set (k := index_of (lit_val r) vals) in *.
  assert (Hval : In (lit_val r) vals)
    by (apply first_occurrences_In, in_map, Hin).
  assert (Hk : (k < length vals)%nat).
  { pose proof (index_of_le (lit_val r) vals) as Hle. fold k in Hle.
    destruct (Nat.eq_dec k (length vals)) as [E|N]; [|lia].
    apply index_of_absent in E. contradiction. }
  assert (Hload : load32 (heap (snd (gum_thumb_writer_flush w)))
                    (pool_first_slot w + 4 * Z.of_nat k) = lit_val r).
  { rewrite (pool_at_nth _ _ _ k Hpool Hk). apply nth_index_of, Hval. }
  pose proof (well_formed_literals w Hwf) as Hord.
  destruct (literals_in_order_bounds _ _ _ _ r Hord Hin) as (Hlo & Hhi & _).
  pose proof (literal_size_range (heap w) r) as Hsize.
  assert (Hnop : 0 <= pool_first_slot w - code w <= 2
                 /\ pool_pc w = pc w + (pool_first_slot w - code w)).
  { unfold pool_first_slot, pool_pc. destruct (alignment_nop_due w); lia. }
  destruct Hnop as [Hfs Hppc].
  assert (Hc : 0 <= code w < 2 ^ 64) by lia.
  assert (Hpcw : pc w = code w) by (rewrite Hpc; apply Z.mod_small, Hc).
  set (slot := pool_first_slot w + 4 * Z.of_nat k) in *.
  assert (Hslot : code w <= slot
                  /\ slot + 4 <= code (snd (gum_thumb_writer_flush w)))
    by (unfold slot; lia).
  assert (Hslot_pc : u64 (pool_pc w + 4 * Z.of_nat k) = slot).
  { replace (pool_pc w + 4 * Z.of_nat k) with slot
      by (unfold slot; lia).
    apply Z.mod_small. lia. }
  destruct Hun as [Hrpc Hzero].
  assert (Hlit_pc : lit_pc r = lit_insn r + 4).
  { rewrite Hrpc. apply Z.mod_small. unfold literal_size in Hhi.
    destruct (gum_instruction_is_t1_load _); lia. }
  assert (Haligned : lit_pc r .& u64 (Z.lnot 3) = 4 * ((lit_insn r + 4) / 4)).
  { rewrite Hlit_pc. apply align_down_4. unfold literal_size in Hhi.
    destruct (gum_instruction_is_t1_load _); lia. }
  enough (Hgoal :
            literal_load_address (heap w)
              (heap (snd (gum_thumb_writer_flush w))) r = slot
            /\ if gum_instruction_is_t1_load (load16 (heap w) (lit_insn r))
               then load16 (heap (snd (gum_thumb_writer_flush w)))
                      (lit_insn r) >> 8
                    = load16 (heap w) (lit_insn r) >> 8
               else load16 (heap (snd (gum_thumb_writer_flush w)))
                      (lit_insn r + 2) >> 12
                    = load16 (heap w) (lit_insn r + 2) >> 12).
  { destruct Hgoal as [-> Hhigh]. split; [exact Hload | exact Hhigh]. }
  clear Hload.
  unfold literal_load_address, patch_address, patched_literal, literal_reach,
    literal_size in *. cbv zeta in Hpatch.
  rewrite Hslot_pc, Haligned in Hpatch. rewrite Haligned.
  pose proof (load16_range (heap w) (lit_insn r)) as Hh1.
  pose proof (load16_range (heap w) (lit_insn r + 2)) as Hh2.
  destruct (gum_instruction_is_t1_load (load16 (heap w) (lit_insn r)))
    eqn:Ht1.
  - assert (Hdue : alignment_nop_due w = negb (pc w .& 3 =? 0)).
    { unfold alignment_nop_due.
      replace (existsb _ (literal_refs w)) with true; [reflexivity|].
      symmetry. apply existsb_exists. exists r. split; assumption. }
    assert (Hmod : slot mod 4 = 0).
    { unfold slot, pool_first_slot. rewrite Hdue, Hpcw.
      change 3 with (2 ^ 2 - 1). rewrite land_low_mask by lia.
      change (2 ^ 2) with 4. apply Z.even_spec in Heven.
      destruct Heven as [j Hj].
      destruct (Z.eqb_spec (code w mod 4) 0) as [E|N]; cbn [negb];
        Z.div_mod_to_equations; lia. }
    assert (Hdist : exists j, 0 <= j < 2 ^ 8
              /\ slot - 4 * ((lit_insn r + 4) / 4) = 4 * j).
    { exists ((slot - 4 * ((lit_insn r + 4) / 4)) / 4).
      Z.div_mod_to_equations. lia. }
    destruct Hdist as (j & Hj & Hdist).
    rewrite Hdist in Hpatch. unfold gsize in Hpatch.
    rewrite u32_small in Hpatch by lia.
    rewrite (Z.mul_comm 4 j), Z.div_mul in Hpatch by lia.
    rewrite Hpatch. change 0xff with (2 ^ 8 - 1) in *.
    rewrite land_low_mask in Hzero by lia.
    destruct (immediate_field _ j 8 ltac:(lia) Hh1 Hzero Hj) as [-> ->].
    split; [lia | reflexivity].
  - assert (Hdist : 0 <= slot - 4 * ((lit_insn r + 4) / 4) < 2 ^ 12).
    { Z.div_mod_to_equations. lia. }
    unfold gsize in Hpatch. rewrite u32_small in Hpatch by lia.
    rewrite Hpatch. change 0xfff with (2 ^ 12 - 1) in *.
    rewrite land_low_mask in Hzero by lia.
    destruct (immediate_field _ _ 12 ltac:(lia) Hh2 Hzero Hdist) as [-> ->].
    split; [lia | reflexivity].
Qed.

Lemma literal_loads_read_their_values_witness :
  fst (gum_thumb_writer_flush
         (perform_all (gum_thumb_writer_reset GUM_OS_LINUX zero_heap 0x1000)
            three_loads_ops)) = true
  /\ In (mkLiteralRef 0xdeadbeef 0x1000 0x1004)
       (literal_refs
          (perform_all (gum_thumb_writer_reset GUM_OS_LINUX zero_heap 0x1000)
             three_loads_ops))
  /\ load32
       (heap
          (snd (gum_thumb_writer_flush
                  (perform_all
                     (gum_thumb_writer_reset GUM_OS_LINUX zero_heap 0x1000)
                     three_loads_ops))))
       (literal_load_address
          (heap
             (perform_all
                (gum_thumb_writer_reset GUM_OS_LINUX zero_heap 0x1000)
                three_loads_ops))
          (heap
             (snd (gum_thumb_writer_flush
                     (perform_all
                        (gum_thumb_writer_reset GUM_OS_LINUX zero_heap
                           0x1000) three_loads_ops))))
          (mkLiteralRef 0xdeadbeef 0x1000 0x1004))
     = lit_val (mkLiteralRef 0xdeadbeef 0x1000 0x1004).
Proof.
  assert (H1 : fst (gum_thumb_writer_flush
                      (perform_all
                         (gum_thumb_writer_reset GUM_OS_LINUX zero_heap
                            0x1000) three_loads_ops)) = true)
    by (vm_compute; reflexivity).
  assert (H2 : In (mkLiteralRef 0xdeadbeef 0x1000 0x1004)
                 (literal_refs
                    (perform_all
                       (gum_thumb_writer_reset GUM_OS_LINUX zero_heap 0x1000)
                       three_loads_ops)))
    by (vm_compute; left; reflexivity).
  split; [exact H1|]. split; [exact H2|].
  refine (proj1 (literal_loads_read_their_values GUM_OS_LINUX zero_heap
                   0x1000 three_loads_ops
                   (mkLiteralRef 0xdeadbeef 0x1000 0x1004) _ _ _ H1 H2 _));
    [ apply Z.leb_le; vm_compute; reflexivity
    | apply Z.leb_le; vm_compute; reflexivity
    | vm_compute; reflexivity
    | apply Z.leb_le; vm_compute; reflexivity ].
Defined.

(** ** The 32-bit branch *)

Lemma land_1 x : x .& 1 = x mod 2.
Proof. change 1 with (2 ^ 1 - 1) at 1. apply land_low_mask. lia. Qed.

(** A distance of 24 bits, bit by bit and field by field. *)
Lemma distance_fields d :
  - 2 ^ 23 <= d < 2 ^ 23 ->
  exists s b22 b21 i10 i11,
    is_bit s /\ is_bit b22 /\ is_bit b21
    /\ 0 <= i10 < 2 ^ 10 /\ 0 <= i11 < 2 ^ 11
    /\ d = - 2 ^ 23 * s + 2 ^ 22 * b22 + 2 ^ 21 * b21 + 2 ^ 11 * i10 + i11.
Proof.
  intros Hd.
  exists (if d <? 0 then 1 else 0), (d mod 2 ^ 23 / 2 ^ 22),
    (d mod 2 ^ 22 / 2 ^ 21), (d mod 2 ^ 21 / 2 ^ 11), (d mod 2 ^ 11).
  unfold is_bit.
  change (2 ^ 23) with 8388608 in *. change (2 ^ 22) with 4194304.
  change (2 ^ 21) with 2097152. change (2 ^ 11) with 2048.
  change (2 ^ 10) with 1024.
  destruct (Z.ltb_spec d 0); Z.div_mod_to_equations; lia.
Qed.

Lemma u32_fields s b22 b21 i10 i11 :
  is_bit s -> is_bit b22 -> is_bit b21 ->
  0 <= i10 < 2 ^ 10 -> 0 <= i11 < 2 ^ 11 ->
  let distance_u :=
    u32 (- 2 ^ 23 * s + 2 ^ 22 * b22 + 2 ^ 21 * b21 + 2 ^ 11 * i10 + i11) in
  (distance_u >> 31) .& 1 = s
  /\ distance_u >> 22 = 1022 * s + b22
  /\ distance_u >> 21 = 2044 * s + 2 * b22 + b21
  /\ (distance_u >> 11) .& GUM_INT10_MASK = i10
  /\ distance_u .& GUM_INT11_MASK = i11.
Proof.
  unfold is_bit. intros Hs H22 H21 H10 H11. cbv zeta.
  unfold GUM_INT10_MASK, GUM_INT11_MASK.
  change 0x3ff with (2 ^ 10 - 1). change 0x7ff with (2 ^ 11 - 1).
  rewrite land_1, !land_low_mask, !Z.shiftr_div_pow2 by lia. unfold u32.
  change (2 ^ 32) with 4294967296. change (2 ^ 31) with 2147483648.
  change (2 ^ 23) with 8388608 in *. change (2 ^ 22) with 4194304.
  change (2 ^ 21) with 2097152. change (2 ^ 11) with 2048 in *.
  change (2 ^ 10) with 1024 in *.
  repeat split; Z.div_mod_to_equations; lia.
Qed.

Lemma j1_value s b22 :
  is_bit s -> is_bit b22 ->
  u16 (u32 (Z.lnot ((1022 * s + b22) .^ u16 s)) .& 1) = stored_j b22 s.
Proof. intros [-> | ->] [-> | ->]; reflexivity. Qed.

Lemma j2_value s b22 b21 :
  is_bit s -> is_bit b22 -> is_bit b21 ->
  u16 (u32 (Z.lnot ((2044 * s + 2 * b22 + b21) .^ u16 s)) .& 1)
  = stored_j b21 s.
Proof. intros [-> | ->] [-> | ->] [-> | ->]; reflexivity. Qed.

Lemma stored_j_bit b s : is_bit b -> is_bit s -> is_bit (stored_j b s).
Proof.
  intros [-> | ->] [-> | ->]; unfold is_bit; cbn; auto.
Qed.

(** I = not (J xor S) gives the bit back. *)
Lemma stored_j_inverse b s :
  is_bit b -> is_bit s -> Z.lnot (stored_j b s .^ s) .& 1 = b.
Proof. intros [-> | ->] [-> | ->]; reflexivity. Qed.

Ltac fold_constant x :=
  match goal with
  | |- context [Z.lor ?a x] =>
      let v := eval vm_compute in a in change a with v
  end.

(** The two halfwords as sums of their fields. *)
Lemma first_halfword_value s i10 :
  is_bit s -> 0 <= i10 < 2 ^ 10 ->
  u16 (0xf000 .| (u16 s << 10) .| u16 i10) = 0xf000 + 1024 * s + i10.
Proof.
  intros Hs H10. rewrite (u16_small i10) by lia.
  destruct Hs as [-> | ->]; fold_constant i10;
    rewrite (lor_field _ i10 10) by (try reflexivity; lia);
    apply u16_small; lia.
Qed.

Lemma second_halfword_value l j1 t j2 i11 :
  is_bit l -> is_bit j1 -> is_bit t -> is_bit j2 -> 0 <= i11 < 2 ^ 11 ->
  u16 (0x8000 .| (l << 14) .| (j1 << 13) .| (t << 12) .| (j2 << 11)
         .| u16 i11)
  = 0x8000 + 16384 * l + 8192 * j1 + 4096 * t + 2048 * j2 + i11.
Proof.
  intros Hl H1 Ht H2 H11. rewrite (u16_small i11) by lia.
  destruct Hl as [-> | ->], H1 as [-> | ->], Ht as [-> | ->],
    H2 as [-> | ->]; fold_constant i11;
    rewrite (lor_field _ i11 11) by (try reflexivity; lia);
    apply u16_small; lia.
Qed.

Lemma first_halfword_fields s i10 :
  is_bit s -> 0 <= i10 < 2 ^ 10 ->
  let hw1 := 0xf000 + 1024 * s + i10 in
  (hw1 >> 10) .& 1 = s /\ hw1 .& GUM_INT10_MASK = i10 /\ hw1 >> 11 = 0x1e.
Proof.
  unfold is_bit. intros Hs H10. cbv zeta. unfold GUM_INT10_MASK.
  change 0x3ff with (2 ^ 10 - 1).
  rewrite land_1, land_low_mask, !Z.shiftr_div_pow2 by lia.
  change (2 ^ 11) with 2048. change (2 ^ 10) with 1024 in *.
  repeat split; Z.div_mod_to_equations; lia.
Qed.

Lemma second_halfword_fields l j1 t j2 i11 :
  is_bit l -> is_bit j1 -> is_bit t -> is_bit j2 -> 0 <= i11 < 2 ^ 11 ->
  let hw2 :=
    0x8000 + 16384 * l + 8192 * j1 + 4096 * t + 2048 * j2 + i11 in
  (hw2 >> 13) .& 1 = j1 /\ (hw2 >> 11) .& 1 = j2
  /\ hw2 .& GUM_INT11_MASK = i11
  /\ hw2 >> 15 = 1 /\ (hw2 >> 14) .& 1 = l /\ (hw2 >> 12) .& 1 = t.
Proof.
  unfold is_bit. intros Hl H1 Ht H2 H11. cbv zeta. unfold GUM_INT11_MASK.
  change 0x7ff with (2 ^ 11 - 1).
  rewrite !land_1, land_low_mask, !Z.shiftr_div_pow2 by lia.
  change (2 ^ 15) with 32768. change (2 ^ 14) with 16384.
  change (2 ^ 13) with 8192. change (2 ^ 12) with 4096.
  change (2 ^ 11) with 2048 in *.
  repeat split; Z.div_mod_to_equations; lia.
Qed.

(** The fields put together again are the distance. *)
Lemma offset_of_fields s b22 b21 i10 i11 :
  is_bit s -> is_bit b22 -> is_bit b21 ->
  0 <= i10 < 2 ^ 10 -> 0 <= i11 < 2 ^ 11 ->
  sign_extend 24
    ((s << 23) .| (b22 << 22) .| (b21 << 21) .| (i10 << 11) .| i11)
  = - 2 ^ 23 * s + 2 ^ 22 * b22 + 2 ^ 21 * b21 + 2 ^ 11 * i10 + i11.
Proof.
  intros Hs H22 H21 H10 H11. rewrite (Z.shiftl_mul_pow2 i10) by lia.
  assert (Hmid : 0 <= i10 * 2 ^ 11 < 2 ^ 21).
  { change (2 ^ 21) with (2 ^ 10 * 2 ^ 11). nia. }
  assert (Hlow : forall k, (k + i10 * 2 ^ 11) mod 2 ^ 11 = k mod 2 ^ 11)
    by (intros k; apply Z.mod_add; lia).
  destruct Hs as [-> | ->], H22 as [-> | ->], H21 as [-> | ->];
    fold_constant (i10 * 2 ^ 11);
    rewrite (lor_field _ (i10 * 2 ^ 11) 21) by (try reflexivity; lia);
    rewrite (lor_field _ i11 11)
      by (try lia; rewrite Hlow; reflexivity);
    unfold sign_extend; cbv zeta;
    change (2 ^ 24) with 16777216; change (2 ^ (24 - 1)) with 8388608;
    change (2 ^ 23) with 8388608; change (2 ^ 22) with 4194304;
    change (2 ^ 21) with 2097152 in *; change (2 ^ 11) with 2048 in *;
    rewrite Z.mod_small by lia;
    match goal with
    | |- context [?a <? ?b] => destruct (Z.ltb_spec a b)
    end; lia.
Qed.

Lemma put_two_instructions w a b :
  let w' :=
    gum_thumb_writer_put_instruction
      (gum_thumb_writer_put_instruction w a) b in
  load16 (heap w') (code w) = u16 a
  /\ load16 (heap w') (code w + 2) = u16 b.
Proof.
  cbv zeta. cbn [gum_thumb_writer_put_instruction advance with_heap heap
                   code].
  replace (code w + 2 * 1) with (code w + 2) by lia.
  rewrite load16_store16_other, !load16_store16, !u16_idem by lia.
  split; reflexivity.
Qed.

(** What [put_branch_distance] emits for a distance of 24 bits. *)
Lemma put_branch_distance_fields w d link thumb :
  - 2 ^ 23 <= d < 2 ^ 23 ->
  let w' := put_branch_distance w d link thumb in
  let hw1 := load16 (heap w') (code w) in
  let hw2 := load16 (heap w') (code w + 2) in
  wide_branch_offset hw1 hw2 = d
  /\ hw1 >> 11 = 0x1e /\ hw2 >> 15 = 1
  /\ (hw2 >> 14) .& 1 = gboolean link
  /\ (hw2 >> 12) .& 1 = gboolean thumb.
Proof.
  intros Hd. cbv zeta.
  destruct (distance_fields d Hd)
    as (s & b22 & b21 & i10 & i11 & Hs & H22 & H21 & H10 & H11 & ->).
  destruct (u32_fields s b22 b21 i10 i11 Hs H22 H21 H10 H11)
    as (Es & E22 & E21 & E10 & E11).
  unfold put_branch_distance. cbv zeta.
  match goal with
  | |- context [gum_thumb_writer_put_instruction
                  (gum_thumb_writer_put_instruction w ?a) ?b] =>
      destruct (put_two_instructions w a b) as [-> ->]
  end.
  rewrite Es, E22, E21, E10, E11.
  rewrite (j1_value s b22 Hs H22), (j2_value s b22 b21 Hs H22 H21).
  assert (Hl : is_bit (gboolean link)) by (destruct link; cbv; auto).
  assert (Ht : is_bit (gboolean thumb)) by (destruct thumb; cbv; auto).
  pose proof (stored_j_bit b22 s H22 Hs) as Hj1.
  pose proof (stored_j_bit b21 s H21 Hs) as Hj2.
  rewrite (first_halfword_value s i10 Hs H10).
  rewrite (second_halfword_value _ _ _ _ i11 Hl Hj1 Ht Hj2 H11).
  destruct (first_halfword_fields s i10 Hs H10) as (Fs & F10 & Fop).
  destruct (second_halfword_fields _ _ _ _ i11 Hl Hj1 Ht Hj2 H11)
    as (F1 & F2 & F11 & Fop2 & Fl & Ft).
  split; [|repeat split; assumption].
  unfold wide_branch_offset. cbv zeta.
  rewrite Fs, F10, F1, F2, F11.
  rewrite (stored_j_inverse b22 s H22 Hs), (stored_j_inverse b21 s H21 Hs).
  apply offset_of_fields; assumption.
Qed.

Lemma u32_u64_add a b : u32 (u64 a + b) = u32 (a + b).
Proof.
  unfold u32, u64. pose proof (Z.div_mod a (2 ^ 64)) as E.
  replace (a mod 2 ^ 64 + b)
    with (a + b + (- (2 ^ 32 * (a / 2 ^ 64))) * 2 ^ 32) by lia.
  apply Z.mod_add. lia.
Qed.

Lemma even_u64 a : Z.even (u64 a) = Z.even a.
Proof.
  unfold u64. pose proof (Z.div_mod a (2 ^ 64)) as E.
  replace (a mod 2 ^ 64) with (a - 2 * (2 ^ 63 * (a / 2 ^ 64))) by lia.
  rewrite Z.even_sub, Z.even_mul. cbn [Z.even orb].
  destruct (Z.even a); reflexivity.
Qed.

Lemma even_target target : Z.even (u64 target .& u64 (Z.lnot 1)) = true.
Proof.
  rewrite land_not_1_clearbit, <- Z.negb_odd, <- Z.bit0_odd.
  rewrite Z.clearbit_eq. reflexivity.
Qed.

(** X13: a branch to an address within 2^23 halfwords holds its distance:
    the fields S, J1, J2, imm10 and imm11 of the two halfwords read back
    as the distance, the opcode bits and the link and thumb bits are as
    asked for, and from an even pc the branch lands on the target with
    its bit 0 cleared, in the 32 bits of an address. *)
Theorem branch_imm_reaches_its_target (w : GumThumbWriter) (target : Z)
    (link thumb : bool) :
  let d := branch_imm_distance w target in
  let w' := gum_thumb_writer_put_branch_imm w target link thumb in
  let hw1 := load16 (heap w') (code w) in
  let hw2 := load16 (heap w') (code w + 2) in
  - 2 ^ 23 <= d < 2 ^ 23 ->
  wide_branch_offset hw1 hw2 = d
  /\ hw1 >> 11 = 0x1e /\ hw2 >> 15 = 1
  /\ (hw2 >> 14) .& 1 = gboolean link
  /\ (hw2 >> 12) .& 1 = gboolean thumb
  /\ (Z.even (pc w) = true ->
      u32 (pc w + 4 + 2 * d) = u32 (u64 target .& u64 (Z.lnot 1))).
Proof.
  cbv zeta. intros Hd. unfold gum_thumb_writer_put_branch_imm.
  destruct (put_branch_distance_fields w (branch_imm_distance w target)
              link thumb Hd) as (H1 & H2 & H3 & H4 & H5).
  repeat split; try assumption.
  intros Heven. rewrite <- u32_u64_add. unfold branch_imm_distance.
  apply halved_distance_lands.
  rewrite Z.even_sub, even_target, even_u64, Z.even_add, Heven.
  reflexivity.
Qed.

Lemma branch_imm_reaches_its_target_witness :
  - 2 ^ 23 <= branch_imm_distance writer_at_0x1000 0x2001 < 2 ^ 23
  /\ wide_branch_offset
       (load16
          (heap (gum_thumb_writer_put_branch_imm writer_at_0x1000 0x2001
                   true true))
          (code writer_at_0x1000))
       (load16
          (heap (gum_thumb_writer_put_branch_imm writer_at_0x1000 0x2001
                   true true))
          (code writer_at_0x1000 + 2))
     = branch_imm_distance writer_at_0x1000 0x2001.
Proof.
  assert (H : - 2 ^ 23 <= branch_imm_distance writer_at_0x1000 0x2001
              < 2 ^ 23)
    by (split; [apply Z.leb_le | apply Z.ltb_lt]; vm_compute; reflexivity).
  split; [exact H|].
  exact (proj1 (branch_imm_reaches_its_target writer_at_0x1000 0x2001
                  true true H)).
Defined.

Lemma u32_land_1 y : u32 y .& 1 = y mod 2.
Proof.
  rewrite land_1. unfold u32. change (2 ^ 32) with 4294967296.
  Z.div_mod_to_equations. lia.
Qed.

(** The fields of the encoding take the bits 0 to 22 of a distance that
    is not negative: 2^23 halfwords further on they are the same. *)
Lemma put_branch_distance_wraps w d link thumb :
  0 <= d -> d + 2 ^ 23 < 2 ^ 31 ->
  put_branch_distance w (d + 2 ^ 23) link thumb
  = put_branch_distance w d link thumb.
Proof.
  intros H0 H1. unfold put_branch_distance. cbv zeta.
  rewrite (u32_small d), (u32_small (d + 2 ^ 23)) by lia.
  assert (Es : ((d + 2 ^ 23) >> 31) .& 1 = (d >> 31) .& 1).
  { rewrite !land_1, !Z.shiftr_div_pow2 by lia.
    rewrite !Z.div_small by lia. reflexivity. }
  assert (Hs : u16 ((d >> 31) .& 1) = 0).
  { rewrite land_1, Z.shiftr_div_pow2 by lia.
    rewrite Z.div_small by lia. reflexivity. }
  assert (E22 : u32 (Z.lnot ((d + 2 ^ 23) >> 22)) .& 1
                = u32 (Z.lnot (d >> 22)) .& 1).
  { rewrite !u32_land_1, !Z.shiftr_div_pow2 by lia. unfold Z.lnot.
    change (2 ^ 23) with (2 * 2 ^ 22).
    rewrite Z.div_add by lia. Z.div_mod_to_equations. lia. }
  assert (E21 : u32 (Z.lnot ((d + 2 ^ 23) >> 21)) .& 1
                = u32 (Z.lnot (d >> 21)) .& 1).
  { rewrite !u32_land_1, !Z.shiftr_div_pow2 by lia. unfold Z.lnot.
    change (2 ^ 23) with (4 * 2 ^ 21).
    rewrite Z.div_add by lia. Z.div_mod_to_equations. lia. }
  assert (E10 : ((d + 2 ^ 23) >> 11) .& GUM_INT10_MASK
                = (d >> 11) .& GUM_INT10_MASK).
  { unfold GUM_INT10_MASK. change 0x3ff with (2 ^ 10 - 1).
    rewrite !land_low_mask, !Z.shiftr_div_pow2 by lia.
    change (2 ^ 23) with (4 * 2 ^ 10 * 2 ^ 11).
    rewrite Z.div_add, Z.mod_add by lia. reflexivity. }
  assert (E11 : (d + 2 ^ 23) .& GUM_INT11_MASK = d .& GUM_INT11_MASK).
  { unfold GUM_INT11_MASK. change 0x7ff with (2 ^ 11 - 1).
    rewrite !land_low_mask by lia.
    change (2 ^ 23) with (2 ^ 12 * 2 ^ 11). apply Z.mod_add. lia. }
  rewrite Es, Hs, !Z.lxor_0_r, E22, E21, E10, E11. reflexivity.
Qed.

(** X14: the branch to an address checks no range: a target whose
    distance is 2^23 halfwords, 16 MB, more than a distance that is
    not negative gets the very same two halfwords. *)
Theorem branch_imm_out_of_range_wraps (w : GumThumbWriter)
    (target target' : Z) (link thumb : bool) :
  0 <= branch_imm_distance w target ->
  branch_imm_distance w target'
  = branch_imm_distance w target + 2 ^ 23 ->
  branch_imm_distance w target' < 2 ^ 31 ->
  gum_thumb_writer_put_branch_imm w target' link thumb
  = gum_thumb_writer_put_branch_imm w target link thumb.
Proof.
  intros H0 E H1. unfold gum_thumb_writer_put_branch_imm. rewrite E in *.
  apply put_branch_distance_wraps; assumption.
Qed.

Lemma branch_imm_out_of_range_wraps_witness :
  0 <= branch_imm_distance writer_at_0x1000 0x2000
  /\ branch_imm_distance writer_at_0x1000 0x1002000
     = branch_imm_distance writer_at_0x1000 0x2000 + 2 ^ 23
  /\ gum_thumb_writer_put_branch_imm writer_at_0x1000 0x1002000 false true
     = gum_thumb_writer_put_branch_imm writer_at_0x1000 0x2000 false true.
Proof.
  assert (H0 : 0 <= branch_imm_distance writer_at_0x1000 0x2000)
    by (apply Z.leb_le; vm_compute; reflexivity).
  assert (E : branch_imm_distance writer_at_0x1000 0x1002000
              = branch_imm_distance writer_at_0x1000 0x2000 + 2 ^ 23)
    by (vm_compute; reflexivity).
  assert (H1 : branch_imm_distance writer_at_0x1000 0x1002000 < 2 ^ 31)
    by (apply Z.ltb_lt; vm_compute; reflexivity).
  split; [exact H0|]. split; [exact E|].
  exact (branch_imm_out_of_range_wraps writer_at_0x1000 0x2000 0x1002000
           false true H0 E H1).
Defined.

(** ** Registers in their fields *)

Lemma emitted_halfword w insn :
  load16 (heap (gum_thumb_writer_put_instruction w insn)) (code w)
  = u16 insn.
Proof. apply (put_instruction_effect w insn). Qed.

(** X15: a move between registers holds both of them, whichever they
    are: between low registers it is the [adds rd, rs, #0] with a
    three-bit field each, otherwise the [mov] with four bits for the
    source and the high bit of the destination in bit 7. *)
Theorem mov_reg_reg_holds_its_registers (w : GumThumbWriter)
    (dst_reg src_reg : arm_reg) :
  let hw :=
    load16 (heap (gum_thumb_writer_put_mov_reg_reg w dst_reg src_reg))
      (code w) in
  if (arm_reg_number dst_reg <=? 7) && (arm_reg_number src_reg <=? 7)
  then
    hw >> 6 = 0x1c00 >> 6
    /\ (hw >> 3) .& 7 = arm_reg_number src_reg
    /\ hw .& 7 = arm_reg_number dst_reg
  else
    hw >> 8 = 0x46
    /\ (hw >> 3) .& 0xf = arm_reg_number src_reg
    /\ (((hw >> 7) .& 1) << 3) .| (hw .& 7) = arm_reg_number dst_reg.
Proof.
  cbv zeta. unfold gum_thumb_writer_put_mov_reg_reg. cbv zeta.
  rewrite emitted_halfword.
  destruct dst_reg, src_reg; vm_compute; repeat split; reflexivity.
Qed.

(** X16: [bx] and [blx] hold their register, whichever it is, in the
    bits 3 to 6, and differ in bit 7 only. *)
Theorem bx_blx_reg_hold_their_register (w : GumThumbWriter)
    (reg : arm_reg) :
  let bx :=
    load16 (heap (gum_thumb_writer_put_bx_reg w reg)) (code w) in
  let blx :=
    load16 (heap (gum_thumb_writer_put_blx_reg w reg)) (code w) in
  (bx >> 3) .& 0xf = arm_reg_number reg
  /\ bx .& 7 = 0 /\ bx >> 7 = 0x4700 >> 7
  /\ blx = bx .| 0x80.
Proof.
  cbv zeta.
  unfold gum_thumb_writer_put_bx_reg, gum_thumb_writer_put_blx_reg.
  cbv zeta. rewrite !emitted_halfword.
  destruct reg; vm_compute; repeat split; reflexivity.
Qed.

Lemma shifted_number_8 hi lo :
  arm_reg_number hi = arm_reg_number lo + 8 ->
  index (gum_arm_reg_describe hi) << 8
  = 0x800 .| (index (gum_arm_reg_describe lo) << 8)
  /\ index (gum_arm_reg_describe hi) << 6
     = 0x200 .| (index (gum_arm_reg_describe lo) << 6).
Proof.
  destruct hi, lo; intros H; try discriminate H; split; reflexivity.
Qed.

(** X17: [mov] of an immediate checks no register: for a register from
    r8 up it emits the [cmp] of the register eight below with that
    immediate. *)
Theorem mov_reg_u8_of_high_register_is_cmp (w : GumThumbWriter)
    (high low : arm_reg) (imm_value : Z) :
  arm_reg_number high = arm_reg_number low + 8 ->
  gum_thumb_writer_put_mov_reg_u8 w high imm_value
  = gum_thumb_writer_put_cmp_reg_imm w low imm_value.
Proof.
  intros H.
  unfold gum_thumb_writer_put_mov_reg_u8, gum_thumb_writer_put_cmp_reg_imm.
  cbv zeta. destruct (shifted_number_8 high low H) as [-> _].
  rewrite Z.lor_assoc. reflexivity.
Qed.

Lemma mov_reg_u8_of_high_register_is_cmp_witness :
  arm_reg_number ARM_REG_R8 = arm_reg_number ARM_REG_R0 + 8
  /\ gum_thumb_writer_put_mov_reg_u8 writer_at_0x1000 ARM_REG_R8 1
     = gum_thumb_writer_put_cmp_reg_imm writer_at_0x1000 ARM_REG_R0 1.
Proof.
  assert (H : arm_reg_number ARM_REG_R8 = arm_reg_number ARM_REG_R0 + 8)
    by reflexivity.
  split; [exact H|].
  exact (mov_reg_u8_of_high_register_is_cmp writer_at_0x1000 ARM_REG_R8
           ARM_REG_R0 1 H).
Defined.

(** X18: the three-register [add] checks no register: with a right
    register from r8 up, and a destination other than the left register,
    it emits the [sub] of the register eight below. *)
Theorem add_reg_reg_reg_of_high_register_is_sub (w : GumThumbWriter)
    (dst_reg left_reg high low : arm_reg) :
  arm_reg_number high = arm_reg_number low + 8 ->
  arm_reg_number left_reg <> arm_reg_number dst_reg ->
  gum_thumb_writer_put_add_reg_reg_reg w dst_reg left_reg high
  = gum_thumb_writer_put_sub_reg_reg_reg w dst_reg left_reg low.
Proof.
  intros H Hne.
  unfold gum_thumb_writer_put_add_reg_reg_reg,
    gum_thumb_writer_put_sub_reg_reg_reg. cbv zeta.
  replace (meta (gum_arm_reg_describe left_reg)
           =? meta (gum_arm_reg_describe dst_reg)) with false
    by (symmetry; apply Z.eqb_neq; cbn; exact Hne).
  destruct (shifted_number_8 high low H) as [_ ->].
  rewrite Z.lor_assoc. reflexivity.
Qed.

Lemma add_reg_reg_reg_of_high_register_is_sub_witness :
  arm_reg_number ARM_REG_R8 = arm_reg_number ARM_REG_R0 + 8
  /\ arm_reg_number ARM_REG_R1 <> arm_reg_number ARM_REG_R2
  /\ gum_thumb_writer_put_add_reg_reg_reg writer_at_0x1000 ARM_REG_R2
       ARM_REG_R1 ARM_REG_R8
     = gum_thumb_writer_put_sub_reg_reg_reg writer_at_0x1000 ARM_REG_R2
         ARM_REG_R1 ARM_REG_R0.
Proof.
  assert (H : arm_reg_number ARM_REG_R8 = arm_reg_number ARM_REG_R0 + 8)
    by reflexivity.
  assert (Hne : arm_reg_number ARM_REG_R1 <> arm_reg_number ARM_REG_R2)
    by discriminate.
  split; [exact H|]. split; [exact Hne|].
  exact (add_reg_reg_reg_of_high_register_is_sub writer_at_0x1000
           ARM_REG_R2 ARM_REG_R1 ARM_REG_R8 ARM_REG_R0 H Hne).
Defined.

(** ** Cursor, offset and the size of the pool *)

(** X19: as long as every skip was of an even number of bytes, the offset
    of a writer reached from a reset is defined: it is the distance in
    bytes from the base to the cursor, which is not below the base, in 32
    bits, and the distance itself when that is less than 2^32. *)
Theorem offset_is_the_distance_to_the_cursor (native_os : GumOS)
    (m : memory) (address : Z) (ops : list operation) :
  let w := perform_all (gum_thumb_writer_reset native_os m address) ops in
  even_skips ops = true ->
  base w <= gum_thumb_writer_cur w
  /\ gum_thumb_writer_offset w =
     Some (u32 (gum_thumb_writer_cur w - base w))
  /\ (gum_thumb_writer_cur w - base w < 2 ^ 32 ->
      gum_thumb_writer_offset w = Some (gum_thumb_writer_cur w - base w)).
Proof.
  cbv zeta. intros Hops.
  destruct (even_skips_even_distance native_os m address ops Hops)
    as [Hle Hmod].
  set (w := perform_all (gum_thumb_writer_reset native_os m address) ops)
    in *.
  unfold gum_thumb_writer_cur.
  assert (Hoff : gum_thumb_writer_offset w = Some (u32 (code w - base w))).
  { unfold gum_thumb_writer_offset. rewrite Hmod. cbn [Z.eqb].
    f_equal. unfold gsize, u32.
    rewrite Z.mod_mod, Z.mul_mod_idemp_l by lia. f_equal.
    pose proof (Z.div_mod (code w - base w) 2). lia. }
  split; [exact Hle|]. split; [exact Hoff|].
  intros Hlt. rewrite Hoff, u32_small by lia. reflexivity.
Qed.

Lemma offset_is_the_distance_to_the_cursor_witness :
  even_skips nop_and_even_skip_ops = true
  /\ gum_thumb_writer_offset
       (perform_all (gum_thumb_writer_reset GUM_OS_LINUX zero_heap 0x1000)
          nop_and_even_skip_ops) = Some 6.
Proof.
  assert (H : even_skips nop_and_even_skip_ops = true) by reflexivity.
  split; [exact H|].
  destruct (offset_is_the_distance_to_the_cursor GUM_OS_LINUX zero_heap
              0x1000 nop_and_even_skip_ops H) as (_ & Hoff & _).
  rewrite Hoff. vm_compute. reflexivity.
Defined.

Lemma first_occurrences_length vals :
  (length (first_occurrences vals) <= length vals)%nat.
Proof.
  induction vals as [|v rest IH]; cbn [first_occurrences length]; [lia|].
  pose proof (filter_length_le (fun x => negb (x =? v))
                (first_occurrences rest)). lia.
Qed.

Lemma flush_code_bound w :
  well_formed w = true ->
  code (snd (gum_thumb_writer_flush w))
  <= code w + 2 + 4 * Z.of_nat (length (literal_refs w)).
Proof.
  intros Hwf. pose proof (flush_label_refs_agree w Hwf) as Hm.
  unfold gum_thumb_writer_flush. rewrite flush_label_loop.
  destruct (flush_label_refs _ _ _) as [ok m]. cbn [snd] in Hm.
  destruct ok; cbn [negb snd];
    [|cbn [code with_literal_refs with_label_refs with_heap]; lia].
  change (literal_refs (with_label_refs (with_heap w m) []))
    with (literal_refs w).
  destruct (0 <? _); cbn [snd];
    [|cbn [code with_label_refs with_heap]; lia].
  set (w1 := with_label_refs (with_heap w m) []).
  assert (Hord : literals_in_order (heap w1) (base w) (literal_refs w1)
                   (code w1) = true).
  { cbn. rewrite (agree_literals_in_order (heap w) m) by exact Hm.
    apply well_formed_literals, Hwf. }
  destruct (flush_literal_refs_flushed w1 (base w) Hord)
    as [Hcode _ _ _ _ _ _ _ _ _ _ _ _].
  rewrite Hcode. unfold pool_first_slot, pool_values.
  change (code w1) with (code w).
  change (literal_refs w1) with (literal_refs w).
  pose proof (first_occurrences_length (map lit_val (literal_refs w)))
    as Hlen.
  rewrite length_map in Hlen.
  destruct (alignment_nop_due w1); lia.
Qed.

(** X20: a flush moves the cursor on by at most two bytes of padding and
    four bytes for each pending literal load, at most 402 bytes in all. *)
Theorem flush_emits_a_bounded_pool (native_os : GumOS) (m : memory)
    (address : Z) (ops : list operation) :
  let w := perform_all (gum_thumb_writer_reset native_os m address) ops in
  let w' := snd (gum_thumb_writer_flush w) in
  code w <= code w'
  /\ code w' <= code w + 2 + 4 * Z.of_nat (length (literal_refs w))
  /\ code w' <= code w + 402.
Proof.
  cbv zeta.
  set (w := perform_all (gum_thumb_writer_reset native_os m address) ops).
  assert (Hwf : well_formed w = true) by apply reached_well_formed.
  assert (Hcap : within_capacity w)
    by apply within_capacity_perform_all, within_capacity_reset.
  destruct Hcap as (_ & _ & Hlit).
  unfold GUM_MAX_LITERAL_REF_COUNT in Hlit.
  pose proof (flush_code_bound w Hwf) as Hbound.
  destruct (flush_carried w) as (_ & _ & _ & _ & _ & _ & Hc).
  lia.
Qed.

(** ** Immediates in their fields *)

Lemma ABS_abs a : ABS a = Z.abs a.
Proof. unfold ABS. destruct (Z.ltb_spec a 0); lia. Qed.

Lemma add_reg_imm_halfword w dst_reg imm_value :
  fst (gum_thumb_writer_put_add_reg_imm w dst_reg imm_value) = true ->
  load16 (heap (snd (gum_thumb_writer_put_add_reg_imm w dst_reg imm_value)))
    (code w)
  = if meta (gum_arm_reg_describe dst_reg) =? GUM_ARM_MREG_SP
    then u16 (0xb000 .| (if imm_value <? 0 then 0x0080 else 0x0000)
                .| ABS (Z.quot imm_value 4))
    else u16 (0x3000 .| (if imm_value <? 0 then 0x0800 else 0x0000)
                .| (index (gum_arm_reg_describe dst_reg) << 8)
                .| ABS imm_value).
Proof.
  unfold gum_thumb_writer_put_add_reg_imm. cbv zeta.
  destruct (_ =? GUM_ARM_MREG_SP).
  - destruct (negb _); cbn [fst snd]; [discriminate|]. intros _.
    rewrite emitted_halfword. apply u16_idem.
  - cbn [fst snd]. intros _. rewrite emitted_halfword. apply u16_idem.
Qed.

(** X21: an add or sub of an immediate within the range of its field holds
    its operands: for a low register and a magnitude up to 255, the
    register, the magnitude and the sign in bit 11; for sp and a
    multiple of four up to 508, the magnitude in words and the sign in
    bit 7. *)
Theorem add_reg_imm_holds_its_operands (w : GumThumbWriter)
    (dst_reg : arm_reg) (imm_value : Z) :
  let hw :=
    load16
      (heap (snd (gum_thumb_writer_put_add_reg_imm w dst_reg imm_value)))
      (code w) in
  let negative := if imm_value <? 0 then 1 else 0 in
  (arm_reg_number dst_reg <= 7 -> - 255 <= imm_value <= 255 ->
   fst (gum_thumb_writer_put_add_reg_imm w dst_reg imm_value) = true
   /\ hw >> 12 = 3 /\ (hw >> 11) .& 1 = negative
   /\ (hw >> 8) .& 7 = arm_reg_number dst_reg
   /\ hw .& 0xff = Z.abs imm_value)
  /\ (dst_reg = ARM_REG_SP -> Z.rem imm_value 4 = 0 ->
      - 508 <= imm_value <= 508 ->
      fst (gum_thumb_writer_put_add_reg_imm w dst_reg imm_value) = true
      /\ hw >> 8 = 0xb0 /\ (hw >> 7) .& 1 = negative
      /\ 4 * (hw .& 0x7f) = Z.abs imm_value).
Proof.
  cbv zeta. split.
  - intros Hlow Himm.
    assert (Hok : fst (gum_thumb_writer_put_add_reg_imm w dst_reg imm_value)
                  = true).
    { unfold gum_thumb_writer_put_add_reg_imm. cbv zeta.
      destruct dst_reg; cbn in Hlow; try lia; reflexivity. }
    split; [exact Hok|]. rewrite (add_reg_imm_halfword w _ _ Hok).
    rewrite !ABS_abs.
    assert (Ha : 0 <= Z.abs imm_value < 2 ^ 8) by (cbn; lia).
    change 0xff with (2 ^ 8 - 1).
    destruct dst_reg; cbn in Hlow; try lia;
      destruct (imm_value <? 0);
      cbn [gum_arm_reg_describe meta index arm_reg_number Z.add
             GUM_ARM_MREG_R0 GUM_ARM_MREG_SP Z.eqb Pos.eqb Z.sub Z.opp
             Z.pos_sub];
      fold_constant (Z.abs imm_value);
      match goal with
      | |- context [u16 (?k .| Z.abs imm_value)] =>
          destruct (immediate_field k (Z.abs imm_value) 8)
            as [Hhigh ->]; [lia | cbn; lia | reflexivity | exact Ha |]
      end;
      replace 12 with (8 + 4) by reflexivity;
      replace 11 with (8 + 3) by reflexivity;
      rewrite <- !Z.shiftr_shiftr, Hhigh by lia;
      repeat split; reflexivity.
  - intros -> Hrem Himm.
    assert (Hok : fst (gum_thumb_writer_put_add_reg_imm w ARM_REG_SP
                         imm_value) = true).
    { unfold gum_thumb_writer_put_add_reg_imm. cbv zeta.
      cbn [gum_arm_reg_describe meta arm_reg_number].
      change (GUM_ARM_MREG_R0 + 13 =? GUM_ARM_MREG_SP) with true.
      cbv iota. rewrite Hrem. reflexivity. }
    split; [exact Hok|]. rewrite (add_reg_imm_halfword w _ _ Hok).
    cbn [gum_arm_reg_describe meta arm_reg_number].
    change (GUM_ARM_MREG_R0 + 13 =? GUM_ARM_MREG_SP) with true. cbv iota.
    rewrite !ABS_abs.
    assert (Hq : Z.abs imm_value = 4 * Z.abs (Z.quot imm_value 4)).
    { pose proof (Z.quot_rem' imm_value 4) as E. rewrite Hrem in E. lia. }
    assert (Ha : 0 <= Z.abs (Z.quot imm_value 4) < 2 ^ 7) by (cbn; lia).
    rewrite Hq. change 0x7f with (2 ^ 7 - 1).
    destruct (imm_value <? 0);
      fold_constant (Z.abs (Z.quot imm_value 4));
      match goal with
      | |- context [u16 (?k .| Z.abs ?q)] =>
          destruct (immediate_field k (Z.abs q) 7)
            as [Hhigh ->]; [lia | cbn; lia | reflexivity | exact Ha |]
      end;
      replace 8 with (7 + 1) by reflexivity;
      rewrite <- !Z.shiftr_shiftr, Hhigh by lia;
      repeat split; reflexivity.
Qed.

Lemma add_reg_imm_holds_its_operands_witness :
  arm_reg_number ARM_REG_R1 <= 7 /\ - 255 <= -5 <= 255
  /\ fst (gum_thumb_writer_put_add_reg_imm writer_at_0x1000 ARM_REG_R1 (-5))
     = true.
Proof.
  assert (H1 : arm_reg_number ARM_REG_R1 <= 7) by (cbn; lia).
  assert (H2 : - 255 <= -5 <= 255) by lia.
  split; [exact H1|]. split; [exact H2|].
  exact (proj1 (proj1 (add_reg_imm_holds_its_operands writer_at_0x1000
                         ARM_REG_R1 (-5)) H1 H2)).
Defined.

Lemma add_reg_reg_imm_halfword w dst_reg left_reg right_value :
  arm_reg_number left_reg <> arm_reg_number dst_reg ->
  fst (gum_thumb_writer_put_add_reg_reg_imm w dst_reg left_reg right_value)
  = true ->
  load16
    (heap (snd (gum_thumb_writer_put_add_reg_reg_imm w dst_reg left_reg
                  right_value))) (code w)
  = if (meta (gum_arm_reg_describe left_reg) =? GUM_ARM_MREG_SP)
       || (meta (gum_arm_reg_describe left_reg) =? GUM_ARM_MREG_PC)
    then
      u16 (0xa000
           .| (if meta (gum_arm_reg_describe left_reg) =? GUM_ARM_MREG_SP
               then 0x0800 else 0x0000)
           .| (index (gum_arm_reg_describe dst_reg) << 8)
           .| Z.quot right_value 4)
    else
      u16 (0x1c00 .| (if right_value <? 0 then 0x0200 else 0x0000)
           .| (ABS right_value << 6)
           .| (index (gum_arm_reg_describe left_reg) << 3)
           .| index (gum_arm_reg_describe dst_reg)).
Proof.
  intros Hne. unfold gum_thumb_writer_put_add_reg_reg_imm. cbv zeta.
  replace (meta (gum_arm_reg_describe left_reg)
           =? meta (gum_arm_reg_describe dst_reg)) with false
    by (symmetry; apply Z.eqb_neq; cbn; exact Hne).
  destruct (_ || _).
  - destruct (_ || _); cbn [fst snd]; [discriminate|]. intros _.
    rewrite emitted_halfword. apply u16_idem.
  - destruct (7 <? _); cbn [fst snd]; [discriminate|]. intros _.
    rewrite emitted_halfword. apply u16_idem.
Qed.

(** X22: a three-operand add or sub of an immediate within the range of
    its field holds its operands: between two different low registers
    and for a magnitude up to 7, both registers, the magnitude and the
    sign in bit 9; from sp or pc into a low register and for a multiple
    of four up to 1020, the register, the immediate in words and the
    base in bit 11. *)
Theorem add_reg_reg_imm_holds_its_operands (w : GumThumbWriter)
    (dst_reg left_reg : arm_reg) (right_value : Z) :
  let hw :=
    load16
      (heap (snd (gum_thumb_writer_put_add_reg_reg_imm w dst_reg left_reg
                    right_value))) (code w) in
  arm_reg_number dst_reg <= 7 ->
  (arm_reg_number left_reg <= 7 ->
   arm_reg_number left_reg <> arm_reg_number dst_reg ->
   - 7 <= right_value <= 7 ->
   fst (gum_thumb_writer_put_add_reg_reg_imm w dst_reg left_reg right_value)
   = true
   /\ hw >> 10 = 7
   /\ (hw >> 9) .& 1 = (if right_value <? 0 then 1 else 0)
   /\ (hw >> 6) .& 7 = Z.abs right_value
   /\ (hw >> 3) .& 7 = arm_reg_number left_reg
   /\ hw .& 7 = arm_reg_number dst_reg)
  /\ (left_reg = ARM_REG_SP \/ left_reg = ARM_REG_PC ->
      Z.rem right_value 4 = 0 -> 0 <= right_value <= 1020 ->
      fst (gum_thumb_writer_put_add_reg_reg_imm w dst_reg left_reg
             right_value) = true
      /\ hw >> 12 = 0xa
      /\ (hw >> 11) .& 1
         = (if arm_reg_eqb left_reg ARM_REG_SP then 1 else 0)
      /\ (hw >> 8) .& 7 = arm_reg_number dst_reg
      /\ 4 * (hw .& 0xff) = right_value).
Proof.
  cbv zeta. intros Hdst. split.
  - intros Hleft Hne Himm.
    assert (Hok : fst (gum_thumb_writer_put_add_reg_reg_imm w dst_reg
                         left_reg right_value) = true).
    { unfold gum_thumb_writer_put_add_reg_reg_imm. cbv zeta.
      replace (meta (gum_arm_reg_describe left_reg)
               =? meta (gum_arm_reg_describe dst_reg)) with false
        by (symmetry; apply Z.eqb_neq; cbn; exact Hne).
      replace ((meta (gum_arm_reg_describe left_reg) =? GUM_ARM_MREG_SP)
               || (meta (gum_arm_reg_describe left_reg)
                   =? GUM_ARM_MREG_PC)) with false
        by (destruct left_reg; cbn in Hleft; try lia; reflexivity).
      rewrite ABS_abs.
      replace (7 <? Z.abs right_value) with false
        by (symmetry; apply Z.ltb_ge; lia).
      reflexivity. }
    split; [exact Hok|].
    rewrite (add_reg_reg_imm_halfword w _ _ _ Hne Hok).
    assert (Hcases : right_value = -7 \/ right_value = -6
              \/ right_value = -5 \/ right_value = -4 \/ right_value = -3
              \/ right_value = -2 \/ right_value = -1 \/ right_value = 0
              \/ right_value = 1 \/ right_value = 2 \/ right_value = 3
              \/ right_value = 4 \/ right_value = 5 \/ right_value = 6
              \/ right_value = 7) by lia.
    destruct dst_reg; cbn in Hdst; try lia;
      destruct left_reg; cbn in Hleft, Hne; try lia; try congruence;
      repeat (destruct Hcases as [-> | Hcases]);
      try subst right_value; vm_compute; repeat split; reflexivity.
  - intros Hbase Hrem Himm.
    assert (Hne : arm_reg_number left_reg <> arm_reg_number dst_reg)
      by (destruct Hbase as [-> | ->]; cbn; lia).
    assert (Hok : fst (gum_thumb_writer_put_add_reg_reg_imm w dst_reg
                         left_reg right_value) = true).
    { unfold gum_thumb_writer_put_add_reg_reg_imm. cbv zeta.
      replace (meta (gum_arm_reg_describe left_reg)
               =? meta (gum_arm_reg_describe dst_reg)) with false
        by (symmetry; apply Z.eqb_neq; cbn; exact Hne).
      replace ((meta (gum_arm_reg_describe left_reg) =? GUM_ARM_MREG_SP)
               || (meta (gum_arm_reg_describe left_reg)
                   =? GUM_ARM_MREG_PC)) with true
        by (destruct Hbase as [-> | ->]; reflexivity).
      rewrite Hrem.
      replace (right_value <? 0) with false
        by (symmetry; apply Z.ltb_ge; lia).
      reflexivity. }
    split; [exact Hok|].
    rewrite (add_reg_reg_imm_halfword w _ _ _ Hne Hok).
    assert (Hq : right_value = 4 * Z.quot right_value 4).
    { pose proof (Z.quot_rem' right_value 4) as E. rewrite Hrem in E. lia. }
    assert (Ha : 0 <= Z.quot right_value 4 < 2 ^ 8) by (cbn; lia).
    change 0xff with (2 ^ 8 - 1).
    destruct Hbase as [-> | ->];
      destruct dst_reg; cbn in Hdst; try lia;
      cbn [gum_arm_reg_describe meta index arm_reg_number Z.add
             GUM_ARM_MREG_R0 GUM_ARM_MREG_SP GUM_ARM_MREG_PC Z.eqb
             Pos.eqb orb arm_reg_eqb];
      fold_constant (Z.quot right_value 4);
      match goal with
      | |- context [u16 (?k .| Z.quot right_value 4)] =>
          destruct (immediate_field k (Z.quot right_value 4) 8)
            as [Hhigh ->]; [lia | cbn; lia | reflexivity | exact Ha |]
      end;
      replace 12 with (8 + 4) by reflexivity;
      replace 11 with (8 + 3) by reflexivity;
      rewrite <- !Z.shiftr_shiftr, Hhigh by lia;
      repeat split; try reflexivity; symmetry; exact Hq.
Qed.

Lemma add_reg_reg_imm_holds_its_operands_witness :
  arm_reg_number ARM_REG_R0 <= 7 /\ arm_reg_number ARM_REG_R1 <= 7
  /\ fst (gum_thumb_writer_put_add_reg_reg_imm writer_at_0x1000 ARM_REG_R0
            ARM_REG_R1 3) = true.
Proof.
  assert (H0 : arm_reg_number ARM_REG_R0 <= 7) by (cbn; lia).
  assert (H1 : arm_reg_number ARM_REG_R1 <= 7) by (cbn; lia).
  assert (Hne : arm_reg_number ARM_REG_R1 <> arm_reg_number ARM_REG_R0)
    by discriminate.
  assert (H3 : - 7 <= 3 <= 7) by lia.
  split; [exact H0|]. split; [exact H1|].
  exact (proj1 (proj1 (add_reg_reg_imm_holds_its_operands writer_at_0x1000
                         ARM_REG_R0 ARM_REG_R1 3 H0) H1 Hne H3)).
Defined.

(** ** The target OS *)

Ltac os_fields :=
  unfold gum_thumb_writer_set_target_os;
  cbn [target_os base code pc id_to_address label_refs literal_refs heap
         halfwords_emitted bytes_skipped with_heap with_label_refs
         with_literal_refs with_id_to_address advance fst snd negb].

Ltac os_cases :=
  repeat match goal with
         | |- context [if ?c then _ else _] => destruct c
         | |- context [match ?o with
                       | GUM_THUMB_MEMORY_LOAD => _
                       | GUM_THUMB_MEMORY_STORE => _
                       end] => destruct o
         end;
  os_fields; try reflexivity.

Lemma os_blind_compose f g : os_blind f -> os_blind g ->
  os_blind (fun w => g (f w)).
Proof. intros Hf Hg w os. rewrite Hf, Hg. reflexivity. Qed.

Lemma os_blind_instruction insn :
  os_blind (fun w => gum_thumb_writer_put_instruction w insn).
Proof. intros w os. reflexivity. Qed.

Lemma put_instruction_os w os insn :
  gum_thumb_writer_put_instruction (gum_thumb_writer_set_target_os w os) insn
  = gum_thumb_writer_set_target_os (gum_thumb_writer_put_instruction w insn)
      os.
Proof. reflexivity. Qed.

Lemma os_blind_branch_imm target link thumb :
  os_blind
    (fun w => put_branch_distance w (branch_imm_distance w target) link
                thumb).
Proof.
  intros w os. unfold put_branch_distance, branch_imm_distance. cbv zeta.
  change (pc (gum_thumb_writer_set_target_os w os)) with (pc w).
  rewrite !put_instruction_os. reflexivity.
Qed.

Lemma os_blind_label_reference id insn :
  os_blind
    (fun w =>
       snd (let '(ok, self') :=
              gum_thumb_writer_add_label_reference_here w id in
            if negb ok then (false, w)
            else (true, gum_thumb_writer_put_instruction self' insn))).
Proof.
  intros w os. unfold gum_thumb_writer_add_label_reference_here,
    gum_thumb_writer_put_instruction. os_fields. os_cases.
Qed.

Lemma os_blind_ldr_reg_u32 reg val :
  os_blind (fun w => snd (gum_thumb_writer_put_ldr_reg_u32 w reg val)).
Proof.
  intros w os. unfold gum_thumb_writer_put_ldr_reg_u32,
    gum_thumb_writer_add_literal_reference_here,
    gum_thumb_writer_put_instruction. cbv zeta. os_fields. os_cases.
Qed.

Lemma os_blind_push_or_pop narrow wide special regs :
  os_blind
    (fun w =>
       snd (gum_thumb_writer_put_push_or_pop_regs w narrow wide special
              regs)).
Proof.
  intros w os. unfold gum_thumb_writer_put_push_or_pop_regs,
    gum_thumb_writer_put_instruction. cbv zeta. os_fields. os_cases.
Qed.

Lemma os_blind_transfer operation left_reg right_reg right_offset :
  os_blind
    (fun w =>
       snd (gum_thumb_writer_put_transfer_reg_reg_offset w operation
              left_reg right_reg right_offset)).
Proof.
  intros w os. unfold gum_thumb_writer_put_transfer_reg_reg_offset,
    gum_thumb_writer_put_instruction. cbv zeta. os_fields.
  match goal with
  | |- context [if ?c then (true, _) else _] => destruct c
  end; [reflexivity|].
  destruct (4095 <? _); reflexivity.
Qed.

Lemma os_blind_add_reg_imm dst_reg imm_value :
  os_blind
    (fun w => snd (gum_thumb_writer_put_add_reg_imm w dst_reg imm_value)).
Proof.
  intros w os. unfold gum_thumb_writer_put_add_reg_imm,
    gum_thumb_writer_put_instruction. cbv zeta. os_fields.
  destruct (_ =? GUM_ARM_MREG_SP); [|reflexivity].
  destruct (negb _); reflexivity.
Qed.

Lemma os_blind_add_reg_reg_imm dst_reg left_reg right_value :
  os_blind
    (fun w =>
       snd (gum_thumb_writer_put_add_reg_reg_imm w dst_reg left_reg
              right_value)).
Proof.
  intros w os. unfold gum_thumb_writer_put_add_reg_reg_imm. cbv zeta.
  destruct (_ =? meta _); [apply os_blind_add_reg_imm|].
  unfold gum_thumb_writer_put_instruction. os_fields.
  destruct (_ || _).
  - destruct (_ || _); reflexivity.
  - destruct (7 <? _); reflexivity.
Qed.

Lemma os_blind_argument arg_index arg :
  os_blind (fun w => put_argument w arg_index arg).
Proof.
  intros w os. unfold put_argument, gum_thumb_writer_put_ldr_reg_address,
    gum_thumb_writer_put_push_regs, gum_thumb_writer_put_mov_reg_reg.
  cbv zeta. destruct (arg_index <? 4)%nat, arg as [address|reg].
  - apply os_blind_ldr_reg_u32.
  - destruct (negb _); reflexivity.
  - rewrite (os_blind_ldr_reg_u32 ARM_REG_R0 (u32 address) w os).
    apply os_blind_push_or_pop.
  - apply os_blind_push_or_pop.
Qed.

Lemma os_blind_arguments args_rev :
  os_blind (fun w => put_arguments_from w args_rev).
Proof.
  induction args_rev as [|arg rest IH]; intros w os;
    cbn [put_arguments_from]; [reflexivity|].
  rewrite (os_blind_argument (length rest) arg w os). apply IH.
Qed.

Lemma os_blind_flush_literal_ref first_slot w os last r :
  flush_literal_ref first_slot (gum_thumb_writer_set_target_os w os, last) r
  = (gum_thumb_writer_set_target_os
       (fst (flush_literal_ref first_slot (w, last) r)) os,
     snd (flush_literal_ref first_slot (w, last) r)).
Proof.
  unfold flush_literal_ref. os_fields.
  destruct (find_slot _ _ _ _ =? last); os_fields;
    destruct (gum_instruction_is_t1_load _); reflexivity.
Qed.

Lemma os_blind_flush_literal_fold first_slot refs : forall w os last,
  fold_left (flush_literal_ref first_slot) refs
    (gum_thumb_writer_set_target_os w os, last)
  = (gum_thumb_writer_set_target_os
       (fst (fold_left (flush_literal_ref first_slot) refs (w, last))) os,
     snd (fold_left (flush_literal_ref first_slot) refs (w, last))).
Proof.
  induction refs as [|r rest IH]; intros w os last; cbn [fold_left];
    [reflexivity|].
  rewrite os_blind_flush_literal_ref, IH.
  destruct (flush_literal_ref first_slot (w, last) r); reflexivity.
Qed.

Lemma os_blind_flush_literal_refs : os_blind flush_literal_refs.
Proof.
  intros w os. unfold flush_literal_refs. cbv zeta.
  change (literal_refs (gum_thumb_writer_set_target_os w os))
    with (literal_refs w).
  change (heap (gum_thumb_writer_set_target_os w os)) with (heap w).
  change (pc (gum_thumb_writer_set_target_os w os)) with (pc w).
  destruct (_ && _).
  - change (gum_thumb_writer_put_nop (gum_thumb_writer_set_target_os w os))
      with (gum_thumb_writer_set_target_os (gum_thumb_writer_put_nop w) os).
    change (code (gum_thumb_writer_set_target_os
                    (gum_thumb_writer_put_nop w) os))
      with (code (gum_thumb_writer_put_nop w)).
    rewrite os_blind_flush_literal_fold.
    destruct (fold_left _ _ _). reflexivity.
  - change (code (gum_thumb_writer_set_target_os w os)) with (code w).
    rewrite os_blind_flush_literal_fold.
    destruct (fold_left _ _ _). reflexivity.
Qed.

Lemma os_blind_flush : os_blind (fun w => snd (gum_thumb_writer_flush w)).
Proof.
  intros w os. unfold gum_thumb_writer_flush.
  change (label_refs (gum_thumb_writer_set_target_os w os))
    with (label_refs w).
  change (id_to_address (gum_thumb_writer_set_target_os w os))
    with (id_to_address w).
  change (heap (gum_thumb_writer_set_target_os w os)) with (heap w).
  destruct (if 0 <? _ then _ else _) as [ok m].
  destruct ok; cbn [negb snd]; [|reflexivity].
  change (literal_refs
            (with_label_refs
               (with_heap (gum_thumb_writer_set_target_os w os) m) []))
    with (literal_refs (with_label_refs (with_heap w m) [])).
  destruct (0 <? _); cbn [snd]; [|reflexivity].
  apply (os_blind_flush_literal_refs (with_label_refs (with_heap w m) [])).
Qed.

(** Every call but the breakpoint, a change of the target OS and a reset
    is blind to the target OS. *)
Lemma os_blind_perform op :
  is_breakpoint op = false ->
  (forall os, op <> OpSetTargetOs os) ->
  (forall os a, op <> OpReset os a) ->
  os_blind (fun w => perform w op).
Proof.
  intros Hb Hos Hreset.
  destruct op; try discriminate Hb;
    try (exfalso; eapply Hos; reflexivity);
    try (exfalso; eapply Hreset; reflexivity);
    cbn [perform];
    unfold gum_thumb_writer_put_call_address_with_arguments_array,
      gum_thumb_writer_put_call_reg_with_arguments_array,
      gum_thumb_writer_put_argument_list_teardown,
      gum_thumb_writer_put_argument_list_setup,
      gum_thumb_writer_put_ldr_reg_address,
      gum_thumb_writer_put_b_imm, gum_thumb_writer_put_bl_imm,
      gum_thumb_writer_put_blx_imm, gum_thumb_writer_put_branch_imm,
      gum_thumb_writer_put_bx_reg, gum_thumb_writer_put_blx_reg,
      gum_thumb_writer_put_cmp_reg_imm,
      gum_thumb_writer_put_beq_label, gum_thumb_writer_put_bne_label,
      gum_thumb_writer_put_b_label, gum_thumb_writer_put_b_cond_label,
      gum_thumb_writer_put_cbz_reg_label,
      gum_thumb_writer_put_cbnz_reg_label,
      gum_thumb_writer_put_push_regs_array,
      gum_thumb_writer_put_pop_regs_array,
      gum_thumb_writer_put_ldr_reg_reg, gum_thumb_writer_put_str_reg_reg,
      gum_thumb_writer_put_ldr_reg_reg_offset,
      gum_thumb_writer_put_str_reg_reg_offset,
      gum_thumb_writer_put_mov_reg_reg, gum_thumb_writer_put_mov_reg_u8,
      gum_thumb_writer_put_add_reg_reg,
      gum_thumb_writer_put_add_reg_reg_reg,
      gum_thumb_writer_put_sub_reg_imm, gum_thumb_writer_put_sub_reg_reg,
      gum_thumb_writer_put_sub_reg_reg_reg,
      gum_thumb_writer_put_sub_reg_reg_imm,
      gum_thumb_writer_put_nop, gum_thumb_writer_put_bkpt_imm;
    cbv zeta;
    match goal with
    | |- os_blind (fun w => gum_thumb_writer_put_instruction w _) =>
        apply os_blind_instruction
    | |- os_blind (fun w => snd (let '(_, _) := _ in _)) =>
        apply os_blind_label_reference
    | |- os_blind (fun w => snd (gum_thumb_writer_put_ldr_reg_u32 w _ _)) =>
        apply os_blind_ldr_reg_u32
    | |- os_blind
           (fun w =>
              snd (gum_thumb_writer_put_push_or_pop_regs w _ _ _ _)) =>
        apply os_blind_push_or_pop
    | |- os_blind
           (fun w =>
              snd (gum_thumb_writer_put_transfer_reg_reg_offset w _ _ _ _)) =>
        apply os_blind_transfer
    | |- os_blind (fun w => snd (gum_thumb_writer_put_add_reg_imm w _ _)) =>
        apply os_blind_add_reg_imm
    | |- os_blind
           (fun w => snd (gum_thumb_writer_put_add_reg_reg_imm w _ _ _)) =>
        apply os_blind_add_reg_reg_imm
    | |- os_blind (fun w => snd (gum_thumb_writer_flush w)) =>
        apply os_blind_flush
    | |- os_blind (fun w => gum_thumb_writer_skip w _) =>
        intros w os; reflexivity
    | |- os_blind (fun w => put_branch_distance w _ _ _) =>
        apply os_blind_branch_imm
    | |- os_blind (fun w => snd (gum_thumb_writer_put_label w _)) =>
        intros w os;
        unfold gum_thumb_writer_put_label,
          gum_thumb_writer_add_address_for_label_id,
          gum_thumb_writer_lookup_address_for_label_id;
        os_fields; os_cases
    | |- os_blind (fun w => snd (gum_thumb_writer_put_bytes w _)) =>
        intros w os; unfold gum_thumb_writer_put_bytes; cbv zeta;
        os_fields; os_cases
    | |- os_blind
           (fun w =>
              gum_thumb_writer_put_instruction
                (snd (gum_thumb_writer_put_ldr_reg_u32
                        (put_arguments_from w ?args) ?reg ?val)) _) =>
        intros w os; rewrite (os_blind_arguments args w os);
        rewrite (os_blind_ldr_reg_u32 reg val); reflexivity
    | |- os_blind
           (fun w =>
              gum_thumb_writer_put_instruction
                (put_arguments_from w ?args) _) =>
        intros w os; rewrite (os_blind_arguments args w os); reflexivity
    end.
Qed.

Lemma perform_with_other_os op w os :
  is_breakpoint op = false ->
  exists os',
    perform (gum_thumb_writer_set_target_os w os) op
    = gum_thumb_writer_set_target_os (perform w op) os'.
Proof.
  intros Hb.
  destruct op; try discriminate Hb;
    try (exists os; apply os_blind_perform;
         [reflexivity | discriminate | discriminate]);
    eexists; reflexivity.
Qed.

Lemma perform_all_with_other_os ops : forall w os,
  forallb (fun op => negb (is_breakpoint op)) ops = true ->
  exists os',
    perform_all (gum_thumb_writer_set_target_os w os) ops
    = gum_thumb_writer_set_target_os (perform_all w ops) os'.
Proof.
  unfold perform_all.
  induction ops as [|op rest IH]; intros w os H; cbn [fold_left].
  - exists os. reflexivity.
  - cbn [forallb] in H. apply andb_prop in H. destruct H as [Hop Hrest].
    apply negb_true_iff in Hop.
    destruct (perform_with_other_os op w os Hop) as [os' ->].
    apply IH, Hrest.
Qed.

(** X23: the target OS matters to breakpoints only: with another target
    OS, the same calls, none of them a breakpoint, leave the same heap,
    cursor, pc and tables. *)
Theorem target_os_matters_to_breakpoints_only (w : GumThumbWriter)
    (os : GumOS) (ops : list operation) :
  forallb (fun op => negb (is_breakpoint op)) ops = true ->
  let w1 := perform_all w ops in
  let w2 := perform_all (gum_thumb_writer_set_target_os w os) ops in
  heap w2 = heap w1 /\ code w2 = code w1 /\ pc w2 = pc w1
  /\ base w2 = base w1 /\ id_to_address w2 = id_to_address w1
  /\ label_refs w2 = label_refs w1 /\ literal_refs w2 = literal_refs w1.
Proof.
  intros H. cbv zeta.
  destruct (perform_all_with_other_os ops w os H) as [os' ->].
  repeat split.
Qed.

Lemma target_os_matters_to_breakpoints_only_witness :
  forallb (fun op => negb (is_breakpoint op)) os_blind_ops = true
  /\ code (perform_all
             (gum_thumb_writer_set_target_os writer_at_0x1000 GUM_OS_OTHER)
             os_blind_ops)
     = code (perform_all writer_at_0x1000 os_blind_ops).
Proof.
  assert (H : forallb (fun op => negb (is_breakpoint op)) os_blind_ops
              = true) by reflexivity.
  split; [exact H|].
  exact (proj1 (proj2 (target_os_matters_to_breakpoints_only
                         writer_at_0x1000 GUM_OS_OTHER os_blind_ops H))).
Defined.

(** ** The size of what is emitted *)

Lemma emits_at_most_more n n' f :
  emits_at_most n f -> n <= n' -> emits_at_most n' f.
Proof. intros H Hn w. specialize (H w). lia. Qed.

Lemma emits_at_most_compose n n' f g :
  emits_at_most n f -> emits_at_most n' g ->
  emits_at_most (n + n') (fun w => g (f w)).
Proof. intros Hf Hg w. specialize (Hf w). specialize (Hg (f w)). lia. Qed.

Lemma emits_instruction insn :
  emits_at_most 2 (fun w => gum_thumb_writer_put_instruction w insn).
Proof. intros w. cbn. lia. Qed.

Lemma emits_label_reference id insn :
  emits_at_most 2
    (fun w =>
       snd (let '(ok, self') :=
              gum_thumb_writer_add_label_reference_here w id in
            if negb ok then (false, w)
            else (true, gum_thumb_writer_put_instruction self' insn))).
Proof.
  intros w. unfold gum_thumb_writer_add_label_reference_here.
  destruct (_ =? _); cbn; lia.
Qed.

Lemma emits_ldr_reg_u32 reg val :
  emits_at_most 4
    (fun w => snd (gum_thumb_writer_put_ldr_reg_u32 w reg val)).
Proof.
  intros w. unfold gum_thumb_writer_put_ldr_reg_u32,
    gum_thumb_writer_add_literal_reference_here.
  destruct (_ =? _); cbn [negb snd]; [lia|].
  destruct (_ <=? _); cbn; lia.
Qed.

(** A load into one of r0 to r7 is a single halfword. *)
Lemma emits_ldr_low_reg reg val :
  arm_reg_number reg <= 7 ->
  emits_at_most 2
    (fun w => snd (gum_thumb_writer_put_ldr_reg_u32 w reg val)).
Proof.
  intros Hlow w. unfold gum_thumb_writer_put_ldr_reg_u32,
    gum_thumb_writer_add_literal_reference_here.
  destruct (_ =? _); cbn [negb snd]; [lia|].
  replace (meta (gum_arm_reg_describe reg) <=? GUM_ARM_MREG_R7) with true
    by (symmetry; apply Z.leb_le; cbn; exact Hlow).
  cbn. lia.
Qed.

Lemma emits_push_or_pop narrow wide special regs :
  emits_at_most 4
    (fun w =>
       snd (gum_thumb_writer_put_push_or_pop_regs w narrow wide special
              regs)).
Proof.
  intros w. unfold gum_thumb_writer_put_push_or_pop_regs.
  destruct (_ =? 0); cbn [snd]; [lia|].
  destruct (need_wide_instruction _ _); cbn; lia.
Qed.

(** The push of r0 alone is a single halfword. *)
Lemma emits_push_r0 :
  emits_at_most 2
    (fun w => snd (gum_thumb_writer_put_push_regs w ARM_REG_R0 [])).
Proof. intros w. cbn. lia. Qed.

Lemma emits_transfer operation left_reg right_reg right_offset :
  emits_at_most 4
    (fun w =>
       snd (gum_thumb_writer_put_transfer_reg_reg_offset w operation
              left_reg right_reg right_offset)).
Proof.
  intros w. unfold gum_thumb_writer_put_transfer_reg_reg_offset. cbv zeta.
  match goal with
  | |- context [if ?c then (true, _) else _] => destruct c
  end; [cbn; lia|].
  destruct (4095 <? _); cbn; lia.
Qed.

Lemma emits_add_reg_imm dst_reg imm_value :
  emits_at_most 2
    (fun w => snd (gum_thumb_writer_put_add_reg_imm w dst_reg imm_value)).
Proof.
  intros w. unfold gum_thumb_writer_put_add_reg_imm. cbv zeta.
  destruct (_ =? GUM_ARM_MREG_SP); [|cbn; lia].
  destruct (negb _); cbn; lia.
Qed.

Lemma emits_add_reg_reg_imm dst_reg left_reg right_value :
  emits_at_most 2
    (fun w =>
       snd (gum_thumb_writer_put_add_reg_reg_imm w dst_reg left_reg
              right_value)).
Proof.
  intros w. unfold gum_thumb_writer_put_add_reg_reg_imm. cbv zeta.
  destruct (_ =? meta _); [apply emits_add_reg_imm|].
  destruct (_ || _).
  - destruct (_ || _); cbn; lia.
  - destruct (7 <? _); cbn; lia.
Qed.

Lemma emits_branch_imm target link thumb :
  emits_at_most 4
    (fun w => put_branch_distance w (branch_imm_distance w target) link
                thumb).
Proof. intros w. unfold put_branch_distance. cbn [code]. cbn. lia. Qed.

Lemma emits_argument arg_index arg :
  emits_at_most 4 (fun w => put_argument w arg_index arg).
Proof.
  unfold put_argument, gum_thumb_writer_put_ldr_reg_address. cbv zeta.
  destruct (arg_index <? 4)%nat, arg as [address|reg].
  - apply emits_ldr_reg_u32.
  - intros w. destruct (negb _); [|lia].
    unfold gum_thumb_writer_put_mov_reg_reg. cbv zeta.
    cbn [code gum_thumb_writer_put_instruction advance with_heap]. lia.
  - apply (emits_at_most_compose 2 2
             (fun w => snd (gum_thumb_writer_put_ldr_reg_u32 w ARM_REG_R0
                              (u32 address)))
             (fun w => snd (gum_thumb_writer_put_push_regs w ARM_REG_R0 []))).
    + apply emits_ldr_low_reg. cbn. lia.
    + apply emits_push_r0.
  - apply emits_push_or_pop.
Qed.

Lemma emits_arguments args_rev :
  emits_at_most (4 * Z.of_nat (length args_rev))
    (fun w => put_arguments_from w args_rev).
Proof.
  induction args_rev as [|arg rest IH]; intros w;
    cbn [put_arguments_from length]; [lia|].
  pose proof (emits_argument (length rest) arg w) as Harg.
  specialize (IH (put_argument w (length rest) arg)).
  cbv beta in Harg, IH. lia.
Qed.

Lemma emits_perform op :
  is_reset op = false -> op <> OpFlush ->
  emits_at_most (size_bound op) (fun w => perform w op).
Proof.
  intros Hreset Hflush.
  destruct op; try discriminate Hreset; try congruence;
    cbn [perform size_bound];
    unfold gum_thumb_writer_put_call_address_with_arguments_array,
      gum_thumb_writer_put_call_reg_with_arguments_array,
      gum_thumb_writer_put_argument_list_teardown,
      gum_thumb_writer_put_argument_list_setup,
      gum_thumb_writer_put_ldr_reg_address,
      gum_thumb_writer_put_b_imm, gum_thumb_writer_put_bl_imm,
      gum_thumb_writer_put_blx_imm, gum_thumb_writer_put_branch_imm,
      gum_thumb_writer_put_bx_reg, gum_thumb_writer_put_blx_reg,
      gum_thumb_writer_put_cmp_reg_imm,
      gum_thumb_writer_put_beq_label, gum_thumb_writer_put_bne_label,
      gum_thumb_writer_put_b_label, gum_thumb_writer_put_b_cond_label,
      gum_thumb_writer_put_cbz_reg_label,
      gum_thumb_writer_put_cbnz_reg_label,
      gum_thumb_writer_put_push_regs_array,
      gum_thumb_writer_put_pop_regs_array,
      gum_thumb_writer_put_ldr_reg_reg, gum_thumb_writer_put_str_reg_reg,
      gum_thumb_writer_put_ldr_reg_reg_offset,
      gum_thumb_writer_put_str_reg_reg_offset,
      gum_thumb_writer_put_mov_reg_reg, gum_thumb_writer_put_mov_reg_u8,
      gum_thumb_writer_put_add_reg_reg,
      gum_thumb_writer_put_add_reg_reg_reg,
      gum_thumb_writer_put_sub_reg_imm, gum_thumb_writer_put_sub_reg_reg,
      gum_thumb_writer_put_sub_reg_reg_reg,
      gum_thumb_writer_put_sub_reg_reg_imm,
      gum_thumb_writer_put_nop, gum_thumb_writer_put_bkpt_imm;
    cbv zeta;
    match goal with
    | |- emits_at_most _ (fun w => gum_thumb_writer_put_instruction w _) =>
        apply (emits_at_most_more 2); [apply emits_instruction | lia]
    | |- emits_at_most _ (fun w => snd (let '(_, _) := _ in _)) =>
        apply (emits_at_most_more 2); [apply emits_label_reference | lia]
    | |- emits_at_most _
           (fun w => snd (gum_thumb_writer_put_ldr_reg_u32 w _ _)) =>
        apply emits_ldr_reg_u32
    | |- emits_at_most _
           (fun w =>
              snd (gum_thumb_writer_put_push_or_pop_regs w _ _ _ _)) =>
        apply emits_push_or_pop
    | |- emits_at_most _
           (fun w =>
              snd (gum_thumb_writer_put_transfer_reg_reg_offset w _ _ _ _)) =>
        apply emits_transfer
    | |- emits_at_most _
           (fun w => snd (gum_thumb_writer_put_add_reg_imm w _ _)) =>
        apply (emits_at_most_more 2); [apply emits_add_reg_imm | lia]
    | |- emits_at_most _
           (fun w => snd (gum_thumb_writer_put_add_reg_reg_imm w _ _ _)) =>
        apply (emits_at_most_more 2); [apply emits_add_reg_reg_imm | lia]
    | |- emits_at_most _ (fun w => put_branch_distance w _ _ _) =>
        apply emits_branch_imm
    | |- emits_at_most _ (fun w => gum_thumb_writer_set_target_os w _) =>
        intros w; cbn; lia
    | |- emits_at_most _ (fun w => gum_thumb_writer_skip w ?n) =>
        intros w; cbn [gum_thumb_writer_skip code]; cbv zeta;
        pose proof (u32_range n); lia
    | |- emits_at_most _ (fun w => snd (gum_thumb_writer_put_label w _)) =>
        intros w;
        unfold gum_thumb_writer_put_label,
          gum_thumb_writer_add_address_for_label_id;
        destruct (negb _); cbn [snd]; [lia|];
        destruct (_ =? _); cbn; lia
    | |- emits_at_most _ (fun w => gum_thumb_writer_put_breakpoint w) =>
        intros w; unfold gum_thumb_writer_put_breakpoint,
          gum_thumb_writer_put_bkpt_imm, gum_thumb_writer_put_bx_reg;
        destruct (target_os w); cbn; lia
    | |- emits_at_most _ (fun w => snd (gum_thumb_writer_put_bytes w ?data)) =>
        intros w; unfold gum_thumb_writer_put_bytes; cbv zeta;
        destruct (Z.eqb_spec (Z.of_nat (length data) mod 2) 0) as [E|_];
        cbn [negb snd advance with_heap code]; [|lia];
        pose proof (Z.div_mod (Z.of_nat (length data)) 2); lia
    | |- emits_at_most _
           (fun w =>
              gum_thumb_writer_put_instruction
                (snd (gum_thumb_writer_put_ldr_reg_u32
                        (put_arguments_from w ?args) ?reg ?val)) ?insn) =>
        apply (emits_at_most_more
                 (4 * Z.of_nat (length args) + 4 + 2));
        [|rewrite length_rev; lia];
        apply (emits_at_most_compose _ 2
                 (fun w => snd (gum_thumb_writer_put_ldr_reg_u32
                                  (put_arguments_from w args) reg val))
                 (fun w => gum_thumb_writer_put_instruction w insn));
        [|apply emits_instruction];
        apply (emits_at_most_compose _ 4
                 (fun w => put_arguments_from w args)
                 (fun w => snd (gum_thumb_writer_put_ldr_reg_u32 w reg
                                  val)));
        [apply emits_arguments | apply emits_ldr_reg_u32]
    | |- emits_at_most _
           (fun w =>
              gum_thumb_writer_put_instruction
                (put_arguments_from w ?args) ?insn) =>
        apply (emits_at_most_more (4 * Z.of_nat (length args) + 2));
        [|rewrite length_rev; lia];
        apply (emits_at_most_compose _ 2
                 (fun w => put_arguments_from w args)
                 (fun w => gum_thumb_writer_put_instruction w insn));
        [apply emits_arguments | apply emits_instruction]
    end.
Qed.

Lemma operation_is_flush op : op = OpFlush \/ op <> OpFlush.
Proof. destruct op; try (right; discriminate). left. reflexivity. Qed.

Lemma perform_size w op :
  well_formed w = true -> within_capacity w -> is_reset op = false ->
  code w <= code (perform w op) <= code w + size_bound op.
Proof.
  intros Hwf Hcap Hreset.
  destruct (operation_is_flush op) as [-> | Hflush].
  - cbn [perform size_bound]. destruct Hcap as (_ & _ & Hlit).
    pose proof (flush_code_bound w Hwf) as Hbound.
    destruct (flush_carried w) as (_ & _ & _ & _ & _ & _ & Hc). lia.
  - apply (emits_perform op Hreset Hflush).
Qed.

Lemma perform_all_size ops : forall w,
  well_formed w = true -> within_capacity w ->
  forallb (fun op => negb (is_reset op)) ops = true ->
  code w <= code (perform_all w ops)
  <= code w + fold_right Z.add 0 (map size_bound ops).
Proof.
  unfold perform_all.
  induction ops as [|op rest IH]; intros w Hwf Hcap Hops;
    cbn [fold_left map fold_right]; [lia|].
  cbn [forallb] in Hops. apply andb_prop in Hops.
  destruct Hops as [Hop Hrest]. apply negb_true_iff in Hop.
  pose proof (perform_size w op Hwf Hcap Hop) as Hstep.
  pose proof (well_formed_perform_all [op] w Hwf) as Hwf'.
  pose proof (within_capacity_perform_all [op] w Hcap) as Hcap'.
  cbn [perform_all fold_left] in Hwf', Hcap'.
  specialize (IH (perform w op) Hwf' Hcap' Hrest). lia.
Qed.

(** X24: the calls after a reset move the cursor on, by no more than
    their sizes add up to: at most four bytes for an instruction, four
    for each argument of a call and two or six for the call itself, the
    bytes skipped or copied, and 402 bytes for a flush. *)
Theorem code_size_is_bounded (native_os : GumOS) (m : memory) (address : Z)
    (ops ops' : list operation) :
  let w := perform_all (gum_thumb_writer_reset native_os m address) ops in
  forallb (fun op => negb (is_reset op)) ops' = true ->
  code w <= code (perform_all w ops')
  <= code w + fold_right Z.add 0 (map size_bound ops').
Proof.
  cbv zeta. intros Hops. apply perform_all_size.
  - apply reached_well_formed.
  - apply within_capacity_perform_all, within_capacity_reset.
  - exact Hops.
Qed.

Lemma code_size_is_bounded_witness :
  forallb (fun op => negb (is_reset op)) sized_ops = true
  /\ code (perform_all
             (perform_all
                (gum_thumb_writer_reset GUM_OS_LINUX zero_heap 0x1000) [])
             sized_ops)
     <= code (perform_all
                (gum_thumb_writer_reset GUM_OS_LINUX zero_heap 0x1000) [])
        + fold_right Z.add 0 (map size_bound sized_ops).
Proof.
  assert (H : forallb (fun op => negb (is_reset op)) sized_ops = true)
    by reflexivity.
  split; [exact H|].
  exact (proj2 (code_size_is_bounded GUM_OS_LINUX zero_heap 0x1000 []
                  sized_ops H)).
Defined.
